(** * Verification of the kingdom math kernel (vectors, quaternions, bases,
      matrices, colour interpolation)

    The TypeScript sources under [src/math] work on fixed-size numeric arrays
    that are passed by reference: every transforming function receives an
    explicit [out] array, writes its result there and returns it.  Because
    [out] may be the very same array as an input, the order of reads and writes
    matters.  The embedding therefore keeps the arrays in a store:

    - a number is an element of an abstract carrier [F] with the operations the
      code uses ([Scalar]; [Trig] for [Math.sin], [Math.cos], [Math.acos];
      [Rem] for [%]).  Two carriers are provided: IEEE binary64 ([float], the
      numbers the program really runs on; it computes, but has no
      trigonometry and no remainder) and the real numbers ([R], exact
      arithmetic, in which the algebraic statements "up to floating tolerance"
      are proved as equalities);
    - an array is a [list F] living at a location of a [gmap] store; [a[i]] is
      a [load], [out[i] = v] a [store], an array literal an [alloc];
    - a function is a computation in the state-and-failure monad [M].  A
      computation fails only when an index is outside its array, which the
      tuple types of the source rule out.

    Over [R], [sqrt] and [acos] are only used inside their domains and no
    statement rests on a division by zero.

    The file has two parts: the definitions (carriers, store, the functions of
    the source, the values they compute, the mathematical vocabulary of the
    statements, the stores of the examples), then the proofs. *)

From Stdlib Require Import ZArith Floats.
From Stdlib Require Uint63.
From Stdlib Require Import Reals Lra Psatz RNsatz.
From stdpp Require Import base gmap list.

(** ** Numbers *)

Class Scalar (F : Type) : Type := {
  ofZ : Z -> F;
  fadd : F -> F -> F;
  fsub : F -> F -> F;
  fmul : F -> F -> F;
  fdiv : F -> F -> F;
  fneg : F -> F;
  fsqrt : F -> F;
  fabs : F -> F;
  fltb : F -> F -> bool;
  feqb : F -> F -> bool
}.

Class Trig (F : Type) : Type := {
  fsin : F -> F;
  fcos : F -> F;
  facos : F -> F
}.

Class Rem (F : Type) : Type := {
  frem : F -> F -> F
}.

Declare Scope num_scope.
Delimit Scope num_scope with num.
Notation "x + y" := (fadd x y) : num_scope.
Notation "x - y" := (fsub x y) : num_scope.
Notation "x * y" := (fmul x y) : num_scope.
Notation "x / y" := (fdiv x y) : num_scope.
Notation "- x" := (fneg x) : num_scope.
Notation "x <? y" := (fltb x y) : num_scope.
Notation "x >? y" := (fltb y x) : num_scope.
Notation "x =? y" := (feqb x y) : num_scope.
Notation "x 'mod' y" := (frem x y) : num_scope.
Notation "# z" := (ofZ z%Z) (at level 1, format "# z") : num_scope.

(** ** The store and its monad *)

Abbreviation loc := positive.

Abbreviation heap F := (gmap loc (list F)).

Definition M (F A : Type) : Type := heap F -> option (A * heap F).

Section Store.
Context {F : Type}.

Definition ret {A : Type} (x : A) : M F A := fun h => Some (x, h).

Definition bind {A B : Type} (m : M F A) (k : A -> M F B) : M F B :=
  fun h => match m h with
           | Some (x, h') => k x h'
           | None => None
           end.

(** [a[i]] *)
Definition load (a : loc) (i : nat) : M F F :=
  fun h => match h !! a with
           | Some vs => match vs !! i with
                        | Some v => Some (v, h)
                        | None => None
                        end
           | None => None
           end.

(** [a[i] = v] *)
Definition store (a : loc) (i : nat) (v : F) : M F unit :=
  fun h => match h !! a with
           | Some vs => if decide (i < length vs)
                        then Some (tt, <[a := <[i := v]> vs]> h)
                        else None
           | None => None
           end.

(** an array literal [[v0, v1, ...]]: a new object, distinct from every
    object of the store *)
Definition alloc (vs : list F) : M F loc :=
  fun h => let r := fresh (dom h) in Some (r, <[r := vs]> h).
End Store.

Declare Scope prog_scope.
Delimit Scope prog_scope with prog.
Notation "'let*' x := m 'in' k" := (bind m (fun x => k))
  (at level 10, x name, m at level 100, k at level 200,
   format "'[v' 'let*'  x  :=  m  'in' '/' k ']'") : prog_scope.
Notation "m ;; k" := (bind m (fun _ => k))
  (at level 100, k at level 200, right associativity,
   format "'[v' m  ;; '/' k ']'") : prog_scope.
Notation "a .[ i ]" := (load a i%nat)
  (at level 1, left associativity, format "a .[ i ]") : prog_scope.
Notation "a .[ i ] <- v" := (store a i%nat v%num)
  (at level 1, left associativity, v at level 90,
   format "a .[ i ]  <-  v") : prog_scope.

Local Open Scope prog_scope.
Local Open Scope num_scope.

(** ** The kernel, over any carrier *)

Section Kernel.
Context {F : Type} `{!Scalar F}.

(** [utils.ts]: [EPSILON = 0.000001] *)
Definition EPSILON : F := #1 / #1000000.

(** *** vec2.ts *)

Definition vec2Normalize (out v : loc) : M F loc :=
  let* x := v.[0] in
  let* y := v.[1] in
  let len := fsqrt (x * x + y * y) in
  if len =? #0 then
    out.[0] <- #0 ;;
    out.[1] <- #0 ;;
    ret out
  else
    (let* x := v.[0] in out.[0] <- x / len) ;;
    (let* y := v.[1] in out.[1] <- y / len) ;;
    ret out.

(** *** vec3.ts *)

Definition vec3Normalize (out v : loc) : M F loc :=
  let* x := v.[0] in
  let* y := v.[1] in
  let* z := v.[2] in
  let len := fsqrt (x * x + y * y + z * z) in
  if len =? #0 then
    out.[0] <- #0 ;;
    out.[1] <- #0 ;;
    out.[2] <- #0 ;;
    ret out
  else
    (let* x := v.[0] in out.[0] <- x / len) ;;
    (let* y := v.[1] in out.[1] <- y / len) ;;
    (let* z := v.[2] in out.[2] <- z / len) ;;
    ret out.

Definition vec3Cross (out a b : loc) : M F loc :=
  (let* a1 := a.[1] in let* b2 := b.[2] in let* a2 := a.[2] in let* b1 := b.[1] in
   out.[0] <- a1 * b2 - a2 * b1) ;;
  (let* a2 := a.[2] in let* b0 := b.[0] in let* a0 := a.[0] in let* b2 := b.[2] in
   out.[1] <- a2 * b0 - a0 * b2) ;;
  (let* a0 := a.[0] in let* b1 := b.[1] in let* a1 := a.[1] in let* b0 := b.[0] in
   out.[2] <- a0 * b1 - a1 * b0) ;;
  ret out.

Definition vec3Dot (a b : loc) : M F F :=
  let* a0 := a.[0] in let* b0 := b.[0] in
  let* a1 := a.[1] in let* b1 := b.[1] in
  let* a2 := a.[2] in let* b2 := b.[2] in
  ret (a0 * b0 + a1 * b1 + a2 * b2).

Definition vec3Add (out a b : loc) : M F loc :=
  (let* x := a.[0] in let* y := b.[0] in out.[0] <- x + y) ;;
  (let* x := a.[1] in let* y := b.[1] in out.[1] <- x + y) ;;
  (let* x := a.[2] in let* y := b.[2] in out.[2] <- x + y) ;;
  ret out.

Definition vec3Sub (out a b : loc) : M F loc :=
  (let* x := a.[0] in let* y := b.[0] in out.[0] <- x - y) ;;
  (let* x := a.[1] in let* y := b.[1] in out.[1] <- x - y) ;;
  (let* x := a.[2] in let* y := b.[2] in out.[2] <- x - y) ;;
  ret out.

Definition vec3Mul (out v : loc) (scalar : F) : M F loc :=
  (let* x := v.[0] in out.[0] <- x * scalar) ;;
  (let* x := v.[1] in out.[1] <- x * scalar) ;;
  (let* x := v.[2] in out.[2] <- x * scalar) ;;
  ret out.

Definition vec3Lerp (out a b : loc) (t : F) : M F loc :=
  let* temp := alloc [ #0; #0; #0 ] in
  vec3Sub temp b a ;;
  vec3Mul temp temp t ;;
  vec3Add out a temp ;;
  ret out.

(** *** quat.ts *)

Definition quatDot (a b : loc) : M F F :=
  let* a0 := a.[0] in let* b0 := b.[0] in
  let* a1 := a.[1] in let* b1 := b.[1] in
  let* a2 := a.[2] in let* b2 := b.[2] in
  let* a3 := a.[3] in let* b3 := b.[3] in
  ret (a0 * b0 + a1 * b1 + a2 * b2 + a3 * b3).

Definition quatLength (q : loc) : M F F :=
  let* x := q.[0] in let* y := q.[1] in let* z := q.[2] in let* w := q.[3] in
  ret (fsqrt (x * x + y * y + z * z + w * w)).

Definition quatNormalize (out q : loc) : M F loc :=
  let* len := quatLength q in
  if len =? #0 then
    out.[0] <- #0 ;;
    out.[1] <- #0 ;;
    out.[2] <- #0 ;;
    out.[3] <- #1 ;;
    ret out
  else
    (let* x := q.[0] in out.[0] <- x / len) ;;
    (let* y := q.[1] in out.[1] <- y / len) ;;
    (let* z := q.[2] in out.[2] <- z / len) ;;
    (let* w := q.[3] in out.[3] <- w / len) ;;
    ret out.

(** the renormalisation shared by [quatLerp], [quatSlerp], [basisLerp] and
    [basisSlerp]: [len = sqrt(o.o); if (len > EPSILON) o[i] /= len] *)
Definition renormalize (o : loc) : M F unit :=
  let* x := o.[0] in let* y := o.[1] in let* z := o.[2] in let* w := o.[3] in
  let len := fsqrt (x * x + y * y + z * z + w * w) in
  if len >? EPSILON then
    (let* x := o.[0] in o.[0] <- x / len) ;;
    (let* y := o.[1] in o.[1] <- y / len) ;;
    (let* z := o.[2] in o.[2] <- z / len) ;;
    (let* w := o.[3] in o.[3] <- w / len)
  else ret tt.

Definition quatLerp (out a b : loc) (t : F) : M F loc :=
  (let* a0 := a.[0] in let* b0 := b.[0] in let* a0' := a.[0] in
   out.[0] <- a0 + t * (b0 - a0')) ;;
  (let* a1 := a.[1] in let* b1 := b.[1] in let* a1' := a.[1] in
   out.[1] <- a1 + t * (b1 - a1')) ;;
  (let* a2 := a.[2] in let* b2 := b.[2] in let* a2' := a.[2] in
   out.[2] <- a2 + t * (b2 - a2')) ;;
  (let* a3 := a.[3] in let* b3 := b.[3] in let* a3' := a.[3] in
   out.[3] <- a3 + t * (b3 - a3')) ;;
  renormalize out ;;
  ret out.

(** the literal [0.9995] *)
Definition SLERP_THRESHOLD : F := #9995 / #10000.

Definition quatSlerp `{!Trig F} (out a b : loc) (t : F) : M F loc :=
  let* dot := quatDot a b in
  let* dot :=
    (if dot <? #0 then
       (let* x := b.[0] in out.[0] <- - x) ;;
       (let* x := b.[1] in out.[1] <- - x) ;;
       (let* x := b.[2] in out.[2] <- - x) ;;
       (let* x := b.[3] in out.[3] <- - x) ;;
       ret (- dot)
     else
       (let* x := b.[0] in out.[0] <- x) ;;
       (let* x := b.[1] in out.[1] <- x) ;;
       (let* x := b.[2] in out.[2] <- x) ;;
       (let* x := b.[3] in out.[3] <- x) ;;
       ret dot) in
  if dot >? SLERP_THRESHOLD then
    (let* a0 := a.[0] in let* o := out.[0] in let* a0' := a.[0] in
     out.[0] <- a0 + t * (o - a0')) ;;
    (let* a1 := a.[1] in let* o := out.[1] in let* a1' := a.[1] in
     out.[1] <- a1 + t * (o - a1')) ;;
    (let* a2 := a.[2] in let* o := out.[2] in let* a2' := a.[2] in
     out.[2] <- a2 + t * (o - a2')) ;;
    (let* a3 := a.[3] in let* o := out.[3] in let* a3' := a.[3] in
     out.[3] <- a3 + t * (o - a3')) ;;
    renormalize out ;;
    ret out
  else
    let theta0 := facos (fabs dot) in
    let sinTheta0 := fsin theta0 in
    let theta := theta0 * t in
    let sinTheta := fsin theta in
    let s0 := fcos theta - dot * sinTheta / sinTheta0 in
    let s1 := sinTheta / sinTheta0 in
    (let* a0 := a.[0] in let* o := out.[0] in out.[0] <- s0 * a0 + s1 * o) ;;
    (let* a1 := a.[1] in let* o := out.[1] in out.[1] <- s0 * a1 + s1 * o) ;;
    (let* a2 := a.[2] in let* o := out.[2] in out.[2] <- s0 * a2 + s1 * o) ;;
    (let* a3 := a.[3] in let* o := out.[3] in out.[3] <- s0 * a3 + s1 * o) ;;
    ret out.

(** *** basis.ts *)

Definition basisIdentity (out : loc) : M F loc :=
  out.[0] <- #1 ;; out.[1] <- #0 ;; out.[2] <- #0 ;;
  out.[3] <- #0 ;; out.[4] <- #1 ;; out.[5] <- #0 ;;
  out.[6] <- #0 ;; out.[7] <- #0 ;; out.[8] <- #1 ;;
  ret out.

Definition basisFromQuat (q : loc) : M F loc :=
  let* x := q.[0] in let* y := q.[1] in let* z := q.[2] in let* w := q.[3] in
  let x2 := x + x in
  let y2 := y + y in
  let z2 := z + z in
  let xx := x * x2 in
  let xy := x * y2 in
  let xz := x * z2 in
  let yy := y * y2 in
  let yz := y * z2 in
  let zz := z * z2 in
  let wx := w * x2 in
  let wy := w * y2 in
  let wz := w * z2 in
  alloc [ #1 - (yy + zz); xy + wz; xz - wy;
          xy - wz; #1 - (xx + zz); yz + wx;
          xz + wy; yz - wx; #1 - (xx + yy) ].

Definition basisFromAxisAngle `{!Trig F} (axis : loc) (angle : F) : M F loc :=
  let* zero3 := alloc [ #0; #0; #0 ] in
  let* normalizedAxis := vec3Normalize zero3 axis in
  let* x := normalizedAxis.[0] in
  let* y := normalizedAxis.[1] in
  let* z := normalizedAxis.[2] in
  let c := fcos angle in
  let s := fsin angle in
  let t := #1 - c in
  alloc [ x * x * t + c; y * x * t + z * s; z * x * t - y * s;
          x * y * t - z * s; y * y * t + c; z * y * t + x * s;
          x * z * t + y * s; y * z * t - x * s; z * z * t + c ].

Definition basisMul (out a b : loc) : M F loc :=
  let* a00 := a.[0] in let* a01 := a.[1] in let* a02 := a.[2] in
  let* a10 := a.[3] in let* a11 := a.[4] in let* a12 := a.[5] in
  let* a20 := a.[6] in let* a21 := a.[7] in let* a22 := a.[8] in
  let* b00 := b.[0] in let* b01 := b.[1] in let* b02 := b.[2] in
  let* b10 := b.[3] in let* b11 := b.[4] in let* b12 := b.[5] in
  let* b20 := b.[6] in let* b21 := b.[7] in let* b22 := b.[8] in
  out.[0] <- a00 * b00 + a01 * b10 + a02 * b20 ;;
  out.[1] <- a00 * b01 + a01 * b11 + a02 * b21 ;;
  out.[2] <- a00 * b02 + a01 * b12 + a02 * b22 ;;
  out.[3] <- a10 * b00 + a11 * b10 + a12 * b20 ;;
  out.[4] <- a10 * b01 + a11 * b11 + a12 * b21 ;;
  out.[5] <- a10 * b02 + a11 * b12 + a12 * b22 ;;
  out.[6] <- a20 * b00 + a21 * b10 + a22 * b20 ;;
  out.[7] <- a20 * b01 + a21 * b11 + a22 * b21 ;;
  out.[8] <- a20 * b02 + a21 * b12 + a22 * b22 ;;
  ret out.

Definition basisTranspose (out b : loc) : M F loc :=
  if decide (out = b) then
    let* b01 := b.[1] in let* b02 := b.[2] in let* b12 := b.[5] in
    (let* x := b.[3] in out.[1] <- x) ;;
    (let* x := b.[6] in out.[2] <- x) ;;
    out.[3] <- b01 ;;
    (let* x := b.[7] in out.[5] <- x) ;;
    out.[6] <- b02 ;;
    out.[7] <- b12 ;;
    ret out
  else
    (let* x := b.[0] in out.[0] <- x) ;;
    (let* x := b.[3] in out.[1] <- x) ;;
    (let* x := b.[6] in out.[2] <- x) ;;
    (let* x := b.[1] in out.[3] <- x) ;;
    (let* x := b.[4] in out.[4] <- x) ;;
    (let* x := b.[7] in out.[5] <- x) ;;
    (let* x := b.[2] in out.[6] <- x) ;;
    (let* x := b.[5] in out.[7] <- x) ;;
    (let* x := b.[8] in out.[8] <- x) ;;
    ret out.

Definition basisDeterminant (b : loc) : M F F :=
  let* b0 := b.[0] in let* b1 := b.[1] in let* b2 := b.[2] in
  let* b3 := b.[3] in let* b4 := b.[4] in let* b5 := b.[5] in
  let* b6 := b.[6] in let* b7 := b.[7] in let* b8 := b.[8] in
  ret (b0 * (b4 * b8 - b5 * b7) -
       b1 * (b3 * b8 - b5 * b6) +
       b2 * (b3 * b7 - b4 * b6)).

Definition basisInverse (out b : loc) : M F loc :=
  let* det := basisDeterminant b in
  if fabs det <? EPSILON then
    basisIdentity out
  else
    let invDet := #1 / det in
    (let* b4 := b.[4] in let* b8 := b.[8] in let* b5 := b.[5] in let* b7 := b.[7] in
     out.[0] <- (b4 * b8 - b5 * b7) * invDet) ;;
    (let* b2 := b.[2] in let* b7 := b.[7] in let* b1 := b.[1] in let* b8 := b.[8] in
     out.[1] <- (b2 * b7 - b1 * b8) * invDet) ;;
    (let* b1 := b.[1] in let* b5 := b.[5] in let* b2 := b.[2] in let* b4 := b.[4] in
     out.[2] <- (b1 * b5 - b2 * b4) * invDet) ;;
    (let* b5 := b.[5] in let* b6 := b.[6] in let* b3 := b.[3] in let* b8 := b.[8] in
     out.[3] <- (b5 * b6 - b3 * b8) * invDet) ;;
    (let* b0 := b.[0] in let* b8 := b.[8] in let* b2 := b.[2] in let* b6 := b.[6] in
     out.[4] <- (b0 * b8 - b2 * b6) * invDet) ;;
    (let* b2 := b.[2] in let* b3 := b.[3] in let* b0 := b.[0] in let* b5 := b.[5] in
     out.[5] <- (b2 * b3 - b0 * b5) * invDet) ;;
    (let* b3 := b.[3] in let* b7 := b.[7] in let* b4 := b.[4] in let* b6 := b.[6] in
     out.[6] <- (b3 * b7 - b4 * b6) * invDet) ;;
    (let* b1 := b.[1] in let* b6 := b.[6] in let* b0 := b.[0] in let* b7 := b.[7] in
     out.[7] <- (b1 * b6 - b0 * b7) * invDet) ;;
    (let* b0 := b.[0] in let* b4 := b.[4] in let* b1 := b.[1] in let* b3 := b.[3] in
     out.[8] <- (b0 * b4 - b1 * b3) * invDet) ;;
    ret out.

Definition basisToQuat (b : loc) : M F loc :=
  let* b0 := b.[0] in let* b1 := b.[1] in let* b2 := b.[2] in
  let* b3 := b.[3] in let* b4 := b.[4] in let* b5 := b.[5] in
  let* b6 := b.[6] in let* b7 := b.[7] in let* b8 := b.[8] in
  let trace := b0 + b4 + b8 in
  if trace >? #0 then
    let s := fsqrt (trace + #1) * #2 in
    alloc [ (b7 - b5) / s; (b2 - b6) / s; (b3 - b1) / s; #1 / #4 * s ]
  else if (b0 >? b4) && (b0 >? b8) then
    let s := fsqrt (#1 + b0 - b4 - b8) * #2 in
    alloc [ #1 / #4 * s; (b1 + b3) / s; (b2 + b6) / s; (b7 - b5) / s ]
  else if b4 >? b8 then
    let s := fsqrt (#1 + b4 - b0 - b8) * #2 in
    alloc [ (b1 + b3) / s; #1 / #4 * s; (b5 + b7) / s; (b2 - b6) / s ]
  else
    let s := fsqrt (#1 + b8 - b0 - b4) * #2 in
    alloc [ (b2 + b6) / s; (b5 + b7) / s; #1 / #4 * s; (b3 - b1) / s ].

(** an array literal [[a[i], a[j], a[k]]] *)
Definition triple (a : loc) (i j k : nat) : M F loc :=
  let* x := a.[i] in let* y := a.[j] in let* z := a.[k] in alloc [x; y; z].

Definition basisOrthonormalize (out b : loc) : M F loc :=
  (let* o := triple out 0 1 2 in
   let* v := triple b 0 1 2 in
   vec3Normalize o v) ;;
  let* yProj :=
    (let* v := triple b 3 4 5 in
     let* o := triple out 0 1 2 in
     vec3Dot v o) in
  let* yAxis :=
    (let* b3 := b.[3] in let* o0 := out.[0] in
     let* b4 := b.[4] in let* o1 := out.[1] in
     let* b5 := b.[5] in let* o2 := out.[2] in
     alloc [b3 - yProj * o0; b4 - yProj * o1; b5 - yProj * o2]) in
  (let* o := triple out 3 4 5 in
   vec3Normalize o yAxis) ;;
  (let* o := triple out 6 7 8 in
   let* x := triple out 0 1 2 in
   let* y := triple out 3 4 5 in
   vec3Cross o x y) ;;
  ret out.

Definition basisLerp (out a b : loc) (t : F) : M F loc :=
  let* qa := basisToQuat a in
  let* qb := basisToQuat b in
  let* qOut :=
    (let* a0 := qa.[0] in let* b0 := qb.[0] in let* a0' := qa.[0] in
     let* a1 := qa.[1] in let* b1 := qb.[1] in let* a1' := qa.[1] in
     let* a2 := qa.[2] in let* b2 := qb.[2] in let* a2' := qa.[2] in
     let* a3 := qa.[3] in let* b3 := qb.[3] in let* a3' := qa.[3] in
     alloc [a0 + t * (b0 - a0'); a1 + t * (b1 - a1');
            a2 + t * (b2 - a2'); a3 + t * (b3 - a3')]) in
  renormalize qOut ;;
  basisFromQuat qOut.

Definition basisSlerp `{!Trig F} (out a b : loc) (t : F) : M F loc :=
  let* qa := basisToQuat a in
  let* qb := basisToQuat b in
  let* dot := quatDot qa qb in
  let* dot :=
    (if dot <? #0 then
       (let* x := qb.[0] in qb.[0] <- - x) ;;
       (let* x := qb.[1] in qb.[1] <- - x) ;;
       (let* x := qb.[2] in qb.[2] <- - x) ;;
       (let* x := qb.[3] in qb.[3] <- - x) ;;
       ret (- dot)
     else ret dot) in
  if dot >? SLERP_THRESHOLD then
    let* qOut :=
      (let* a0 := qa.[0] in let* b0 := qb.[0] in let* a0' := qa.[0] in
       let* a1 := qa.[1] in let* b1 := qb.[1] in let* a1' := qa.[1] in
       let* a2 := qa.[2] in let* b2 := qb.[2] in let* a2' := qa.[2] in
       let* a3 := qa.[3] in let* b3 := qb.[3] in let* a3' := qa.[3] in
       alloc [a0 + t * (b0 - a0'); a1 + t * (b1 - a1');
              a2 + t * (b2 - a2'); a3 + t * (b3 - a3')]) in
    renormalize qOut ;;
    basisFromQuat qOut
  else
    let theta0 := facos (fabs dot) in
    let sinTheta0 := fsin theta0 in
    let theta := theta0 * t in
    let sinTheta := fsin theta in
    let s0 := fcos theta - dot * sinTheta / sinTheta0 in
    let s1 := sinTheta / sinTheta0 in
    let* qOut :=
      (let* a0 := qa.[0] in let* b0 := qb.[0] in
       let* a1 := qa.[1] in let* b1 := qb.[1] in
       let* a2 := qa.[2] in let* b2 := qb.[2] in
       let* a3 := qa.[3] in let* b3 := qb.[3] in
       alloc [s0 * a0 + s1 * b0; s0 * a1 + s1 * b1;
              s0 * a2 + s1 * b2; s0 * a3 + s1 * b3]) in
    basisFromQuat qOut.

Definition basisRotate `{!Trig F} (out b axis : loc) (angle : F) : M F loc :=
  let* rotationBasis := basisFromAxisAngle axis angle in
  basisMul out rotationBasis b.

Definition basisRotateLocal `{!Trig F} (out b axis : loc) (angle : F) : M F loc :=
  let* rotationBasis := basisFromAxisAngle axis angle in
  basisMul out b rotationBasis.

(** *** mat3.ts *)

(** [null] is [None] *)
Definition mat3Invert (out a : loc) : M F (option loc) :=
  let* a00 := a.[0] in let* a01 := a.[1] in let* a02 := a.[2] in
  let* a10 := a.[3] in let* a11 := a.[4] in let* a12 := a.[5] in
  let* a20 := a.[6] in let* a21 := a.[7] in let* a22 := a.[8] in
  let b01 := a22 * a11 - a12 * a21 in
  let b11 := - a22 * a10 + a12 * a20 in
  let b21 := a21 * a10 - a11 * a20 in
  let det := a00 * b01 + a01 * b11 + a02 * b21 in
  if fabs det <? EPSILON then
    ret None
  else
    let det := #1 / det in
    out.[0] <- b01 * det ;;
    out.[1] <- (- a22 * a01 + a02 * a21) * det ;;
    out.[2] <- (a12 * a01 - a02 * a11) * det ;;
    out.[3] <- b11 * det ;;
    out.[4] <- (a22 * a00 - a02 * a20) * det ;;
    out.[5] <- (- a12 * a00 + a02 * a10) * det ;;
    out.[6] <- b21 * det ;;
    out.[7] <- (- a21 * a00 + a01 * a20) * det ;;
    out.[8] <- (a11 * a00 - a01 * a10) * det ;;
    ret (Some out).

(** *** mat4.ts *)

Definition mat4Mul (out a b : loc) : M F loc :=
  let* a00 := a.[0] in let* a01 := a.[1] in let* a02 := a.[2] in let* a03 := a.[3] in
  let* a10 := a.[4] in let* a11 := a.[5] in let* a12 := a.[6] in let* a13 := a.[7] in
  let* a20 := a.[8] in let* a21 := a.[9] in let* a22 := a.[10] in let* a23 := a.[11] in
  let* a30 := a.[12] in let* a31 := a.[13] in let* a32 := a.[14] in let* a33 := a.[15] in
  let* b0 := b.[0] in let* b1 := b.[1] in let* b2 := b.[2] in let* b3 := b.[3] in
  out.[0] <- b0 * a00 + b1 * a10 + b2 * a20 + b3 * a30 ;;
  out.[1] <- b0 * a01 + b1 * a11 + b2 * a21 + b3 * a31 ;;
  out.[2] <- b0 * a02 + b1 * a12 + b2 * a22 + b3 * a32 ;;
  out.[3] <- b0 * a03 + b1 * a13 + b2 * a23 + b3 * a33 ;;
  let* b0 := b.[4] in let* b1 := b.[5] in let* b2 := b.[6] in let* b3 := b.[7] in
  out.[4] <- b0 * a00 + b1 * a10 + b2 * a20 + b3 * a30 ;;
  out.[5] <- b0 * a01 + b1 * a11 + b2 * a21 + b3 * a31 ;;
  out.[6] <- b0 * a02 + b1 * a12 + b2 * a22 + b3 * a32 ;;
  out.[7] <- b0 * a03 + b1 * a13 + b2 * a23 + b3 * a33 ;;
  let* b0 := b.[8] in let* b1 := b.[9] in let* b2 := b.[10] in let* b3 := b.[11] in
  out.[8] <- b0 * a00 + b1 * a10 + b2 * a20 + b3 * a30 ;;
  out.[9] <- b0 * a01 + b1 * a11 + b2 * a21 + b3 * a31 ;;
  out.[10] <- b0 * a02 + b1 * a12 + b2 * a22 + b3 * a32 ;;
  out.[11] <- b0 * a03 + b1 * a13 + b2 * a23 + b3 * a33 ;;
  let* b0 := b.[12] in let* b1 := b.[13] in let* b2 := b.[14] in let* b3 := b.[15] in
  out.[12] <- b0 * a00 + b1 * a10 + b2 * a20 + b3 * a30 ;;
  out.[13] <- b0 * a01 + b1 * a11 + b2 * a21 + b3 * a31 ;;
  out.[14] <- b0 * a02 + b1 * a12 + b2 * a22 + b3 * a32 ;;
  out.[15] <- b0 * a03 + b1 * a13 + b2 * a23 + b3 * a33 ;;
  ret out.

Definition mat4TransformVec3 (out m v : loc) : M F loc :=
  let* x := v.[0] in let* y := v.[1] in let* z := v.[2] in
  let* w :=
    (let* m3 := m.[3] in let* m7 := m.[7] in let* m11 := m.[11] in let* m15 := m.[15] in
     ret (m3 * x + m7 * y + m11 * z + m15)) in
  (let* m0 := m.[0] in let* m4 := m.[4] in let* m8 := m.[8] in let* m12 := m.[12] in
   out.[0] <- m0 * x + m4 * y + m8 * z + m12) ;;
  (let* m1 := m.[1] in let* m5 := m.[5] in let* m9 := m.[9] in let* m13 := m.[13] in
   out.[1] <- m1 * x + m5 * y + m9 * z + m13) ;;
  (let* m2 := m.[2] in let* m6 := m.[6] in let* m10 := m.[10] in let* m14 := m.[14] in
   out.[2] <- m2 * x + m6 * y + m10 * z + m14) ;;
  (if w =? #0 then ret tt
   else
     (let* o := out.[0] in out.[0] <- o / w) ;;
     (let* o := out.[1] in out.[1] <- o / w) ;;
     (let* o := out.[2] in out.[2] <- o / w)) ;;
  ret out.

(** *** color.ts *)

Definition lerpHsv `{!Rem F} (out a b : loc) (t : F) : M F loc :=
  let* hDiff := (let* b0 := b.[0] in let* a0 := a.[0] in ret (b0 - a0)) in
  let hDiff := if hDiff >? #180 then hDiff - #360 else hDiff in
  let hDiff := if hDiff <? #(-180) then hDiff + #360 else hDiff in
  (let* a0 := a.[0] in
   out.[0] <- (a0 + hDiff * t + #360) mod #360) ;;
  (let* a1 := a.[1] in let* b1 := b.[1] in let* a1' := a.[1] in
   out.[1] <- a1 + (b1 - a1') * t) ;;
  (let* a2 := a.[2] in let* b2 := b.[2] in let* a2' := a.[2] in
   out.[2] <- a2 + (b2 - a2') * t) ;;
  ret out.
End Kernel.

(** ** The two carriers *)

(** *** Exact arithmetic *)

Definition Rltb (x y : R) : bool := if Rlt_dec x y then true else false.
Definition Reqb (x y : R) : bool := if Req_dec_T x y then true else false.

(** truncation towards zero, as in the remainder operator [%] *)
Definition Rtrunc (x : R) : Z :=
  if Rle_dec 0 x then Int_part x else (- Int_part (- x))%Z.

(** [x % y]: the remainder has the sign of the dividend *)
Definition Rrem (x y : R) : R := (x - IZR (Rtrunc (x / y)) * y)%R.

#[global] Instance R_scalar : Scalar R := {|
  ofZ := IZR;
  fadd := Rplus;
  fsub := Rminus;
  fmul := Rmult;
  fdiv := Rdiv;
  fneg := Ropp;
  fsqrt := sqrt;
  fabs := Rabs;
  fltb := Rltb;
  feqb := Reqb
|}.

#[global] Instance R_trig : Trig R := {|
  fsin := sin;
  fcos := cos;
  facos := acos
|}.

#[global] Instance R_rem : Rem R := {| frem := Rrem |}.

(** *** IEEE binary64 *)

Definition float_ofZ (z : Z) : float :=
  match z with
  | Z0 => PrimFloat.of_uint63 (Uint63.of_Z 0)
  | Zpos _ => PrimFloat.of_uint63 (Uint63.of_Z z)
  | Zneg p => PrimFloat.opp (PrimFloat.of_uint63 (Uint63.of_Z (Zpos p)))
  end.

#[global] Instance float_scalar : Scalar float := {|
  ofZ := float_ofZ;
  fadd := PrimFloat.add;
  fsub := PrimFloat.sub;
  fmul := PrimFloat.mul;
  fdiv := PrimFloat.div;
  fneg := PrimFloat.opp;
  fsqrt := PrimFloat.sqrt;
  fabs := PrimFloat.abs;
  fltb := PrimFloat.ltb;
  feqb := PrimFloat.eqb
|}.

(** ** Specifications of runs *)

(** [wp m h Q]: from the store [h], [m] returns a result and a store that
    satisfy [Q] *)
Definition wp {F A : Type} (m : M F A) (h : heap F) (Q : A -> heap F -> Prop) : Prop :=
  match m h with
  | Some (x, h') => Q x h'
  | None => False
  end.

(** the array a computation leaves at [l] *)
Definition result_at {F A : Type} (m : M F A) (h : heap F) (l : loc) : option (list F) :=
  match m h with
  | Some (_, h') => h' !! l
  | None => None
  end.

(** the array at the location a computation returns *)
Definition returned {F : Type} (m : M F loc) (h : heap F) : option (list F) :=
  match m h with
  | Some (r, h') => h' !! r
  | None => None
  end.

(** ** What the functions compute

    The value a function leaves in its result array, as a function of the
    values of its input arrays, for a call whose inputs are not overwritten
    while they are still read. *)

Notation "l @ i" := (nth i%nat l #0) (at level 8, i at level 1, format "l @ i") : num_scope.

Section Values.
Context {F : Type} `{!Scalar F}.
Implicit Types (a b q : list F) (t : F).

Definition vec3Normalize_val (v : list F) : list F :=
  let len := fsqrt (v@0 * v@0 + v@1 * v@1 + v@2 * v@2) in
  if len =? #0 then [ #0; #0; #0 ]
  else [v@0 / len; v@1 / len; v@2 / len].

Definition vec3Lerp_val a b t : list F :=
  [a@0 + (b@0 - a@0) * t; a@1 + (b@1 - a@1) * t; a@2 + (b@2 - a@2) * t].

Definition quatDot_val a b : F :=
  a@0 * b@0 + a@1 * b@1 + a@2 * b@2 + a@3 * b@3.

Definition quatLength_val q : F :=
  fsqrt (q@0 * q@0 + q@1 * q@1 + q@2 * q@2 + q@3 * q@3).

Definition renormalize_val q : list F :=
  let len := quatLength_val q in
  if len >? EPSILON then [q@0 / len; q@1 / len; q@2 / len; q@3 / len]
  else [q@0; q@1; q@2; q@3].

Definition mix_val a b t : list F :=
  [a@0 + t * (b@0 - a@0); a@1 + t * (b@1 - a@1);
   a@2 + t * (b@2 - a@2); a@3 + t * (b@3 - a@3)].

Definition quatLerp_val a b t : list F := renormalize_val (mix_val a b t).

(** the operand [quatSlerp] interpolates towards, and the dot product it
    goes on with *)
Definition slerp_target a b : list F :=
  if quatDot_val a b <? #0 then [- b@0; - b@1; - b@2; - b@3]
  else [b@0; b@1; b@2; b@3].

Definition slerp_dot a b : F :=
  if quatDot_val a b <? #0 then - quatDot_val a b else quatDot_val a b.

Definition quatSlerp_val `{!Trig F} a b t : list F :=
  let dot := slerp_dot a b in
  let b' := slerp_target a b in
  if dot >? SLERP_THRESHOLD then renormalize_val (mix_val a b' t)
  else
    let theta0 := facos (fabs dot) in
    let sinTheta0 := fsin theta0 in
    let theta := theta0 * t in
    let sinTheta := fsin theta in
    let s0 := fcos theta - dot * sinTheta / sinTheta0 in
    let s1 := sinTheta / sinTheta0 in
    [s0 * a@0 + s1 * b'@0; s0 * a@1 + s1 * b'@1;
     s0 * a@2 + s1 * b'@2; s0 * a@3 + s1 * b'@3].
(** what [quatSlerp(a, a, b, t)] leaves in [a]: the first block has already
    replaced [a] by the target when the interpolation reads it *)
Definition quatSlerp_inplace_val `{!Trig F} a b t : list F :=
  let dot := slerp_dot a b in
  let b' := slerp_target a b in
  if dot >? SLERP_THRESHOLD then renormalize_val (mix_val b' b' t)
  else
    let theta0 := facos (fabs dot) in
    let sinTheta0 := fsin theta0 in
    let theta := theta0 * t in
    let sinTheta := fsin theta in
    let s0 := fcos theta - dot * sinTheta / sinTheta0 in
    let s1 := sinTheta / sinTheta0 in
    [s0 * b'@0 + s1 * b'@0; s0 * b'@1 + s1 * b'@1;
     s0 * b'@2 + s1 * b'@2; s0 * b'@3 + s1 * b'@3].

Definition basisIdentity_val : list F :=
  [ #1; #0; #0; #0; #1; #0; #0; #0; #1 ].

Definition basisFromQuat_val q : list F :=
  let x := q@0 in let y := q@1 in let z := q@2 in let w := q@3 in
  let x2 := x + x in
  let y2 := y + y in
  let z2 := z + z in
  let xx := x * x2 in
  let xy := x * y2 in
  let xz := x * z2 in
  let yy := y * y2 in
  let yz := y * z2 in
  let zz := z * z2 in
  let wx := w * x2 in
  let wy := w * y2 in
  let wz := w * z2 in
  [ #1 - (yy + zz); xy + wz; xz - wy;
    xy - wz; #1 - (xx + zz); yz + wx;
    xz + wy; yz - wx; #1 - (xx + yy) ].

Definition basisFromAxisAngle_val `{!Trig F} (axis : list F) (angle : F) : list F :=
  let n := vec3Normalize_val axis in
  let x := n@0 in let y := n@1 in let z := n@2 in
  let c := fcos angle in
  let s := fsin angle in
  let t := #1 - c in
  [ x * x * t + c; y * x * t + z * s; z * x * t - y * s;
    x * y * t - z * s; y * y * t + c; z * y * t + x * s;
    x * z * t + y * s; y * z * t - x * s; z * z * t + c ].

Definition basisMul_val a b : list F :=
  [ a@0 * b@0 + a@1 * b@3 + a@2 * b@6;
    a@0 * b@1 + a@1 * b@4 + a@2 * b@7;
    a@0 * b@2 + a@1 * b@5 + a@2 * b@8;
    a@3 * b@0 + a@4 * b@3 + a@5 * b@6;
    a@3 * b@1 + a@4 * b@4 + a@5 * b@7;
    a@3 * b@2 + a@4 * b@5 + a@5 * b@8;
    a@6 * b@0 + a@7 * b@3 + a@8 * b@6;
    a@6 * b@1 + a@7 * b@4 + a@8 * b@7;
    a@6 * b@2 + a@7 * b@5 + a@8 * b@8 ].

Definition basisTranspose_val b : list F :=
  [ b@0; b@3; b@6; b@1; b@4; b@7; b@2; b@5; b@8 ].

Definition basisDeterminant_val b : F :=
  b@0 * (b@4 * b@8 - b@5 * b@7) -
  b@1 * (b@3 * b@8 - b@5 * b@6) +
  b@2 * (b@3 * b@7 - b@4 * b@6).

Definition basisInverse_val b : list F :=
  let det := basisDeterminant_val b in
  if fabs det <? EPSILON then basisIdentity_val
  else
    let invDet := #1 / det in
    [ (b@4 * b@8 - b@5 * b@7) * invDet;
      (b@2 * b@7 - b@1 * b@8) * invDet;
      (b@1 * b@5 - b@2 * b@4) * invDet;
      (b@5 * b@6 - b@3 * b@8) * invDet;
      (b@0 * b@8 - b@2 * b@6) * invDet;
      (b@2 * b@3 - b@0 * b@5) * invDet;
      (b@3 * b@7 - b@4 * b@6) * invDet;
      (b@1 * b@6 - b@0 * b@7) * invDet;
      (b@0 * b@4 - b@1 * b@3) * invDet ].

(** what [basisInverse(b, b)] leaves in [b]: from the third entry on, the
    entries it reads are in part those it has just written *)
Definition basisInverse_inplace_val b : list F :=
  let det := basisDeterminant_val b in
  if fabs det <? EPSILON then basisIdentity_val
  else
    let invDet := #1 / det in
    let o0 := (b@4 * b@8 - b@5 * b@7) * invDet in
    let o1 := (b@2 * b@7 - b@1 * b@8) * invDet in
    let o2 := (o1 * b@5 - b@2 * b@4) * invDet in
    let o3 := (b@5 * b@6 - b@3 * b@8) * invDet in
    let o4 := (o0 * b@8 - o2 * b@6) * invDet in
    let o5 := (o2 * o3 - o0 * b@5) * invDet in
    let o6 := (o3 * b@7 - o4 * b@6) * invDet in
    let o7 := (o1 * o6 - o0 * b@7) * invDet in
    let o8 := (o0 * o4 - o1 * o3) * invDet in
    [ o0; o1; o2; o3; o4; o5; o6; o7; o8 ].

Definition basisToQuat_val b : list F :=
  let trace := b@0 + b@4 + b@8 in
  if trace >? #0 then
    let s := fsqrt (trace + #1) * #2 in
    [ (b@7 - b@5) / s; (b@2 - b@6) / s; (b@3 - b@1) / s; #1 / #4 * s ]
  else if (b@0 >? b@4) && (b@0 >? b@8) then
    let s := fsqrt (#1 + b@0 - b@4 - b@8) * #2 in
    [ #1 / #4 * s; (b@1 + b@3) / s; (b@2 + b@6) / s; (b@7 - b@5) / s ]
  else if b@4 >? b@8 then
    let s := fsqrt (#1 + b@4 - b@0 - b@8) * #2 in
    [ (b@1 + b@3) / s; #1 / #4 * s; (b@5 + b@7) / s; (b@2 - b@6) / s ]
  else
    let s := fsqrt (#1 + b@8 - b@0 - b@4) * #2 in
    [ (b@2 + b@6) / s; (b@5 + b@7) / s; #1 / #4 * s; (b@3 - b@1) / s ].

Definition basisLerp_val a b t : list F :=
  basisFromQuat_val (quatLerp_val (basisToQuat_val a) (basisToQuat_val b) t).

Definition basisSlerp_val `{!Trig F} a b t : list F :=
  basisFromQuat_val (quatSlerp_val (basisToQuat_val a) (basisToQuat_val b) t).

(** the determinant as [mat3Invert] accumulates it *)
Definition mat3Invert_det (a : list F) : F :=
  let b01 := a@8 * a@4 - a@5 * a@7 in
  let b11 := - a@8 * a@3 + a@5 * a@6 in
  let b21 := a@7 * a@3 - a@4 * a@6 in
  a@0 * b01 + a@1 * b11 + a@2 * b21.

Definition mat3Invert_val (a : list F) : list F :=
  let b01 := a@8 * a@4 - a@5 * a@7 in
  let b11 := - a@8 * a@3 + a@5 * a@6 in
  let b21 := a@7 * a@3 - a@4 * a@6 in
  let det := #1 / mat3Invert_det a in
  [ b01 * det;
    (- a@8 * a@1 + a@2 * a@7) * det;
    (a@5 * a@1 - a@2 * a@4) * det;
    b11 * det;
    (a@8 * a@0 - a@2 * a@6) * det;
    (- a@5 * a@0 + a@2 * a@3) * det;
    b21 * det;
    (- a@7 * a@0 + a@1 * a@6) * det;
    (a@4 * a@0 - a@1 * a@3) * det ].

Definition mat4Mul_row (a : list F) (b0 b1 b2 b3 : F) : list F :=
  [ b0 * a@0 + b1 * a@4 + b2 * a@8 + b3 * a@12;
    b0 * a@1 + b1 * a@5 + b2 * a@9 + b3 * a@13;
    b0 * a@2 + b1 * a@6 + b2 * a@10 + b3 * a@14;
    b0 * a@3 + b1 * a@7 + b2 * a@11 + b3 * a@15 ].

Definition mat4Mul_val (a b : list F) : list F :=
  mat4Mul_row a b@0 b@1 b@2 b@3 ++
  mat4Mul_row a b@4 b@5 b@6 b@7 ++
  mat4Mul_row a b@8 b@9 b@10 b@11 ++
  mat4Mul_row a b@12 b@13 b@14 b@15.

Definition mat4TransformVec3_val (m v : list F) : list F :=
  let x := v@0 in let y := v@1 in let z := v@2 in
  let w := m@3 * x + m@7 * y + m@11 * z + m@15 in
  let p0 := m@0 * x + m@4 * y + m@8 * z + m@12 in
  let p1 := m@1 * x + m@5 * y + m@9 * z + m@13 in
  let p2 := m@2 * x + m@6 * y + m@10 * z + m@14 in
  if w =? #0 then [p0; p1; p2] else [p0 / w; p1 / w; p2 / w].

Definition hueDelta (a0 b0 : F) : F :=
  let hDiff := b0 - a0 in
  let hDiff := if hDiff >? #180 then hDiff - #360 else hDiff in
  if hDiff <? #(-180) then hDiff + #360 else hDiff.

Definition lerpHsv_val `{!Rem F} (a b : list F) (t : F) : list F :=
  [ (a@0 + hueDelta a@0 b@0 * t + #360) mod #360;
    a@1 + (b@1 - a@1) * t;
    a@2 + (b@2 - a@2) * t ].
End Values.

(** ** The rest of the kernel *)

Section Vectors.
Context {F : Type} `{!Scalar F}.

(** *** vec2.ts *)

Definition vec2Rotate `{!Trig F} (out v : loc) (angle : F) : M F loc :=
  let c := fcos angle in
  let s := fsin angle in
  let* x := v.[0] in
  let* y := v.[1] in
  out.[0] <- x * c - y * s ;;
  out.[1] <- x * s + y * c ;;
  ret out.

(** *** vec3.ts *)

Definition vec3Reflect (out incident normal : loc) : M F loc :=
  let* dotProduct := vec3Dot incident normal in
  let* temp := alloc [ #0; #0; #0 ] in
  vec3Mul temp normal (#2 * dotProduct) ;;
  vec3Sub out incident temp ;;
  ret out.

End Vectors.

(** *** quat.ts *)

Section Quaternions.
Context {F : Type} `{!Scalar F}.


(** the literal [0.5] is [1 / 2] *)
Definition quatFromAxisAngle `{!Trig F} (axis : loc) (angle : F) : M F loc :=
  let* zero3 := alloc [ #0; #0; #0 ] in
  let* normalizedAxis := vec3Normalize zero3 axis in
  let halfAngle := angle * (#1 / #2) in
  let sinHalfAngle := fsin halfAngle in
  let* n0 := normalizedAxis.[0] in
  let* n1 := normalizedAxis.[1] in
  let* n2 := normalizedAxis.[2] in
  alloc [n0 * sinHalfAngle; n1 * sinHalfAngle; n2 * sinHalfAngle; fcos halfAngle].

Definition quatFromEuler `{!Trig F} (euler : loc) : M F loc :=
  let* halfX := (let* e := euler.[0] in ret (e * (#1 / #2))) in
  let* halfY := (let* e := euler.[1] in ret (e * (#1 / #2))) in
  let* halfZ := (let* e := euler.[2] in ret (e * (#1 / #2))) in
  let cx := fcos halfX in
  let sx := fsin halfX in
  let cy := fcos halfY in
  let sy := fsin halfY in
  let cz := fcos halfZ in
  let sz := fsin halfZ in
  alloc [ sx * cy * cz - cx * sy * sz;
          cx * sy * cz + sx * cy * sz;
          cx * cy * sz - sx * sy * cz;
          cx * cy * cz + sx * sy * sz ].

Definition quatMul (out a b : loc) : M F loc :=
  let* ax := a.[0] in let* ay := a.[1] in let* az := a.[2] in let* aw := a.[3] in
  let* bx := b.[0] in let* by' := b.[1] in let* bz := b.[2] in let* bw := b.[3] in
  out.[0] <- ax * bw + aw * bx + ay * bz - az * by' ;;
  out.[1] <- ay * bw + aw * by' + az * bx - ax * bz ;;
  out.[2] <- az * bw + aw * bz + ax * by' - ay * bx ;;
  out.[3] <- aw * bw - ax * bx - ay * by' - az * bz ;;
  ret out.




Definition quatRotateVec3 (out v q : loc) : M F loc :=
  let* x := v.[0] in let* y := v.[1] in let* z := v.[2] in
  let* qx := q.[0] in let* qy := q.[1] in let* qz := q.[2] in let* qw := q.[3] in
  let ix := qw * x + qy * z - qz * y in
  let iy := qw * y + qz * x - qx * z in
  let iz := qw * z + qx * y - qy * x in
  let iw := - qx * x - qy * y - qz * z in
  out.[0] <- ix * qw + iw * - qx + iy * - qz - iz * - qy ;;
  out.[1] <- iy * qw + iw * - qy + iz * - qx - ix * - qz ;;
  out.[2] <- iz * qw + iw * - qz + ix * - qy - iy * - qx ;;
  ret out.

(** the pair [[angle, axis]]; the literal [0.9999] is [9999 / 10000] *)
Definition quatToAngleAxis `{!Trig F} (q : loc) : M F (F * loc) :=
  let* x := q.[0] in let* y := q.[1] in let* z := q.[2] in let* w := q.[3] in
  if fabs w >? #9999 / #10000 then
    let* axis := alloc [ #1; #0; #0 ] in
    ret (#0, axis)
  else
    let angle := #2 * facos (fabs w) in
    let sinHalfAngle := fsin (angle / #2) in
    let* axis := alloc [x / sinHalfAngle; y / sinHalfAngle; z / sinHalfAngle] in
    ret (angle, axis).

Definition quatToBasis (q : loc) : M F loc :=
  let* x := q.[0] in let* y := q.[1] in let* z := q.[2] in let* w := q.[3] in
  let x2 := x + x in
  let y2 := y + y in
  let z2 := z + z in
  let xx := x * x2 in
  let xy := x * y2 in
  let xz := x * z2 in
  let yy := y * y2 in
  let yz := y * z2 in
  let zz := z * z2 in
  let wx := w * x2 in
  let wy := w * y2 in
  let wz := w * z2 in
  alloc [ #1 - (yy + zz); xy + wz; xz - wy;
          xy - wz; #1 - (xx + zz); yz + wx;
          xz + wy; yz - wx; #1 - (xx + yy) ].

Definition quatToMat4 (out q : loc) : M F loc :=
  let* x := q.[0] in let* y := q.[1] in let* z := q.[2] in let* w := q.[3] in
  let x2 := x + x in
  let y2 := y + y in
  let z2 := z + z in
  let xx := x * x2 in
  let xy := x * y2 in
  let xz := x * z2 in
  let yy := y * y2 in
  let yz := y * z2 in
  let zz := z * z2 in
  let wx := w * x2 in
  let wy := w * y2 in
  let wz := w * z2 in
  out.[0] <- #1 - (yy + zz) ;;
  out.[1] <- xy + wz ;;
  out.[2] <- xz - wy ;;
  out.[3] <- #0 ;;
  out.[4] <- xy - wz ;;
  out.[5] <- #1 - (xx + zz) ;;
  out.[6] <- yz + wx ;;
  out.[7] <- #0 ;;
  out.[8] <- xz + wy ;;
  out.[9] <- yz - wx ;;
  out.[10] <- #1 - (xx + yy) ;;
  out.[11] <- #0 ;;
  out.[12] <- #0 ;;
  out.[13] <- #0 ;;
  out.[14] <- #0 ;;
  out.[15] <- #1 ;;
  ret out.

End Quaternions.

(** *** basis.ts *)

(** the comparison [<=], and the functions of [Math] beyond [Trig] *)
Class Compare (F : Type) : Type := {
  fleb : F -> F -> bool
}.

Class Circular (F : Type) : Type := {
  fPI : F;
  fasin : F -> F;
  fatan2 : F -> F -> F;
  ftan : F -> F
}.

Notation "x <=? y" := (fleb x y) : num_scope.
Notation "x >=? y" := (fleb y x) : num_scope.

Section Bases.
Context {F : Type} `{!Scalar F}.

Definition basisFromEuler `{!Trig F} (euler : loc) : M F loc :=
  let* cx := (let* e := euler.[0] in ret (fcos e)) in
  let* sx := (let* e := euler.[0] in ret (fsin e)) in
  let* cy := (let* e := euler.[1] in ret (fcos e)) in
  let* sy := (let* e := euler.[1] in ret (fsin e)) in
  let* cz := (let* e := euler.[2] in ret (fcos e)) in
  let* sz := (let* e := euler.[2] in ret (fsin e)) in
  alloc [ cy * cz; - cy * sz; sy;
          sx * sy * cz + cx * sz; - sx * sy * sz + cx * cz; - sx * cy;
          - cx * sy * cz + sx * sz; cx * sy * sz + sx * cz; cx * cy ].

Definition basisRotateVec3 (out b v : loc) : M F loc :=
  (let* b0 := b.[0] in let* v0 := v.[0] in
   let* b1 := b.[1] in let* v1 := v.[1] in
   let* b2 := b.[2] in let* v2 := v.[2] in
   out.[0] <- b0 * v0 + b1 * v1 + b2 * v2) ;;
  (let* b3 := b.[3] in let* v0 := v.[0] in
   let* b4 := b.[4] in let* v1 := v.[1] in
   let* b5 := b.[5] in let* v2 := v.[2] in
   out.[1] <- b3 * v0 + b4 * v1 + b5 * v2) ;;
  (let* b6 := b.[6] in let* v0 := v.[0] in
   let* b7 := b.[7] in let* v1 := v.[1] in
   let* b8 := b.[8] in let* v2 := v.[2] in
   out.[2] <- b6 * v0 + b7 * v1 + b8 * v2) ;;
  ret out.

Definition basisToEuler `{!Trig F} `{!Compare F} `{!Circular F} (b : loc) : M F loc :=
  let* m00 := b.[0] in let* m01 := b.[1] in let* m02 := b.[2] in
  let* m10 := b.[3] in let* m11 := b.[4] in let* m12 := b.[5] in
  let* m20 := b.[6] in let* m21 := b.[7] in let* m22 := b.[8] in
  if fabs m02 >=? #1 then
    let roll := #0 in
    if m02 >? #0 then
      let pitch := fPI / #2 in
      let yaw := roll + fatan2 m10 m20 in
      alloc [pitch; yaw; roll]
    else
      let pitch := - fPI / #2 in
      let yaw := - roll + fatan2 (- m10) (- m20) in
      alloc [pitch; yaw; roll]
  else
    let pitch := - fasin m02 in
    let yaw := fatan2 (m01 / fcos pitch) (m00 / fcos pitch) in
    let roll := fatan2 (m12 / fcos pitch) (m22 / fcos pitch) in
    alloc [pitch; yaw; roll].

End Bases.

(** *** mat3.ts *)

Section Matrices3.
Context {F : Type} `{!Scalar F}.

Definition mat3Mul (out a b : loc) : M F loc :=
  let* a00 := a.[0] in let* a01 := a.[1] in let* a02 := a.[2] in
  let* a10 := a.[3] in let* a11 := a.[4] in let* a12 := a.[5] in
  let* a20 := a.[6] in let* a21 := a.[7] in let* a22 := a.[8] in
  let* b0 := b.[0] in let* b1 := b.[1] in let* b2 := b.[2] in
  out.[0] <- b0 * a00 + b1 * a10 + b2 * a20 ;;
  out.[1] <- b0 * a01 + b1 * a11 + b2 * a21 ;;
  out.[2] <- b0 * a02 + b1 * a12 + b2 * a22 ;;
  let* b0 := b.[3] in let* b1 := b.[4] in let* b2 := b.[5] in
  out.[3] <- b0 * a00 + b1 * a10 + b2 * a20 ;;
  out.[4] <- b0 * a01 + b1 * a11 + b2 * a21 ;;
  out.[5] <- b0 * a02 + b1 * a12 + b2 * a22 ;;
  let* b0 := b.[6] in let* b1 := b.[7] in let* b2 := b.[8] in
  out.[6] <- b0 * a00 + b1 * a10 + b2 * a20 ;;
  out.[7] <- b0 * a01 + b1 * a11 + b2 * a21 ;;
  out.[8] <- b0 * a02 + b1 * a12 + b2 * a22 ;;
  ret out.

Definition mat3FromTranslation (v : loc) : M F loc :=
  let* v0 := v.[0] in let* v1 := v.[1] in
  alloc [ #1; #0; #0;
          #0; #1; #0;
          v0; v1; #1 ].

Definition mat3Translate (out a v : loc) : M F loc :=
  let* x := v.[0] in let* y := v.[1] in
  let* a00 := a.[0] in let* a01 := a.[1] in let* a02 := a.[2] in
  let* a10 := a.[3] in let* a11 := a.[4] in let* a12 := a.[5] in
  let* a20 := a.[6] in let* a21 := a.[7] in let* a22 := a.[8] in
  (if decide (out <> a) then
     out.[0] <- a00 ;; out.[1] <- a01 ;; out.[2] <- a02 ;;
     out.[3] <- a10 ;; out.[4] <- a11 ;; out.[5] <- a12 ;;
     out.[6] <- a20 ;; out.[7] <- a21 ;; out.[8] <- a22
   else ret tt) ;;
  out.[6] <- x * a00 + y * a10 + a20 ;;
  out.[7] <- x * a01 + y * a11 + a21 ;;
  out.[8] <- x * a02 + y * a12 + a22 ;;
  ret out.

Definition mat3FromRotation `{!Trig F} (rad : F) : M F loc :=
  let c := fcos rad in
  let s := fsin rad in
  alloc [ c; s; #0;
          - s; c; #0;
          #0; #0; #1 ].

Definition mat3Rotate `{!Trig F} (out a : loc) (rad : F) : M F loc :=
  let s := fsin rad in
  let c := fcos rad in
  let* a00 := a.[0] in let* a01 := a.[1] in let* a02 := a.[2] in
  let* a10 := a.[3] in let* a11 := a.[4] in let* a12 := a.[5] in
  let* a20 := a.[6] in let* a21 := a.[7] in let* a22 := a.[8] in
  out.[0] <- c * a00 + s * a10 ;;
  out.[1] <- c * a01 + s * a11 ;;
  out.[2] <- c * a02 + s * a12 ;;
  out.[3] <- c * a10 - s * a00 ;;
  out.[4] <- c * a11 - s * a01 ;;
  out.[5] <- c * a12 - s * a02 ;;
  out.[6] <- a20 ;;
  out.[7] <- a21 ;;
  out.[8] <- a22 ;;
  ret out.

Definition mat3FromScaling (v : loc) : M F loc :=
  let* v0 := v.[0] in let* v1 := v.[1] in
  alloc [ v0; #0; #0;
          #0; v1; #0;
          #0; #0; #1 ].

Definition mat3Scale (out a v : loc) : M F loc :=
  let* x := v.[0] in let* y := v.[1] in
  (let* e := a.[0] in out.[0] <- e * x) ;;
  (let* e := a.[1] in out.[1] <- e * x) ;;
  (let* e := a.[2] in out.[2] <- e * x) ;;
  (let* e := a.[3] in out.[3] <- e * y) ;;
  (let* e := a.[4] in out.[4] <- e * y) ;;
  (let* e := a.[5] in out.[5] <- e * y) ;;
  (let* e := a.[6] in out.[6] <- e) ;;
  (let* e := a.[7] in out.[7] <- e) ;;
  (let* e := a.[8] in out.[8] <- e) ;;
  ret out.

Definition mat3TransformVec2 (out m v : loc) : M F loc :=
  let* x := v.[0] in let* y := v.[1] in
  (let* m0 := m.[0] in let* m3 := m.[3] in let* m6 := m.[6] in
   out.[0] <- m0 * x + m3 * y + m6) ;;
  (let* m1 := m.[1] in let* m4 := m.[4] in let* m7 := m.[7] in
   out.[1] <- m1 * x + m4 * y + m7) ;;
  ret out.

End Matrices3.

(** *** mat4.ts *)

Section Matrices4.
Context {F : Type} `{!Scalar F}.

Definition mat4Identity (out : loc) : M F loc :=
  out.[0] <- #1 ;; out.[1] <- #0 ;; out.[2] <- #0 ;; out.[3] <- #0 ;;
  out.[4] <- #0 ;; out.[5] <- #1 ;; out.[6] <- #0 ;; out.[7] <- #0 ;;
  out.[8] <- #0 ;; out.[9] <- #0 ;; out.[10] <- #1 ;; out.[11] <- #0 ;;
  out.[12] <- #0 ;; out.[13] <- #0 ;; out.[14] <- #0 ;; out.[15] <- #1 ;;
  ret out.

(** [!len]: [len] is zero or not a number *)
Definition falsy (len : F) : bool := (len =? #0) || negb (len =? len).

Definition mat4LookAt (out eye center up : loc) : M F loc :=
  let* eyex := eye.[0] in
  let* eyey := eye.[1] in
  let* eyez := eye.[2] in
  let* upx := up.[0] in
  let* upy := up.[1] in
  let* upz := up.[2] in
  let* centerx := center.[0] in
  let* centery := center.[1] in
  let* centerz := center.[2] in
  if (fabs (eyex - centerx) <? EPSILON) &&
     (fabs (eyey - centery) <? EPSILON) &&
     (fabs (eyez - centerz) <? EPSILON)
  then mat4Identity out
  else
    let z0 := eyex - centerx in
    let z1 := eyey - centery in
    let z2 := eyez - centerz in
    let len := #1 / fsqrt (z0 * z0 + z1 * z1 + z2 * z2) in
    let z0 := z0 * len in
    let z1 := z1 * len in
    let z2 := z2 * len in
    let x0 := upy * z2 - upz * z1 in
    let x1 := upz * z0 - upx * z2 in
    let x2 := upx * z1 - upy * z0 in
    let len := fsqrt (x0 * x0 + x1 * x1 + x2 * x2) in
    let '(x0, x1, x2) :=
      if falsy len then (#0, #0, #0)
      else let len := #1 / len in (x0 * len, x1 * len, x2 * len) in
    let y0 := z1 * x2 - z2 * x1 in
    let y1 := z2 * x0 - z0 * x2 in
    let y2 := z0 * x1 - z1 * x0 in
    let len := fsqrt (y0 * y0 + y1 * y1 + y2 * y2) in
    let '(y0, y1, y2) :=
      if falsy len then (#0, #0, #0)
      else let len := #1 / len in (y0 * len, y1 * len, y2 * len) in
    out.[0] <- x0 ;;
    out.[1] <- y0 ;;
    out.[2] <- z0 ;;
    out.[3] <- #0 ;;
    out.[4] <- x1 ;;
    out.[5] <- y1 ;;
    out.[6] <- z1 ;;
    out.[7] <- #0 ;;
    out.[8] <- x2 ;;
    out.[9] <- y2 ;;
    out.[10] <- z2 ;;
    out.[11] <- #0 ;;
    out.[12] <- - (x0 * eyex + x1 * eyey + x2 * eyez) ;;
    out.[13] <- - (y0 * eyex + y1 * eyey + y2 * eyez) ;;
    out.[14] <- - (z0 * eyex + z1 * eyey + z2 * eyez) ;;
    out.[15] <- #1 ;;
    ret out.

Definition mat4Perspective `{!Circular F} (out : loc) (fovy aspect near far : F) : M F loc :=
  let f := #1 / ftan (fovy / #2) in
  let nf := #1 / (near - far) in
  out.[0] <- f / aspect ;;
  out.[1] <- #0 ;;
  out.[2] <- #0 ;;
  out.[3] <- #0 ;;
  out.[4] <- #0 ;;
  out.[5] <- f ;;
  out.[6] <- #0 ;;
  out.[7] <- #0 ;;
  out.[8] <- #0 ;;
  out.[9] <- #0 ;;
  out.[10] <- (far + near) * nf ;;
  out.[11] <- #(-1) ;;
  out.[12] <- #0 ;;
  out.[13] <- #0 ;;
  out.[14] <- (#2 * far * near) * nf ;;
  out.[15] <- #0 ;;
  ret out.

Definition mat4Ortho (out : loc) (left right bottom top near far : F) : M F loc :=
  let lr := #1 / (left - right) in
  let bt := #1 / (bottom - top) in
  let nf := #1 / (near - far) in
  out.[0] <- #(-2) * lr ;;
  out.[1] <- #0 ;;
  out.[2] <- #0 ;;
  out.[3] <- #0 ;;
  out.[4] <- #0 ;;
  out.[5] <- #(-2) * bt ;;
  out.[6] <- #0 ;;
  out.[7] <- #0 ;;
  out.[8] <- #0 ;;
  out.[9] <- #0 ;;
  out.[10] <- #2 * nf ;;
  out.[11] <- #0 ;;
  out.[12] <- (left + right) * lr ;;
  out.[13] <- (top + bottom) * bt ;;
  out.[14] <- (far + near) * nf ;;
  out.[15] <- #1 ;;
  ret out.

Definition mat4FromTranslation (v : loc) : M F loc :=
  let* v0 := v.[0] in let* v1 := v.[1] in let* v2 := v.[2] in
  alloc [ #1; #0; #0; #0;
          #0; #1; #0; #0;
          #0; #0; #1; #0;
          v0; v1; v2; #1 ].

Definition mat4Translate (out m v : loc) : M F loc :=
  let* x := v.[0] in let* y := v.[1] in let* z := v.[2] in
  if decide (m = out) then
    (let* m0 := m.[0] in let* m4 := m.[4] in let* m8 := m.[8] in let* m12 := m.[12] in
     out.[12] <- m0 * x + m4 * y + m8 * z + m12) ;;
    (let* m1 := m.[1] in let* m5 := m.[5] in let* m9 := m.[9] in let* m13 := m.[13] in
     out.[13] <- m1 * x + m5 * y + m9 * z + m13) ;;
    (let* m2 := m.[2] in let* m6 := m.[6] in let* m10 := m.[10] in let* m14 := m.[14] in
     out.[14] <- m2 * x + m6 * y + m10 * z + m14) ;;
    (let* m3 := m.[3] in let* m7 := m.[7] in let* m11 := m.[11] in let* m15 := m.[15] in
     out.[15] <- m3 * x + m7 * y + m11 * z + m15) ;;
    ret out
  else
    let* a00 := m.[0] in let* a01 := m.[1] in let* a02 := m.[2] in let* a03 := m.[3] in
    let* a10 := m.[4] in let* a11 := m.[5] in let* a12 := m.[6] in let* a13 := m.[7] in
    let* a20 := m.[8] in let* a21 := m.[9] in let* a22 := m.[10] in let* a23 := m.[11] in
    out.[0] <- a00 ;; out.[1] <- a01 ;; out.[2] <- a02 ;; out.[3] <- a03 ;;
    out.[4] <- a10 ;; out.[5] <- a11 ;; out.[6] <- a12 ;; out.[7] <- a13 ;;
    out.[8] <- a20 ;; out.[9] <- a21 ;; out.[10] <- a22 ;; out.[11] <- a23 ;;
    (let* m12 := m.[12] in out.[12] <- a00 * x + a10 * y + a20 * z + m12) ;;
    (let* m13 := m.[13] in out.[13] <- a01 * x + a11 * y + a21 * z + m13) ;;
    (let* m14 := m.[14] in out.[14] <- a02 * x + a12 * y + a22 * z + m14) ;;
    (let* m15 := m.[15] in out.[15] <- a03 * x + a13 * y + a23 * z + m15) ;;
    ret out.

Definition mat4FromXRotation `{!Trig F} (angle : F) : M F loc :=
  let c := fcos angle in
  let s := fsin angle in
  alloc [ #1; #0; #0; #0;
          #0; c; s; #0;
          #0; - s; c; #0;
          #0; #0; #0; #1 ].

Definition mat4RotateX `{!Trig F} (out m : loc) (rad : F) : M F loc :=
  let s := fsin rad in
  let c := fcos rad in
  let* a10 := m.[4] in let* a11 := m.[5] in let* a12 := m.[6] in let* a13 := m.[7] in
  let* a20 := m.[8] in let* a21 := m.[9] in let* a22 := m.[10] in let* a23 := m.[11] in
  (if decide (m <> out) then
     (let* x := m.[0] in out.[0] <- x) ;;
     (let* x := m.[1] in out.[1] <- x) ;;
     (let* x := m.[2] in out.[2] <- x) ;;
     (let* x := m.[3] in out.[3] <- x) ;;
     (let* x := m.[12] in out.[12] <- x) ;;
     (let* x := m.[13] in out.[13] <- x) ;;
     (let* x := m.[14] in out.[14] <- x) ;;
     (let* x := m.[15] in out.[15] <- x)
   else ret tt) ;;
  out.[4] <- a10 * c + a20 * s ;;
  out.[5] <- a11 * c + a21 * s ;;
  out.[6] <- a12 * c + a22 * s ;;
  out.[7] <- a13 * c + a23 * s ;;
  out.[8] <- a20 * c - a10 * s ;;
  out.[9] <- a21 * c - a11 * s ;;
  out.[10] <- a22 * c - a12 * s ;;
  out.[11] <- a23 * c - a13 * s ;;
  ret out.

Definition mat4FromYRotation `{!Trig F} (angle : F) : M F loc :=
  let c := fcos angle in
  let s := fsin angle in
  alloc [ c; #0; - s; #0;
          #0; #1; #0; #0;
          s; #0; c; #0;
          #0; #0; #0; #1 ].

Definition mat4RotateY `{!Trig F} (out m : loc) (rad : F) : M F loc :=
  let s := fsin rad in
  let c := fcos rad in
  let* a00 := m.[0] in let* a01 := m.[1] in let* a02 := m.[2] in let* a03 := m.[3] in
  let* a20 := m.[8] in let* a21 := m.[9] in let* a22 := m.[10] in let* a23 := m.[11] in
  (if decide (m <> out) then
     (let* x := m.[4] in out.[4] <- x) ;;
     (let* x := m.[5] in out.[5] <- x) ;;
     (let* x := m.[6] in out.[6] <- x) ;;
     (let* x := m.[7] in out.[7] <- x) ;;
     (let* x := m.[12] in out.[12] <- x) ;;
     (let* x := m.[13] in out.[13] <- x) ;;
     (let* x := m.[14] in out.[14] <- x) ;;
     (let* x := m.[15] in out.[15] <- x)
   else ret tt) ;;
  out.[0] <- a00 * c - a20 * s ;;
  out.[1] <- a01 * c - a21 * s ;;
  out.[2] <- a02 * c - a22 * s ;;
  out.[3] <- a03 * c - a23 * s ;;
  out.[8] <- a00 * s + a20 * c ;;
  out.[9] <- a01 * s + a21 * c ;;
  out.[10] <- a02 * s + a22 * c ;;
  out.[11] <- a03 * s + a23 * c ;;
  ret out.

Definition mat4FromZRotation `{!Trig F} (angle : F) : M F loc :=
  let c := fcos angle in
  let s := fsin angle in
  alloc [ c; s; #0; #0;
          - s; c; #0; #0;
          #0; #0; #1; #0;
          #0; #0; #0; #1 ].

Definition mat4RotateZ `{!Trig F} (out m : loc) (rad : F) : M F loc :=
  let s := fsin rad in
  let c := fcos rad in
  let* a00 := m.[0] in let* a01 := m.[1] in let* a02 := m.[2] in let* a03 := m.[3] in
  let* a10 := m.[4] in let* a11 := m.[5] in let* a12 := m.[6] in let* a13 := m.[7] in
  (if decide (m <> out) then
     (let* x := m.[8] in out.[8] <- x) ;;
     (let* x := m.[9] in out.[9] <- x) ;;
     (let* x := m.[10] in out.[10] <- x) ;;
     (let* x := m.[11] in out.[11] <- x) ;;
     (let* x := m.[12] in out.[12] <- x) ;;
     (let* x := m.[13] in out.[13] <- x) ;;
     (let* x := m.[14] in out.[14] <- x) ;;
     (let* x := m.[15] in out.[15] <- x)
   else ret tt) ;;
  out.[0] <- a00 * c + a10 * s ;;
  out.[1] <- a01 * c + a11 * s ;;
  out.[2] <- a02 * c + a12 * s ;;
  out.[3] <- a03 * c + a13 * s ;;
  out.[4] <- a10 * c - a00 * s ;;
  out.[5] <- a11 * c - a01 * s ;;
  out.[6] <- a12 * c - a02 * s ;;
  out.[7] <- a13 * c - a03 * s ;;
  ret out.

(** [mat4Identity()]: the default argument is a new identity matrix, which
    the function then fills in again *)
Definition mat4FromRotation `{!Trig F} (rad : F) (axis : loc) : M F loc :=
  let* out :=
    (let* fresh_out :=
       alloc [ #1; #0; #0; #0; #0; #1; #0; #0; #0; #0; #1; #0; #0; #0; #0; #1 ] in
     mat4Identity fresh_out) in
  let* x := axis.[0] in let* y := axis.[1] in let* z := axis.[2] in
  let len := fsqrt (x * x + y * y + z * z) in
  if len <? EPSILON then ret out
  else
    let len := #1 / len in
    let x := x * len in
    let y := y * len in
    let z := z * len in
    let s := fsin rad in
    let c := fcos rad in
    let t := #1 - c in
    out.[0] <- x * x * t + c ;;
    out.[1] <- y * x * t + z * s ;;
    out.[2] <- z * x * t - y * s ;;
    out.[3] <- #0 ;;
    out.[4] <- x * y * t - z * s ;;
    out.[5] <- y * y * t + c ;;
    out.[6] <- z * y * t + x * s ;;
    out.[7] <- #0 ;;
    out.[8] <- x * z * t + y * s ;;
    out.[9] <- y * z * t - x * s ;;
    out.[10] <- z * z * t + c ;;
    out.[11] <- #0 ;;
    out.[12] <- #0 ;;
    out.[13] <- #0 ;;
    out.[14] <- #0 ;;
    out.[15] <- #1 ;;
    ret out.

Definition mat4FromScale (v : loc) : M F loc :=
  let* v0 := v.[0] in let* v1 := v.[1] in let* v2 := v.[2] in
  alloc [ v0; #0; #0; #0;
          #0; v1; #0; #0;
          #0; #0; v2; #0;
          #0; #0; #0; #1 ].

Definition mat4Scale (out m v : loc) : M F loc :=
  let* x := v.[0] in
  let* y := v.[1] in
  let* z := v.[2] in
  (let* e := m.[0] in out.[0] <- e * x) ;;
  (let* e := m.[1] in out.[1] <- e * x) ;;
  (let* e := m.[2] in out.[2] <- e * x) ;;
  (let* e := m.[3] in out.[3] <- e * x) ;;
  (let* e := m.[4] in out.[4] <- e * y) ;;
  (let* e := m.[5] in out.[5] <- e * y) ;;
  (let* e := m.[6] in out.[6] <- e * y) ;;
  (let* e := m.[7] in out.[7] <- e * y) ;;
  (let* e := m.[8] in out.[8] <- e * z) ;;
  (let* e := m.[9] in out.[9] <- e * z) ;;
  (let* e := m.[10] in out.[10] <- e * z) ;;
  (let* e := m.[11] in out.[11] <- e * z) ;;
  (let* e := m.[12] in out.[12] <- e) ;;
  (let* e := m.[13] in out.[13] <- e) ;;
  (let* e := m.[14] in out.[14] <- e) ;;
  (let* e := m.[15] in out.[15] <- e) ;;
  ret out.

Definition mat4SetBasis (out m b : loc) : M F loc :=
  (let* x := b.[0] in out.[0] <- x) ;;
  (let* x := b.[1] in out.[1] <- x) ;;
  (let* x := b.[2] in out.[2] <- x) ;;
  (let* x := b.[3] in out.[4] <- x) ;;
  (let* x := b.[4] in out.[5] <- x) ;;
  (let* x := b.[5] in out.[6] <- x) ;;
  (let* x := b.[6] in out.[8] <- x) ;;
  (let* x := b.[7] in out.[9] <- x) ;;
  (let* x := b.[8] in out.[10] <- x) ;;
  (let* x := m.[3] in out.[3] <- x) ;;
  (let* x := m.[7] in out.[7] <- x) ;;
  (let* x := m.[11] in out.[11] <- x) ;;
  (let* x := m.[12] in out.[12] <- x) ;;
  (let* x := m.[13] in out.[13] <- x) ;;
  (let* x := m.[14] in out.[14] <- x) ;;
  (let* x := m.[15] in out.[15] <- x) ;;
  ret out.

End Matrices4.

(** ** What the vector functions compute *)

Section VectorValues.
Context {F : Type} `{!Scalar F}.
Implicit Types (a b v n : list F).

Definition vec2Rotate_val `{!Trig F} v (angle : F) : list F :=
  [ v@0 * fcos angle - v@1 * fsin angle; v@0 * fsin angle + v@1 * fcos angle ].

Definition vec3Reflect_val v n : list F :=
  let d := v@0 * n@0 + v@1 * n@1 + v@2 * n@2 in
  [ v@0 - n@0 * (#2 * d); v@1 - n@1 * (#2 * d); v@2 - n@2 * (#2 * d) ].

Definition vec3Cross_val a b : list F :=
  [ a@1 * b@2 - a@2 * b@1; a@2 * b@0 - a@0 * b@2; a@0 * b@1 - a@1 * b@0 ].

(** [vec3Cross(a, a, b)]: the second and the third component are computed
    from components that are already overwritten *)
Definition vec3Cross_inplace_val a b : list F :=
  let c0 := a@1 * b@2 - a@2 * b@1 in
  let c1 := a@2 * b@0 - c0 * b@2 in
  [ c0; c1; c0 * b@1 - c1 * b@0 ].

End VectorValues.

(** ** What the rest of the kernel computes *)

Section MoreValues.
Context {F : Type} `{!Scalar F}.
Implicit Types (a b q v e : list F) (t : F).

(** *** quat.ts *)


Definition quatFromAxisAngle_val `{!Trig F} (axis : list F) (angle : F) : list F :=
  let n := vec3Normalize_val axis in
  let halfAngle := angle * (#1 / #2) in
  let sinHalfAngle := fsin halfAngle in
  [n@0 * sinHalfAngle; n@1 * sinHalfAngle; n@2 * sinHalfAngle; fcos halfAngle].

Definition quatFromEuler_val `{!Trig F} e : list F :=
  let halfX := e@0 * (#1 / #2) in
  let halfY := e@1 * (#1 / #2) in
  let halfZ := e@2 * (#1 / #2) in
  let cx := fcos halfX in
  let sx := fsin halfX in
  let cy := fcos halfY in
  let sy := fsin halfY in
  let cz := fcos halfZ in
  let sz := fsin halfZ in
  [ sx * cy * cz - cx * sy * sz;
    cx * sy * cz + sx * cy * sz;
    cx * cy * sz - sx * sy * cz;
    cx * cy * cz + sx * sy * sz ].

Definition quatMul_val a b : list F :=
  [ a@0 * b@3 + a@3 * b@0 + a@1 * b@2 - a@2 * b@1;
    a@1 * b@3 + a@3 * b@1 + a@2 * b@0 - a@0 * b@2;
    a@2 * b@3 + a@3 * b@2 + a@0 * b@1 - a@1 * b@0;
    a@3 * b@3 - a@0 * b@0 - a@1 * b@1 - a@2 * b@2 ].



Definition quatRotateVec3_val v q : list F :=
  let x := v@0 in let y := v@1 in let z := v@2 in
  let qx := q@0 in let qy := q@1 in let qz := q@2 in let qw := q@3 in
  let ix := qw * x + qy * z - qz * y in
  let iy := qw * y + qz * x - qx * z in
  let iz := qw * z + qx * y - qy * x in
  let iw := - qx * x - qy * y - qz * z in
  [ ix * qw + iw * - qx + iy * - qz - iz * - qy;
    iy * qw + iw * - qy + iz * - qx - ix * - qz;
    iz * qw + iw * - qz + ix * - qy - iy * - qx ].

Definition quatToAngleAxis_val `{!Trig F} q : F * list F :=
  if fabs q@3 >? #9999 / #10000 then (#0, [ #1; #0; #0 ])
  else
    let angle := #2 * facos (fabs q@3) in
    let sinHalfAngle := fsin (angle / #2) in
    (angle, [q@0 / sinHalfAngle; q@1 / sinHalfAngle; q@2 / sinHalfAngle]).

Definition quatToMat4_val q : list F :=
  let m := basisFromQuat_val q in
  [ m@0; m@1; m@2; #0;
    m@3; m@4; m@5; #0;
    m@6; m@7; m@8; #0;
    #0; #0; #0; #1 ].

(** *** basis.ts *)

Definition basisFromEuler_val `{!Trig F} e : list F :=
  let cx := fcos e@0 in
  let sx := fsin e@0 in
  let cy := fcos e@1 in
  let sy := fsin e@1 in
  let cz := fcos e@2 in
  let sz := fsin e@2 in
  [ cy * cz; - cy * sz; sy;
    sx * sy * cz + cx * sz; - sx * sy * sz + cx * cz; - sx * cy;
    - cx * sy * cz + sx * sz; cx * sy * sz + sx * cz; cx * cy ].

Definition basisRotateVec3_val b v : list F :=
  [ b@0 * v@0 + b@1 * v@1 + b@2 * v@2;
    b@3 * v@0 + b@4 * v@1 + b@5 * v@2;
    b@6 * v@0 + b@7 * v@1 + b@8 * v@2 ].

(** what [basisRotateVec3(v, b, v)] leaves in [v]: the second and third
    components are computed from components that were already replaced *)
Definition basisRotateVec3_inplace_val b v : list F :=
  let o0 := b@0 * v@0 + b@1 * v@1 + b@2 * v@2 in
  let o1 := b@3 * o0 + b@4 * v@1 + b@5 * v@2 in
  let o2 := b@6 * o0 + b@7 * o1 + b@8 * v@2 in
  [o0; o1; o2].

Definition basisToEuler_val `{!Trig F} `{!Compare F} `{!Circular F} b : list F :=
  if fabs b@2 >=? #1 then
    if b@2 >? #0 then [fPI / #2; #0 + fatan2 b@3 b@6; #0]
    else [- fPI / #2; - #0 + fatan2 (- b@3) (- b@6); #0]
  else
    let pitch := - fasin b@2 in
    [ pitch;
      fatan2 (b@1 / fcos pitch) (b@0 / fcos pitch);
      fatan2 (b@5 / fcos pitch) (b@8 / fcos pitch) ].

(** *** mat3.ts *)

Definition mat3Mul_col (a : list F) (b0 b1 b2 : F) : list F :=
  [ b0 * a@0 + b1 * a@3 + b2 * a@6;
    b0 * a@1 + b1 * a@4 + b2 * a@7;
    b0 * a@2 + b1 * a@5 + b2 * a@8 ].

Definition mat3Mul_val a b : list F :=
  mat3Mul_col a b@0 b@1 b@2 ++
  mat3Mul_col a b@3 b@4 b@5 ++
  mat3Mul_col a b@6 b@7 b@8.

Definition mat3FromTranslation_val v : list F :=
  [ #1; #0; #0; #0; #1; #0; v@0; v@1; #1 ].

Definition mat3Translate_val a v : list F :=
  [ a@0; a@1; a@2; a@3; a@4; a@5;
    v@0 * a@0 + v@1 * a@3 + a@6;
    v@0 * a@1 + v@1 * a@4 + a@7;
    v@0 * a@2 + v@1 * a@5 + a@8 ].

Definition mat3FromRotation_val `{!Trig F} (rad : F) : list F :=
  [ fcos rad; fsin rad; #0; - fsin rad; fcos rad; #0; #0; #0; #1 ].

Definition mat3Rotate_val `{!Trig F} a (rad : F) : list F :=
  let s := fsin rad in
  let c := fcos rad in
  [ c * a@0 + s * a@3; c * a@1 + s * a@4; c * a@2 + s * a@5;
    c * a@3 - s * a@0; c * a@4 - s * a@1; c * a@5 - s * a@2;
    a@6; a@7; a@8 ].

Definition mat3FromScaling_val v : list F :=
  [ v@0; #0; #0; #0; v@1; #0; #0; #0; #1 ].

Definition mat3Scale_val a v : list F :=
  [ a@0 * v@0; a@1 * v@0; a@2 * v@0;
    a@3 * v@1; a@4 * v@1; a@5 * v@1;
    a@6; a@7; a@8 ].

Definition mat3TransformVec2_val (m : list F) v : list F :=
  [ m@0 * v@0 + m@3 * v@1 + m@6;
    m@1 * v@0 + m@4 * v@1 + m@7 ].

(** *** mat4.ts *)

Definition mat4Identity_val : list F :=
  [ #1; #0; #0; #0; #0; #1; #0; #0; #0; #0; #1; #0; #0; #0; #0; #1 ].

Definition mat4Perspective_val `{!Circular F} (fovy aspect near far : F) : list F :=
  let f := #1 / ftan (fovy / #2) in
  let nf := #1 / (near - far) in
  [ f / aspect; #0; #0; #0;
    #0; f; #0; #0;
    #0; #0; (far + near) * nf; #(-1);
    #0; #0; (#2 * far * near) * nf; #0 ].

Definition mat4Ortho_val (left right bottom top near far : F) : list F :=
  let lr := #1 / (left - right) in
  let bt := #1 / (bottom - top) in
  let nf := #1 / (near - far) in
  [ #(-2) * lr; #0; #0; #0;
    #0; #(-2) * bt; #0; #0;
    #0; #0; #2 * nf; #0;
    (left + right) * lr; (top + bottom) * bt; (far + near) * nf; #1 ].

Definition mat4FromTranslation_val v : list F :=
  [ #1; #0; #0; #0; #0; #1; #0; #0; #0; #0; #1; #0; v@0; v@1; v@2; #1 ].

Definition mat4Translate_val (m : list F) v : list F :=
  [ m@0; m@1; m@2; m@3; m@4; m@5; m@6; m@7; m@8; m@9; m@10; m@11;
    m@0 * v@0 + m@4 * v@1 + m@8 * v@2 + m@12;
    m@1 * v@0 + m@5 * v@1 + m@9 * v@2 + m@13;
    m@2 * v@0 + m@6 * v@1 + m@10 * v@2 + m@14;
    m@3 * v@0 + m@7 * v@1 + m@11 * v@2 + m@15 ].

Definition mat4FromXRotation_val `{!Trig F} (angle : F) : list F :=
  let c := fcos angle in
  let s := fsin angle in
  [ #1; #0; #0; #0; #0; c; s; #0; #0; - s; c; #0; #0; #0; #0; #1 ].

Definition mat4RotateX_val `{!Trig F} (m : list F) (rad : F) : list F :=
  let s := fsin rad in
  let c := fcos rad in
  [ m@0; m@1; m@2; m@3;
    m@4 * c + m@8 * s; m@5 * c + m@9 * s; m@6 * c + m@10 * s; m@7 * c + m@11 * s;
    m@8 * c - m@4 * s; m@9 * c - m@5 * s; m@10 * c - m@6 * s; m@11 * c - m@7 * s;
    m@12; m@13; m@14; m@15 ].

Definition mat4FromYRotation_val `{!Trig F} (angle : F) : list F :=
  let c := fcos angle in
  let s := fsin angle in
  [ c; #0; - s; #0; #0; #1; #0; #0; s; #0; c; #0; #0; #0; #0; #1 ].

Definition mat4RotateY_val `{!Trig F} (m : list F) (rad : F) : list F :=
  let s := fsin rad in
  let c := fcos rad in
  [ m@0 * c - m@8 * s; m@1 * c - m@9 * s; m@2 * c - m@10 * s; m@3 * c - m@11 * s;
    m@4; m@5; m@6; m@7;
    m@0 * s + m@8 * c; m@1 * s + m@9 * c; m@2 * s + m@10 * c; m@3 * s + m@11 * c;
    m@12; m@13; m@14; m@15 ].

Definition mat4FromZRotation_val `{!Trig F} (angle : F) : list F :=
  let c := fcos angle in
  let s := fsin angle in
  [ c; s; #0; #0; - s; c; #0; #0; #0; #0; #1; #0; #0; #0; #0; #1 ].

Definition mat4RotateZ_val `{!Trig F} (m : list F) (rad : F) : list F :=
  let s := fsin rad in
  let c := fcos rad in
  [ m@0 * c + m@4 * s; m@1 * c + m@5 * s; m@2 * c + m@6 * s; m@3 * c + m@7 * s;
    m@4 * c - m@0 * s; m@5 * c - m@1 * s; m@6 * c - m@2 * s; m@7 * c - m@3 * s;
    m@8; m@9; m@10; m@11;
    m@12; m@13; m@14; m@15 ].

Definition mat4FromRotation_val `{!Trig F} (rad : F) (axis : list F) : list F :=
  let x := axis@0 in let y := axis@1 in let z := axis@2 in
  let len := fsqrt (x * x + y * y + z * z) in
  if len <? EPSILON then mat4Identity_val
  else
    let len := #1 / len in
    let x := x * len in
    let y := y * len in
    let z := z * len in
    let s := fsin rad in
    let c := fcos rad in
    let t := #1 - c in
    [ x * x * t + c; y * x * t + z * s; z * x * t - y * s; #0;
      x * y * t - z * s; y * y * t + c; z * y * t + x * s; #0;
      x * z * t + y * s; y * z * t - x * s; z * z * t + c; #0;
      #0; #0; #0; #1 ].

Definition mat4FromScale_val v : list F :=
  [ v@0; #0; #0; #0; #0; v@1; #0; #0; #0; #0; v@2; #0; #0; #0; #0; #1 ].

Definition mat4Scale_val (m : list F) v : list F :=
  [ m@0 * v@0; m@1 * v@0; m@2 * v@0; m@3 * v@0;
    m@4 * v@1; m@5 * v@1; m@6 * v@1; m@7 * v@1;
    m@8 * v@2; m@9 * v@2; m@10 * v@2; m@11 * v@2;
    m@12; m@13; m@14; m@15 ].

Definition mat4SetBasis_val (m : list F) b : list F :=
  [ b@0; b@1; b@2; m@3;
    b@3; b@4; b@5; m@7;
    b@6; b@7; b@8; m@11;
    m@12; m@13; m@14; m@15 ].

End MoreValues.

(** ** The carriers of the new operations *)

Definition Rleb (x y : R) : bool := if Rle_dec x y then true else false.

(** the angle of the point [(x, y)], in [(-PI, PI]] *)
Definition Ratan2 (y x : R) : R :=
  if Rlt_dec 0 x then atan (y / x)
  else if Rlt_dec x 0 then
    (if Rle_dec 0 y then atan (y / x) + PI else atan (y / x) - PI)%R
  else if Rlt_dec 0 y then (PI / 2)%R
  else if Rlt_dec y 0 then (- (PI / 2))%R
  else 0%R.

#[global] Instance R_compare : Compare R := {| fleb := Rleb |}.

#[global] Instance R_circular : Circular R := {|
  fPI := PI;
  fasin := asin;
  fatan2 := Ratan2;
  ftan := tan
|}.

#[global] Instance float_compare : Compare float := {| fleb := PrimFloat.leb |}.

(** ** Integers *)

(** [ToInt32]: the integer modulo [2^32], taken in [[-2^31, 2^31)] *)
Definition toInt32 (z : Z) : Z := ((z + 2 ^ 31) mod 2 ^ 32 - 2 ^ 31)%Z.

(** the operators [<<], [>>], [&] and [|] on integer-valued numbers *)
Definition shl (x k : Z) : Z := toInt32 (Z.shiftl (toInt32 x) (Z.land k 31)).
Definition sar (x k : Z) : Z := Z.shiftr (toInt32 x) (Z.land k 31).
Definition band (x y : Z) : Z := Z.land (toInt32 x) (toInt32 y).
Definition bor (x y : Z) : Z := Z.lor (toInt32 x) (toInt32 y).

(** the conversion [x | 0] of a number to a 32-bit integer *)
Class ToInt (F : Type) : Type := {
  ftoInt32 : F -> Z
}.

#[global] Instance R_toint : ToInt R := {| ftoInt32 x := toInt32 (Rtrunc x) |}.

(** *** utils.ts *)

(** the loop [while (power < n) power <<= 1], for at most [fuel] turns *)
Fixpoint nextPowerOf2_loop (fuel : nat) (power n : Z) : option Z :=
  match fuel with
  | O => None
  | S fuel =>
      if (power <? n)%Z then nextPowerOf2_loop fuel (shl power 1) n
      else Some power
  end.

(** [nextPowerOf2(n)] for an integer [n] *)
Definition nextPowerOf2 (fuel : nat) (n : Z) : option Z :=
  if (n <=? 0)%Z then Some 1%Z
  else if (n =? 1)%Z then Some 2%Z
  else nextPowerOf2_loop fuel 1 n.

(** *** color.ts *)

Section Colors.
Context {F : Type} `{!Scalar F}.

(** the literal [0.5] is [1 / 2] *)
Definition rgbaToU32 `{!ToInt F} (r g b a : F) : Z :=
  let r8 := ftoInt32 (r * #255 + #1 / #2) in
  let g8 := ftoInt32 (g * #255 + #1 / #2) in
  let b8 := ftoInt32 (b * #255 + #1 / #2) in
  let a8 := ftoInt32 (a * #255 + #1 / #2) in
  bor (bor (bor (shl a8 24) (shl b8 16)) (shl g8 8)) r8.

(** [color] is an integer *)
Definition u32ToRgba (out : loc) (color : Z) : M F loc :=
  out.[0] <- #(band color 255) / #255 ;;
  out.[1] <- #(band (sar color 8) 255) / #255 ;;
  out.[2] <- #(band (sar color 16) 255) / #255 ;;
  out.[3] <- #(band (sar color 24) 255) / #255 ;;
  ret out.

(** the chain [if (h >= 0 && h < 1) { r = c; g = x; b = 0 } else if ...]
    on the variables [r], [g], [b], which start at [0] *)
Definition hsvSector `{!Compare F} (h c x : F) : F * F * F :=
  if (h >=? #0) && (h <? #1) then (c, x, #0)
  else if (h >=? #1) && (h <? #2) then (x, c, #0)
  else if (h >=? #2) && (h <? #3) then (#0, c, x)
  else if (h >=? #3) && (h <? #4) then (#0, x, c)
  else if (h >=? #4) && (h <? #5) then (x, #0, c)
  else if (h >=? #5) && (h <? #6) then (c, #0, x)
  else (#0, #0, #0).

Definition hsvToRgb `{!Rem F} `{!Compare F} (out : loc) (h s v : F) : M F loc :=
  let h := h / #60 in
  let c := v * s in
  let x := c * (#1 - fabs (frem h #2 - #1)) in
  let m := v - c in
  let '(r, g, b) := hsvSector h c x in
  out.[0] <- r + m ;;
  out.[1] <- g + m ;;
  out.[2] <- b + m ;;
  out.[3] <- #1 ;;
  ret out.

End Colors.

(** the integer that packs four bytes: it is negative from [a8 = 128] on *)
Definition packed (r8 g8 b8 a8 : Z) : Z :=
  (r8 + 2 ^ 8 * g8 + 2 ^ 16 * b8 + 2 ^ 24 * a8 - (if 128 <=? a8 then 2 ^ 32 else 0))%Z.

Section ColorValues.
Context {F : Type} `{!Scalar F}.

Definition u32ToRgba_val (color : Z) : list F :=
  [ #(band color 255) / #255;
    #(band (sar color 8) 255) / #255;
    #(band (sar color 16) 255) / #255;
    #(band (sar color 24) 255) / #255 ].

Definition hsvToRgb_val `{!Rem F} `{!Compare F} (h s v : F) : list F :=
  let h := h / #60 in
  let c := v * s in
  let x := c * (#1 - fabs (frem h #2 - #1)) in
  let m := v - c in
  let '(r, g, b) := hsvSector h c x in
  [ r + m; g + m; b + m; #1 ].

End ColorValues.

(** ** Hit tests: hit-test.ts *)

Section HitTest.
Context {F : Type} `{!Scalar F} `{!Compare F}.

Definition pointInRect (x y rect_x rect_y rect_w rect_h : F) : bool :=
  (x >=? rect_x) && (x <? rect_x + rect_w) && (y >=? rect_y) && (y <? rect_y + rect_h).

(** the test [intersect] of the edge from [points[j]] to [points[i]] *)
Definition intersect (pi pj : F * F) (x y : F) : bool :=
  let '(xi, yi) := pi in
  let '(xj, yj) := pj in
  negb (eqb (yi >? y) (yj >? y)) &&
  (x <? ((xj - xi) * (y - yi)) / (yj - yi + #0) + xi).

(** the loop [for (i = 0, j = points.length - 1; i < points.length; j = i++)],
    from the point [points[i]] on; [pj] is [points[j]] *)
Fixpoint pointInPolygon_loop (pj : F * F) (points : list (F * F)) (x y : F)
    (inside : bool) : bool :=
  match points with
  | [] => inside
  | pi :: rest =>
      pointInPolygon_loop pi rest x y
        (if intersect pi pj x y then negb inside else inside)
  end.

Definition pointInPolygon (points : list (F * F)) (x y : F) : bool :=
  match last points with
  | None => false
  | Some pj => pointInPolygon_loop pj points x y false
  end.

End HitTest.

(** ** Mathematical vocabulary of the statements (exact arithmetic) *)

Local Open Scope R_scope.

(** *** Matrices as mathematical objects *)

(** a basis stores its three rows one after the other *)
Definition mat3_entry (m : list R) (i j : nat) : R := nth (3 * i + j) m 0.

(** the row-by-column product *)
Definition mat3_prod (a b : list R) : list R :=
  flat_map (fun i =>
    map (fun j => mat3_entry a i 0 * mat3_entry b 0 j
                  + mat3_entry a i 1 * mat3_entry b 1 j
                  + mat3_entry a i 2 * mat3_entry b 2 j) [0; 1; 2]%nat) [0; 1; 2]%nat.

Definition mat3_identity : list R := [1; 0; 0; 0; 1; 0; 0; 0; 1].

(** the determinant, by the rule of Sarrus *)
Definition mat3_det (m : list R) : R :=
  mat3_entry m 0 0 * mat3_entry m 1 1 * mat3_entry m 2 2
  + mat3_entry m 0 1 * mat3_entry m 1 2 * mat3_entry m 2 0
  + mat3_entry m 0 2 * mat3_entry m 1 0 * mat3_entry m 2 1
  - mat3_entry m 0 2 * mat3_entry m 1 1 * mat3_entry m 2 0
  - mat3_entry m 0 1 * mat3_entry m 1 0 * mat3_entry m 2 2
  - mat3_entry m 0 0 * mat3_entry m 1 2 * mat3_entry m 2 1.

Definition mat3_inverse_of (m inv : list R) : Prop :=
  mat3_prod m inv = mat3_identity /\ mat3_prod inv m = mat3_identity.

(** a 4x4 matrix stores its four columns one after the other *)
Definition mat4_entry (m : list R) (r c : nat) : R := nth (4 * c + r) m 0.

Definition mat4_prod (a b : list R) : list R :=
  flat_map (fun c =>
    map (fun r => mat4_entry a r 0 * mat4_entry b 0 c
                  + mat4_entry a r 1 * mat4_entry b 1 c
                  + mat4_entry a r 2 * mat4_entry b 2 c
                  + mat4_entry a r 3 * mat4_entry b 3 c) [0; 1; 2; 3]%nat) [0; 1; 2; 3]%nat.

(** the matrix applied to a column vector *)
Definition mat4_apply (m v : list R) : list R :=
  map (fun r => mat4_entry m r 0 * nth 0 v 0 + mat4_entry m r 1 * nth 1 v 0
                + mat4_entry m r 2 * nth 2 v 0 + mat4_entry m r 3 * nth 3 v 0)
      [0; 1; 2; 3]%nat.

(** a basis that represents a pure rotation: its rows are unit vectors,
    mutually perpendicular, and its determinant is [+1] *)
Definition is_rotation (b : list R) : Prop :=
  length b = 9%nat /\
  mat3_entry b 0 0 * mat3_entry b 0 0 + mat3_entry b 0 1 * mat3_entry b 0 1
    + mat3_entry b 0 2 * mat3_entry b 0 2 = 1 /\
  mat3_entry b 1 0 * mat3_entry b 1 0 + mat3_entry b 1 1 * mat3_entry b 1 1
    + mat3_entry b 1 2 * mat3_entry b 1 2 = 1 /\
  mat3_entry b 2 0 * mat3_entry b 2 0 + mat3_entry b 2 1 * mat3_entry b 2 1
    + mat3_entry b 2 2 * mat3_entry b 2 2 = 1 /\
  mat3_entry b 0 0 * mat3_entry b 1 0 + mat3_entry b 0 1 * mat3_entry b 1 1
    + mat3_entry b 0 2 * mat3_entry b 1 2 = 0 /\
  mat3_entry b 0 0 * mat3_entry b 2 0 + mat3_entry b 0 1 * mat3_entry b 2 1
    + mat3_entry b 0 2 * mat3_entry b 2 2 = 0 /\
  mat3_entry b 1 0 * mat3_entry b 2 0 + mat3_entry b 1 1 * mat3_entry b 2 1
    + mat3_entry b 1 2 * mat3_entry b 2 2 = 0 /\
  mat3_det b = 1.

(** *** Quaternions as mathematical objects, and the interpolation rule of
    the specification *)

Definition quat_dot (a b : list R) : R :=
  nth 0 a 0 * nth 0 b 0 + nth 1 a 0 * nth 1 b 0
  + nth 2 a 0 * nth 2 b 0 + nth 3 a 0 * nth 3 b 0.

Definition quat_norm (q : list R) : R := sqrt (quat_dot q q).

Definition quat_unit (q : list R) : Prop := length q = 4%nat /\ quat_dot q q = 1.

Definition quat_neg (q : list R) : list R :=
  [- nth 0 q 0; - nth 1 q 0; - nth 2 q 0; - nth 3 q 0].

(** componentwise linear interpolation, renormalised to unit length *)
Definition nlerp (a b : list R) (t : R) : list R :=
  let m := [nth 0 a 0 + t * (nth 0 b 0 - nth 0 a 0);
            nth 1 a 0 + t * (nth 1 b 0 - nth 1 a 0);
            nth 2 a 0 + t * (nth 2 b 0 - nth 2 a 0);
            nth 3 a 0 + t * (nth 3 b 0 - nth 3 a 0)] in
  map (fun x => x / quat_norm m) m.

(** the spherical interpolation formula for the angle [theta] between [a]
    and [b] *)
Definition spherical (a b : list R) (theta t : R) : list R :=
  let wa := sin ((1 - t) * theta) / sin theta in
  let wb := sin (t * theta) / sin theta in
  [wa * nth 0 a 0 + wb * nth 0 b 0; wa * nth 1 a 0 + wb * nth 1 b 0;
   wa * nth 2 a 0 + wb * nth 2 b 0; wa * nth 3 a 0 + wb * nth 3 b 0].

(** Slerp as the specification words it: negate one operand when the dot
    product is negative; normalised lerp when [|dot| > 0.9995]; otherwise
    the spherical formula with [theta = acos |dot|] *)
Definition shorter_arc_slerp (a b : list R) (t : R) : list R :=
  let d := quat_dot a b in
  let b' := if Rlt_dec d 0 then quat_neg b else b in
  if Rlt_dec (9995 / 10000) (Rabs d) then nlerp a b' t
  else spherical a b' (acos (Rabs d)) t.

(** ** The stores of the examples *)

(** absence of NaN among the components of an array *)
Definition no_NaN (vs : list float) : Prop :=
  Forall (fun x => PrimFloat.is_nan x = false) vs.

(** the zero vectors [[0, 0]], [[0, 0, 0]] and the zero quaternion *)
Definition zero_store : heap float :=
  (<[3%positive := [0; 0; 0; 0]]>
    (<[2%positive := [0; 0; 0]]> (<[1%positive := [0; 0]]> ∅)))%float.

(** the store of the witness for Slerp: the quaternions [(0, 0, 0, 1)] and
    [(1, 0, 0, 0)], an output quaternion, and the identity basis *)
Definition slerp_store : heap R :=
  <[4%positive := mat3_identity]>
    (<[3%positive := [0; 0; 0; 0]]>
      (<[2%positive := [1; 0; 0; 0]]>
        (<[1%positive := [0; 0; 0; 1]]> ∅))).

(** the basis [R·b] or [b·R] of the counterexample to commutation: [b] turns
    a quarter about the y axis, [R] a half turn about the z axis *)
Definition quarter_turn_y : list R := [0; 0; 1; 0; 1; 0; -1; 0; 0].

(** the store of the witness: [b] is the identity, the axis is [z] *)
Definition rotate_store : heap R :=
  <[3%positive := [0; 0; 0; 0; 0; 0; 0; 0; 0]]>
    (<[2%positive := [0; 0; 1]]> (<[1%positive := mat3_identity]> ∅)).

(** the matrices of the test of [mat4Mul]: [a] translates by [(1, 2, 3)], [b]
    scales by [2]; the point [v = (1, 1, 1)]; [m], [p], [q] receive results *)
Definition mul_store : heap float :=
  (<[6%positive := [0; 0; 0]]>
    (<[5%positive := [0; 0; 0]]>
      (<[4%positive := [0; 0; 0; 0; 0; 0; 0; 0; 0; 0; 0; 0; 0; 0; 0; 0]]>
        (<[3%positive := [1; 1; 1]]>
          (<[2%positive := [2; 0; 0; 0; 0; 2; 0; 0; 0; 0; 2; 0; 0; 0; 0; 1]]>
            (<[1%positive := [1; 0; 0; 0; 0; 1; 0; 0; 0; 0; 1; 0; 1; 2; 3; 1]]> ∅))))))%float.

(** the store of the witness for [mat4Mul], in exact arithmetic *)
Definition mul_store_R : heap R :=
  <[3%positive := [0; 0; 0; 0; 0; 0; 0; 0; 0; 0; 0; 0; 0; 0; 0; 0]]>
    (<[2%positive := [2; 0; 0; 0; 0; 2; 0; 0; 0; 0; 2; 0; 0; 0; 0; 1]]>
      (<[1%positive := [1; 0; 0; 0; 0; 1; 0; 0; 0; 0; 1; 0; 1; 2; 3; 1]]> ∅)).

(** the store of the boundary examples: the unit quaternions [(0, 0, 0, 1)]
    and [(0, 0, 0, -1)], an output quaternion, two vectors and an output
    vector *)
Definition boundary_store : heap R :=
  <[6%positive := [0; 0; 0]]>
    (<[5%positive := [4; 5; 6]]>
      (<[4%positive := [1; 2; 3]]>
        (<[3%positive := [0; 0; 0; 0]]>
          (<[2%positive := [0; 0; 0; -1]]>
            (<[1%positive := [0; 0; 0; 1]]> ∅))))).

(** a rotation basis that is not symmetric (it permutes the axes), and an
    output basis *)
Definition permutation_store : heap float :=
  (<[2%positive := [0; 0; 0; 0; 0; 0; 0; 0; 0]]>
    (<[1%positive := [0; 1; 0; 0; 0; 1; 1; 0; 0]]> ∅))%float.

(** the stores of the witness for the inverses: a singular matrix and the
    matrix [diag(2, 1, 1)] *)
Definition singular_store : heap R :=
  <[2%positive := [0; 0; 0; 0; 0; 0; 0; 0; 0]]>
    (<[1%positive := [1; 0; 0; 0; 0; 0; 0; 0; 1]]> ∅).

Definition regular_store : heap R :=
  <[2%positive := [0; 0; 0; 0; 0; 0; 0; 0; 0]]>
    (<[1%positive := [2; 0; 0; 0; 1; 0; 0; 0; 1]]> ∅).

(** the colours of the hue examples: [a = (350, 1, 1)], [b = (10, 1, 1)],
    and [c = (0, 1, 1)], [d = (270, 1, 1)]; [o] receives the result *)
Definition hue_store : heap R :=
  <[5%positive := [0; 0; 0]]>
    (<[4%positive := [270; 1; 1]]>
      (<[3%positive := [0; 1; 1]]>
        (<[2%positive := [10; 1; 1]]>
          (<[1%positive := [350; 1; 1]]> ∅)))).

(** the store of the witness for the basis interpolations: two identity
    bases and an output basis *)
Definition basis_store : heap R :=
  <[3%positive := [7; 7; 7; 7; 7; 7; 7; 7; 7]]>
    (<[2%positive := mat3_identity]>
      (<[1%positive := mat3_identity]> ∅)).

(** a skewed basis, orthonormalised in place *)
Definition skew_store : heap float :=
  (<[1%positive := [2; 0; 0; 1; 1; 0; 0; 0; 1]]> ∅)%float.

(** the unit quaternions [(0, 0, 0, 1)] and [(3/5, 0, 0, 4/5)], and an output
    quaternion *)
Definition alias_store : heap R :=
  <[3%positive := [0; 0; 0; 0]]>
    (<[2%positive := [3 / 5; 0; 0; 4 / 5]]>
      (<[1%positive := [0; 0; 0; 1]]> ∅)).

(** a basis inverted in place *)
Definition inverse_store : heap float :=
  (<[2%positive := [0; 0; 0; 0; 0; 0; 0; 0; 0]]>
    (<[1%positive := [2; 1; 0; 0; 1; 0; 0; 0; 1]]> ∅))%float.

(** the same basis, in exact arithmetic *)
Definition inverse_store_R : heap R :=
  <[1%positive := [2; 1; 0; 0; 1; 0; 0; 0; 1]]> ∅.

(** the inputs of some of the repository's tests *)
Definition tests_store : heap float :=
  (<[9%positive := [2; 0; 0; 1; 1; 0; 0; 0; 1]]>
    (<[8%positive := [0; 0; 0; 0; 0; 0; 0; 0; 0]]>
      (<[7%positive := [2; 0; 0; 0; 3; 0; 0; 0; 1]]>
        (<[6%positive := [1; 0; 0; 0; 1; 0; 0; 0; 1]]>
          (<[5%positive := [1; 2; 3; 4; 5; 6; 7; 8; 9]]>
            (<[4%positive := [10; 10; 10]]>
              (<[3%positive := [0; 0; 0]]>
                (<[2%positive := [0; 0; 0]]>
                  (<[1%positive := [3; 4; 0]]> ∅)))))))))%float.


(** ** More vocabulary (exact arithmetic) *)

(** *** Quaternions and vectors *)

(** the Hamilton product of two quaternions stored as [(x, y, z, w)], that
    is [w + x i + y j + z k] *)
Definition quat_prod (a b : list R) : list R :=
  let ax := nth 0 a 0 in let ay := nth 1 a 0 in let az := nth 2 a 0 in let aw := nth 3 a 0 in
  let bx := nth 0 b 0 in let by' := nth 1 b 0 in let bz := nth 2 b 0 in let bw := nth 3 b 0 in
  [ aw * bx + ax * bw + ay * bz - az * by';
    aw * by' - ax * bz + ay * bw + az * bx;
    aw * bz + ax * by' - ay * bx + az * bw;
    aw * bw - ax * bx - ay * by' - az * bz ].

Definition quat_one : list R := [0; 0; 0; 1].

Definition quat_conj (q : list R) : list R :=
  [- nth 0 q 0; - nth 1 q 0; - nth 2 q 0; nth 3 q 0].

(** the vector [v] as the pure quaternion [x i + y j + z k] *)
Definition quat_of_vec (v : list R) : list R := [nth 0 v 0; nth 1 v 0; nth 2 v 0; 0].

Definition vec3_dot (a b : list R) : R :=
  nth 0 a 0 * nth 0 b 0 + nth 1 a 0 * nth 1 b 0 + nth 2 a 0 * nth 2 b 0.

Definition vec3_unit (v : list R) : Prop := length v = 3%nat /\ vec3_dot v v = 1.

(** *** More on 3x3 matrices *)

(** the matrix applied to a column vector *)
Definition mat3_apply (m v : list R) : list R :=
  map (fun i => mat3_entry m i 0 * nth 0 v 0 + mat3_entry m i 1 * nth 1 v 0
                + mat3_entry m i 2 * nth 2 v 0) [0; 1; 2]%nat.

Definition mat3_transpose (m : list R) : list R :=
  flat_map (fun i => map (fun j => mat3_entry m j i) [0; 1; 2]%nat) [0; 1; 2]%nat.

(** ** More stores of examples *)

(** the quaternions [(0, 0, 0, 1)] and [(0, 0, 3/5, 4/5)], the vector
    [(1, 2, 3)], an output vector, a 4x4 matrix, a basis, and the unit vector
    [(0, 0, 1)] *)
Definition quat_store : heap R :=
  <[7%positive := [0; 0; 1]]>
    (<[6%positive := [0; 0; 0; 0; 0; 0; 0; 0; 0]]>
      (<[5%positive := [0; 0; 0; 0; 0; 0; 0; 0; 0; 0; 0; 0; 0; 0; 0; 0]]>
        (<[4%positive := [0; 0; 0]]>
          (<[3%positive := [1; 2; 3]]>
            (<[2%positive := [0; 0; 3 / 5; 4 / 5]]>
              (<[1%positive := [0; 0; 0; 1]]> ∅)))))).

(** the Euler angles [(1, 1/2, -1)], a basis and a second one, a vector and
    two output arrays *)
Definition euler_store : heap R :=
  <[6%positive := [0; 0; 0]]>
    (<[5%positive := [0; 0; 0; 0; 0; 0; 0; 0; 0]]>
      (<[4%positive := [4; 5; 6]]>
        (<[3%positive := [0; 1; 0; 0; 0; 1; 1; 0; 0]]>
          (<[2%positive := [0; 0; 1; 0; 1; 0; -1; 0; 0]]>
            (<[1%positive := [1; 1 / 2; -1]]> ∅))))).

(** *** 3x3 matrices stored by columns ([mat3.ts]) *)

Definition cmat3_entry (m : list R) (r c : nat) : R := nth (3 * c + r) m 0.

Definition cmat3_prod (a b : list R) : list R :=
  flat_map (fun c =>
    map (fun r => cmat3_entry a r 0 * cmat3_entry b 0 c
                  + cmat3_entry a r 1 * cmat3_entry b 1 c
                  + cmat3_entry a r 2 * cmat3_entry b 2 c) [0; 1; 2]%nat) [0; 1; 2]%nat.

(** the action on the point [(x, y)] of the plane: the matrix applied to
    [(x, y, 1)], without the last coordinate *)
Definition cmat3_act (m v : list R) : list R :=
  map (fun r => cmat3_entry m r 0 * nth 0 v 0 + cmat3_entry m r 1 * nth 1 v 0
                + cmat3_entry m r 2) [0; 1]%nat.

(** an affine map of the plane: the last row is [(0, 0, 1)] *)
Definition cmat3_affine (m : list R) : Prop :=
  length m = 9%nat /\
  cmat3_entry m 2 0 = 0 /\ cmat3_entry m 2 1 = 0 /\ cmat3_entry m 2 2 = 1.

(** the matrix [a] of the affine map [(x, y) -> (2 x + 1, 3 y + 2)], a
    translation vector, a point, and arrays for results *)
Definition plane_store : heap R :=
  <[7%positive := [0; 0]]>
    (<[6%positive := [0; 0]]>
      (<[5%positive := [0; 0; 0; 0; 0; 0; 0; 0; 0]]>
        (<[4%positive := [0; 0; 0; 0; 0; 0; 0; 0; 0]]>
          (<[3%positive := [5; 7]]>
            (<[2%positive := [1; 0; 0; 0; 1; 0; 3; 4; 1]]>
              (<[1%positive := [2; 0; 0; 0; 3; 0; 1; 2; 1]]> ∅)))))).

(** *** More on 4x4 matrices *)

Definition mat4_identity : list R :=
  [1; 0; 0; 0; 0; 1; 0; 0; 0; 0; 1; 0; 0; 0; 0; 1].

(** a matrix (a translation after a scaling), vectors, and arrays for
    results *)
Definition space_store : heap R :=
  <[7%positive := [1; 2; -3]]>
    (<[6%positive := [0; 1; 0]]>
      (<[5%positive := [0; 0; 0]]>
        (<[4%positive := [0; 0; 0; 0; 0; 0; 0; 0; 0; 0; 0; 0; 0; 0; 0; 0]]>
          (<[3%positive := [0; 0; 5]]>
            (<[2%positive := [1; 2; 3]]>
              (<[1%positive := [2; 0; 0; 0; 0; 2; 0; 0; 0; 0; 2; 0; 1; 2; 3; 1]]> ∅)))))).

(** *** Vectors *)

Definition vec2_dot (a b : list R) : R := nth 0 a 0 * nth 0 b 0 + nth 1 a 0 * nth 1 b 0.

(** the vectors [(3, 4)] and [(1, 2, 3)], the unit normals [(0, 1)] and
    [(0, 0, 1)], the vector [(4, 5, 6)], and output vectors *)
Definition vector_store : heap R :=
  <[7%positive := [4; 5; 6]]>
    (<[6%positive := [0; 1]]>
      (<[5%positive := [0; 0; 0]]>
        (<[4%positive := [0; 0; 1]]>
          (<[3%positive := [1; 2; 3]]>
            (<[2%positive := [0; 0]]>
              (<[1%positive := [3; 4]]> ∅)))))).

Local Close Scope R_scope.

(** * Proofs *)

(** ** Running a computation *)

Section Run.
Context {F : Type}.
Implicit Types (h : heap F) (a : loc) (i : nat) (v : F) (vs : list F).

Lemma wp_ret {A} (x : A) h (Q : A -> heap F -> Prop) :
  Q x h -> wp (ret x) h Q.
Proof. intros HQ. exact HQ. Qed.

Lemma wp_bind {A B} (m : M F A) (k : A -> M F B) h (Q : B -> heap F -> Prop) :
  wp m h (fun x h' => wp (k x) h' Q) -> wp (bind m k) h Q.
Proof. unfold wp, bind. destruct (m h) as [[x h']|]; intros HQ; exact HQ. Qed.

Lemma wp_load a i h vs v (Q : F -> heap F -> Prop) :
  h !! a = Some vs -> vs !! i = Some v -> Q v h -> wp (load a i) h Q.
Proof. intros Ha Hi HQ. unfold wp, load. rewrite Ha, Hi. exact HQ. Qed.

Lemma wp_store a i v h vs vs' (Q : unit -> heap F -> Prop) :
  h !! a = Some vs -> (i < length vs)%nat -> vs' = <[i := v]> vs ->
  Q tt (<[a := vs']> h) -> wp (store a i v) h Q.
Proof.
  intros Ha Hi -> HQ. unfold wp, store. rewrite Ha.
  destruct (decide (i < length vs)%nat); [exact HQ | contradiction].
Qed.

(** a second update of the array that was updated last *)
Lemma wp_store_top a i v h vs vs' (Q : unit -> heap F -> Prop) :
  (i < length vs)%nat -> vs' = <[i := v]> vs ->
  Q tt (<[a := vs']> h) -> wp (store a i v) (<[a := vs]> h) Q.
Proof.
  intros Hi Hvs' HQ. eapply wp_store; [apply lookup_insert_eq | exact Hi | exact Hvs' | ].
  rewrite insert_insert_eq. exact HQ.
Qed.

Lemma wp_alloc vs h (Q : loc -> heap F -> Prop) :
  (forall r, h !! r = None -> Q r (<[r := vs]> h)) -> wp (alloc vs) h Q.
Proof. intros HQ. apply HQ, not_elem_of_dom, is_fresh. Qed.

Lemma wp_mono {A} (m : M F A) h (Q Q' : A -> heap F -> Prop) :
  wp m h Q -> (forall x h', Q x h' -> Q' x h') -> wp m h Q'.
Proof. unfold wp. destruct (m h) as [[x h']|]; [ auto | contradiction ]. Qed.

Lemma wp_of_run {A} (m : M F A) h x h' (Q : A -> heap F -> Prop) :
  m h = Some (x, h') -> Q x h' -> wp m h Q.
Proof. intros Hm HQ. unfold wp. rewrite Hm. exact HQ. Qed.

Lemma wp_run {A} (m : M F A) h (Q : A -> heap F -> Prop) :
  wp m h Q -> exists x h', m h = Some (x, h') /\ Q x h'.
Proof. unfold wp. destruct (m h) as [[x h']|]; [ eauto | contradiction ]. Qed.

Lemma wp_run_eq {A} (m : M F A) h x h' :
  wp m h (fun y h'' => y = x /\ h'' = h') -> m h = Some (x, h').
Proof.
  unfold wp. destruct (m h) as [[y h'']|]; [ | contradiction ].
  intros [-> ->]. reflexivity.
Qed.

Lemma lookup_neq h a b vs : h !! a = Some vs -> h !! b = None -> a <> b.
Proof. intros Ha Hb ->. congruence. Qed.
End Run.

(** location disequalities: stated, or one location is live and the other
    is not *)
Ltac solve_neq :=
  first
    [ assumption
    | apply not_eq_sym; assumption
    | eapply lookup_neq; eassumption
    | apply not_eq_sym; eapply lookup_neq; eassumption ].

(** [h' !! a = Some ?vs] where [h'] is a stack of updates of a store *)
Ltac solve_lookup :=
  repeat first
    [ rewrite lookup_insert_eq
    | rewrite lookup_insert_ne by solve_neq ];
  first [ reflexivity | eassumption ].

(** the elements of an updated array literal *)
Ltac solve_update := lazy [insert list_insert]; reflexivity.

(** what is known of a new location [r]: it is none of the live ones *)
Ltac note_fresh H :=
  repeat (rewrite lookup_insert_None in H;
          let H' := fresh "Hne" in destruct H as [H H']).

Ltac step :=
  lazymatch goal with
  | |- wp (bind _ _) _ _ => apply wp_bind
  | |- wp (ret _) _ _ => apply wp_ret
  | |- wp (load _ _) _ _ => eapply wp_load; [ solve_lookup | reflexivity | ]
  | |- wp (store _ _ _) _ _ =>
      first [ eapply wp_store_top; [ simpl; lia | solve_update | ]
            | eapply wp_store; [ solve_lookup | simpl; lia | solve_update | ] ]
  | |- wp (alloc _) _ _ =>
      let r := fresh "r" in
      let H := fresh "Hfresh" in
      apply wp_alloc; intros r H; note_fresh H
  | |- wp (if ?c then _ else _) _ _ => destruct c eqn:?
  end; cbv beta.

Ltac steps := repeat step.

(** the branches taken, in the value the post-condition names *)
Ltac use_conds :=
  cbn [nth];
  repeat match goal with
         | H : ?c = _ |- context [if ?c then _ else _] => rewrite H; cbn [nth]
         end.

Ltac finish := use_conds; split; reflexivity.

(** [h ⊆ h'] for a store [h'] that only adds new arrays to [h] *)
Ltac solve_extends :=
  repeat (apply insert_subseteq_r; [ assumption | ]); reflexivity.

(** the two arguments may or may not be the same array *)
Ltac dedup :=
  repeat match goal with
         | H1 : ?h !! ?a = Some ?v1, H2 : ?h !! ?a = Some ?v2 |- _ =>
             assert (v2 = v1) by congruence; subst v2; clear H2
         end.

Ltac alias x y :=
  destruct (decide (x = y)); [ subst; dedup | ].

Ltac alias3 x y z :=
  destruct (decide (x = y)); destruct (decide (x = z)); subst; dedup.

(** an array of known length is the list of its elements *)
Ltac explode_list l H :=
  repeat (destruct l as [|? l]; [ discriminate H | ]);
  destruct l; [ clear H | discriminate H ].

Ltac explode :=
  repeat match goal with
         | H : length ?l = _ |- _ => explode_list l H
         end.

(** the constants of the binary64 carrier are the doubles of the literals
    [0.000001] and [0.9995] *)
Lemma float_constants :
  EPSILON (F := float) = 0x1.0c6f7a0b5ed8dp-20%float /\
  SLERP_THRESHOLD (F := float) = 0x1.ffbe76c8b4396p-1%float.
Proof. split; vm_compute; reflexivity. Qed.

(** ** What each function leaves in the store *)

Section RunKernel.
Context {F : Type} `{!Scalar F}.
Implicit Types (h : heap F).

(** *** Zero-length inputs of the normalisations *)

Lemma vec2Normalize_zero h out v vs o :
  h !! v = Some vs -> length vs = 2%nat ->
  h !! out = Some o -> length o = 2%nat ->
  (fsqrt (vs@0 * vs@0 + vs@1 * vs@1) =? #0) = true ->
  vec2Normalize out v h = Some (out, <[out := [ #0; #0 ]]> h).
Proof.
  intros Hv Hvs Ho Hlen Hz. explode. cbn [nth] in Hz.
  apply wp_run_eq. unfold vec2Normalize. do 4 step. rewrite Hz. steps.
  split; reflexivity.
Qed.

Lemma vec3Normalize_zero h out v vs o :
  h !! v = Some vs -> length vs = 3%nat ->
  h !! out = Some o -> length o = 3%nat ->
  (fsqrt (vs@0 * vs@0 + vs@1 * vs@1 + vs@2 * vs@2) =? #0) = true ->
  vec3Normalize out v h = Some (out, <[out := [ #0; #0; #0 ]]> h).
Proof.
  intros Hv Hvs Ho Hlen Hz. explode. cbn [nth] in Hz.
  apply wp_run_eq. unfold vec3Normalize. do 6 step. rewrite Hz. steps.
  split; reflexivity.
Qed.

Lemma quatNormalize_zero h out q vs o :
  h !! q = Some vs -> length vs = 4%nat ->
  h !! out = Some o -> length o = 4%nat ->
  (quatLength_val vs =? #0) = true ->
  quatNormalize out q h = Some (out, <[out := [ #0; #0; #0; #1 ]]> h).
Proof.
  intros Hq Hvs Ho Hlen Hz. explode. unfold quatLength_val in Hz. cbn [nth] in Hz.
  apply wp_run_eq. unfold quatNormalize, quatLength. do 10 step. rewrite Hz. steps.
  split; reflexivity.
Qed.

(** *** Vectors and quaternions *)

Lemma vec3Normalize_run h out v vs o :
  h !! v = Some vs -> length vs = 3%nat ->
  h !! out = Some o -> length o = 3%nat ->
  out <> v ->
  vec3Normalize out v h = Some (out, <[out := vec3Normalize_val vs]> h).
Proof.
  intros Hv Hvs Ho Hlen Hne. explode.
  apply wp_run_eq. unfold vec3Normalize, vec3Normalize_val. cbn [nth]. steps.
  all: finish.
Qed.

Lemma vec3Lerp_run h out a b t va vb o :
  h !! a = Some va -> length va = 3%nat ->
  h !! b = Some vb -> length vb = 3%nat ->
  h !! out = Some o -> length o = 3%nat ->
  exists h', vec3Lerp out a b t h = Some (out, h') /\
             h' !! out = Some (vec3Lerp_val va vb t).
Proof.
  intros Ha Hva Hb Hvb Ho Hlen.
  cut (wp (vec3Lerp out a b t) h
         (fun x h' => x = out /\ h' !! out = Some (vec3Lerp_val va vb t))).
  { intros (x & h' & Hrun & -> & Hout)%wp_run. eauto. }
  alias3 out a b; explode.
  all: unfold vec3Lerp, vec3Sub, vec3Mul, vec3Add, vec3Lerp_val; cbn [nth]; steps.
  all: split; [ reflexivity | rewrite lookup_insert_eq; reflexivity ].
Qed.

Lemma quatLerp_run h out a b t qa qb o :
  h !! a = Some qa -> length qa = 4%nat ->
  h !! b = Some qb -> length qb = 4%nat ->
  h !! out = Some o -> length o = 4%nat ->
  quatLerp out a b t h = Some (out, <[out := quatLerp_val qa qb t]> h).
Proof.
  intros Ha Hqa Hb Hqb Ho Hlen. apply wp_run_eq.
  alias3 out a b; explode.
  all: unfold quatLerp, quatLerp_val, renormalize, renormalize_val, mix_val,
         quatLength_val; cbn [nth]; steps.
  all: finish.
Qed.

Lemma quatSlerp_run `{!Trig F} h out a b t qa qb o :
  h !! a = Some qa -> length qa = 4%nat ->
  h !! b = Some qb -> length qb = 4%nat ->
  h !! out = Some o -> length o = 4%nat ->
  out <> a ->
  quatSlerp out a b t h = Some (out, <[out := quatSlerp_val qa qb t]> h).
Proof.
  intros Ha Hqa Hb Hqb Ho Hlen Hne. apply wp_run_eq.
  alias out b; explode.
  all: unfold quatSlerp, quatSlerp_val, slerp_dot, slerp_target, quatDot, quatDot_val,
         renormalize, renormalize_val, mix_val, quatLength_val; cbn [nth]; steps.
  all: finish.
Qed.

Lemma quatSlerp_inplace_run `{!Trig F} h a b t qa qb :
  h !! a = Some qa -> length qa = 4%nat ->
  h !! b = Some qb -> length qb = 4%nat ->
  quatSlerp a a b t h = Some (a, <[a := quatSlerp_inplace_val qa qb t]> h).
Proof.
  intros Ha Hqa Hb Hqb. apply wp_run_eq.
  alias a b; explode.
  all: unfold quatSlerp, quatSlerp_inplace_val, slerp_dot, slerp_target, quatDot,
         quatDot_val, renormalize, renormalize_val, mix_val, quatLength_val;
       cbn [nth]; steps.
  all: finish.
Qed.

(** *** Bases *)

Lemma basisToQuat_val_length (b : list F) : length (basisToQuat_val b) = 4%nat.
Proof.
  unfold basisToQuat_val.
  destruct (_ >? #0); [ reflexivity | ].
  destruct (_ && _); [ reflexivity | ].
  destruct (_ >? _); reflexivity.
Qed.

Lemma renormalize_val_length (q : list F) : length (renormalize_val q) = 4%nat.
Proof. unfold renormalize_val. destruct (_ >? EPSILON); reflexivity. Qed.

Lemma quatSlerp_val_length `{!Trig F} (a b : list F) t :
  length (quatSlerp_val a b t) = 4%nat.
Proof.
  unfold quatSlerp_val. destruct (_ >? SLERP_THRESHOLD);
    [ apply renormalize_val_length | reflexivity ].
Qed.

Lemma basisToQuat_wp h b vb (Q : loc -> heap F -> Prop) :
  h !! b = Some vb -> length vb = 9%nat ->
  (forall r, h !! r = None -> Q r (<[r := basisToQuat_val vb]> h)) ->
  wp (basisToQuat b) h Q.
Proof.
  intros Hb Hvb HQ. explode.
  unfold basisToQuat. unfold basisToQuat_val in HQ. cbn [nth] in HQ.
  steps.
  all: match goal with H : _ !! ?r = None |- _ => specialize (HQ r H) end.
  all: revert HQ; use_conds; intros HQ; exact HQ.
Qed.

Lemma basisFromQuat_wp h q vq (Q : loc -> heap F -> Prop) :
  h !! q = Some vq -> length vq = 4%nat ->
  (forall r, h !! r = None -> Q r (<[r := basisFromQuat_val vq]> h)) ->
  wp (basisFromQuat q) h Q.
Proof.
  intros Hq Hvq HQ. explode.
  unfold basisFromQuat. steps. apply HQ. assumption.
Qed.

Lemma basisFromAxisAngle_wp `{!Trig F} h axis angle v (Q : loc -> heap F -> Prop) :
  h !! axis = Some v -> length v = 3%nat ->
  (forall n r, h !! n = None -> h !! r = None -> n <> r ->
     Q r (<[r := basisFromAxisAngle_val v angle]> (<[n := vec3Normalize_val v]> h))) ->
  wp (basisFromAxisAngle axis angle) h Q.
Proof.
  intros Hv Hlen HQ. explode.
  unfold basisFromAxisAngle, vec3Normalize.
  unfold basisFromAxisAngle_val, vec3Normalize_val in HQ. cbn [nth] in HQ.
  steps.
  all: match goal with
       | Hn : _ !! ?n = None, Hr : _ !! ?r = None, Hne : ?n <> ?r |- _ =>
           specialize (HQ n r Hn Hr Hne)
       end.
  all: revert HQ; use_conds; intros HQ; exact HQ.
Qed.

Lemma basisMul_run h out a b va vb o :
  h !! a = Some va -> length va = 9%nat ->
  h !! b = Some vb -> length vb = 9%nat ->
  h !! out = Some o -> length o = 9%nat ->
  basisMul out a b h = Some (out, <[out := basisMul_val va vb]> h).
Proof.
  intros Ha Hva Hb Hvb Ho Hlen. apply wp_run_eq.
  alias3 out a b; explode.
  all: unfold basisMul, basisMul_val; cbn [nth]; steps.
  all: finish.
Qed.

Lemma basisTranspose_run h out b vb o :
  h !! b = Some vb -> length vb = 9%nat ->
  h !! out = Some o -> length o = 9%nat ->
  basisTranspose out b h = Some (out, <[out := basisTranspose_val vb]> h).
Proof.
  intros Hb Hvb Ho Hlen. apply wp_run_eq.
  alias out b; explode.
  all: unfold basisTranspose, basisTranspose_val; cbn [nth]; steps; try congruence.
  all: finish.
Qed.

Lemma basisDeterminant_run h b vb :
  h !! b = Some vb -> length vb = 9%nat ->
  basisDeterminant b h = Some (basisDeterminant_val vb, h).
Proof.
  intros Hb Hvb. apply wp_run_eq. explode.
  unfold basisDeterminant, basisDeterminant_val; cbn [nth]; steps.
  finish.
Qed.

Lemma basisInverse_run h out b vb o :
  h !! b = Some vb -> length vb = 9%nat ->
  h !! out = Some o -> length o = 9%nat ->
  out <> b ->
  basisInverse out b h = Some (out, <[out := basisInverse_val vb]> h).
Proof.
  intros Hb Hvb Ho Hlen Hne. apply wp_run_eq. explode.
  unfold basisInverse, basisIdentity, basisDeterminant, basisInverse_val,
    basisIdentity_val, basisDeterminant_val; cbn [nth]; steps.
  all: finish.
Qed.

Lemma basisInverse_inplace_run h b vb :
  h !! b = Some vb -> length vb = 9%nat ->
  basisInverse b b h = Some (b, <[b := basisInverse_inplace_val vb]> h).
Proof.
  intros Hb Hvb. apply wp_run_eq. explode.
  unfold basisInverse, basisIdentity, basisDeterminant, basisInverse_inplace_val,
    basisIdentity_val, basisDeterminant_val; cbn [nth]; steps.
  all: finish.
Qed.

Lemma basisOrthonormalize_wp h out b vb o :
  h !! b = Some vb -> length vb = 9%nat ->
  h !! out = Some o -> length o = 9%nat ->
  wp (basisOrthonormalize out b) h (fun r h' => r = out /\ h ⊆ h').
Proof.
  intros Hb Hvb Ho Hlen.
  alias out b; explode.
  all: unfold basisOrthonormalize, triple, vec3Normalize, vec3Dot, vec3Cross; steps.
  all: split; [ reflexivity | solve_extends ].
Qed.

Lemma basisLerp_wp h out a b t va vb :
  h !! a = Some va -> length va = 9%nat ->
  h !! b = Some vb -> length vb = 9%nat ->
  wp (basisLerp out a b t) h
    (fun r h' => h ⊆ h' /\ h !! r = None /\ h' !! r = Some (basisLerp_val va vb t)).
Proof.
  intros Ha Hva Hb Hvb.
  unfold basisLerp, basisLerp_val, quatLerp_val.
  step. eapply basisToQuat_wp; [ solve_lookup | assumption | ]. intros qa Hqa.
  step. eapply basisToQuat_wp; [ solve_lookup | assumption | ]. intros qb Hqb.
  note_fresh Hqb.
  pose proof (basisToQuat_val_length va) as Hla.
  pose proof (basisToQuat_val_length vb) as Hlb.
  generalize dependent (basisToQuat_val va). intros la Hla.
  generalize dependent (basisToQuat_val vb). intros lb Hlb.
  explode. unfold renormalize, renormalize_val, mix_val, quatLength_val. cbn [nth].
  steps.
  all: (eapply basisFromQuat_wp; [ solve_lookup | reflexivity | ]);
    intros res Hres; note_fresh Hres.
  all: split; [ solve_extends | split; [ assumption | ] ].
  all: rewrite lookup_insert_eq; reflexivity.
Qed.

Lemma basisSlerp_wp `{!Trig F} h out a b t va vb :
  h !! a = Some va -> length va = 9%nat ->
  h !! b = Some vb -> length vb = 9%nat ->
  wp (basisSlerp out a b t) h
    (fun r h' => h ⊆ h' /\ h !! r = None /\ h' !! r = Some (basisSlerp_val va vb t)).
Proof.
  intros Ha Hva Hb Hvb.
  unfold basisSlerp, basisSlerp_val, quatSlerp_val, slerp_dot, slerp_target.
  step. eapply basisToQuat_wp; [ solve_lookup | assumption | ]. intros qa Hqa.
  step. eapply basisToQuat_wp; [ solve_lookup | assumption | ]. intros qb Hqb.
  note_fresh Hqb.
  pose proof (basisToQuat_val_length va) as Hla.
  pose proof (basisToQuat_val_length vb) as Hlb.
  generalize dependent (basisToQuat_val va). intros la Hla.
  generalize dependent (basisToQuat_val vb). intros lb Hlb.
  explode.
  unfold quatDot, quatDot_val, renormalize, renormalize_val, mix_val, quatLength_val.
  cbn [nth]. steps.
  all: use_conds.
  all: (eapply basisFromQuat_wp; [ solve_lookup | reflexivity | ]);
    intros res Hres; note_fresh Hres.
  all: split; [ solve_extends | split; [ assumption | ] ].
  all: rewrite lookup_insert_eq; reflexivity.
Qed.

Lemma basisRotate_wp `{!Trig F} h out b axis angle vb v o :
  h !! b = Some vb -> length vb = 9%nat ->
  h !! axis = Some v -> length v = 3%nat ->
  h !! out = Some o -> length o = 9%nat ->
  wp (basisRotate out b axis angle) h
    (fun r h' => r = out /\
       h' !! out = Some (basisMul_val (basisFromAxisAngle_val v angle) vb)).
Proof.
  intros Hb Hvb Hv Hlv Ho Hlen.
  unfold basisRotate. step.
  eapply basisFromAxisAngle_wp; [ solve_lookup | assumption | ].
  intros n r Hn Hr Hnr.
  eapply wp_of_run.
  - eapply basisMul_run; [ solve_lookup | reflexivity | solve_lookup | eassumption
                         | solve_lookup | eassumption ].
  - split; [ reflexivity | apply lookup_insert_eq ].
Qed.

Lemma basisRotateLocal_wp `{!Trig F} h out b axis angle vb v o :
  h !! b = Some vb -> length vb = 9%nat ->
  h !! axis = Some v -> length v = 3%nat ->
  h !! out = Some o -> length o = 9%nat ->
  wp (basisRotateLocal out b axis angle) h
    (fun r h' => r = out /\
       h' !! out = Some (basisMul_val vb (basisFromAxisAngle_val v angle))).
Proof.
  intros Hb Hvb Hv Hlv Ho Hlen.
  unfold basisRotateLocal. step.
  eapply basisFromAxisAngle_wp; [ solve_lookup | assumption | ].
  intros n r Hn Hr Hnr.
  eapply wp_of_run.
  - eapply basisMul_run; [ solve_lookup | eassumption | solve_lookup | reflexivity
                         | solve_lookup | eassumption ].
  - split; [ reflexivity | apply lookup_insert_eq ].
Qed.

(** *** Matrices and colours *)

Lemma mat3Invert_run h out a va o :
  h !! a = Some va -> length va = 9%nat ->
  h !! out = Some o -> length o = 9%nat ->
  mat3Invert out a h =
    Some (if fabs (mat3Invert_det va) <? EPSILON then (None, h)
          else (Some out, <[out := mat3Invert_val va]> h)).
Proof.
  intros Ha Hva Ho Hlen.
  destruct (fabs (mat3Invert_det va) <? EPSILON) eqn:Hdet; apply wp_run_eq.
  all: alias out a; explode.
  all: unfold mat3Invert_det in Hdet; cbn [nth] in Hdet.
  all: unfold mat3Invert, mat3Invert_val, mat3Invert_det; cbn [nth]; steps;
    try congruence.
  all: finish.
Qed.

Lemma mat4Mul_run h out a b va vb o :
  h !! a = Some va -> length va = 16%nat ->
  h !! b = Some vb -> length vb = 16%nat ->
  h !! out = Some o -> length o = 16%nat ->
  mat4Mul out a b h = Some (out, <[out := mat4Mul_val va vb]> h).
Proof.
  intros Ha Hva Hb Hvb Ho Hlen. apply wp_run_eq.
  alias3 out a b; explode.
  all: unfold mat4Mul, mat4Mul_val, mat4Mul_row; cbn [nth app]; steps.
  all: finish.
Qed.

Lemma mat4TransformVec3_run h out m v vm vv o :
  h !! m = Some vm -> length vm = 16%nat ->
  h !! v = Some vv -> length vv = 3%nat ->
  h !! out = Some o -> length o = 3%nat ->
  out <> m ->
  mat4TransformVec3 out m v h = Some (out, <[out := mat4TransformVec3_val vm vv]> h).
Proof.
  intros Hm Hvm Hv Hvv Ho Hlen Hne. apply wp_run_eq.
  alias out v; explode.
  all: unfold mat4TransformVec3, mat4TransformVec3_val; cbn [nth]; steps.
  all: finish.
Qed.

Lemma lerpHsv_run `{!Rem F} h out a b t va vb o :
  h !! a = Some va -> length va = 3%nat ->
  h !! b = Some vb -> length vb = 3%nat ->
  h !! out = Some o -> length o = 3%nat ->
  lerpHsv out a b t h = Some (out, <[out := lerpHsv_val va vb t]> h).
Proof.
  intros Ha Hva Hb Hvb Ho Hlen. apply wp_run_eq.
  alias3 out a b; explode.
  all: unfold lerpHsv, lerpHsv_val, hueDelta; cbn [nth]; steps.
  all: finish.
Qed.
End RunKernel.

(** *** The degenerate branch of [basisInverse], for any [out] *)

Section RunDegenerate.
Context {F : Type} `{!Scalar F}.

Lemma basisInverse_degenerate_run (h : heap F) out b vb o :
  h !! b = Some vb -> length vb = 9%nat ->
  h !! out = Some o -> length o = 9%nat ->
  (fabs (basisDeterminant_val vb) <? EPSILON)%num = true ->
  basisInverse out b h = Some (out, <[out := basisIdentity_val]> h).
Proof.
  intros Hb Hvb Ho Hlen Hdet. apply wp_run_eq.
  alias out b; explode.
  all: unfold basisDeterminant_val in Hdet; cbn [nth] in Hdet.
  all: unfold basisInverse, basisIdentity, basisDeterminant, basisIdentity_val;
    cbn [nth]; steps; try congruence.
  all: finish.
Qed.
End RunDegenerate.

(** ** The repository's tests, run on binary64 *)

Section Tests.
Local Open Scope float_scope.

(** "should normalize a vector" *)
Example test_vec3Normalize :
  result_at (vec3Normalize 2 1) tests_store 2%positive = Some [3 / 5; 4 / 5; 0].
Proof. vm_compute. reflexivity. Qed.

(** "should interpolate between vectors" *)
Example test_vec3Lerp :
  result_at (vec3Lerp 2 3 4 (1 / 2)) tests_store 2%positive = Some [5; 5; 5].
Proof. vm_compute. reflexivity. Qed.

(** "should transpose basis matrix" *)
Example test_basisTranspose :
  result_at (basisTranspose 6 5) tests_store 6%positive
    = Some [1; 4; 7; 2; 5; 8; 3; 6; 9].
Proof. vm_compute. reflexivity. Qed.

(** the same, in place *)
Example test_basisTranspose_in_place :
  result_at (basisTranspose 5 5) tests_store 5%positive
    = Some [1; 4; 7; 2; 5; 8; 3; 6; 9].
Proof. vm_compute. reflexivity. Qed.

(** "should calculate inverse of identity matrix" *)
Example test_basisInverse :
  result_at (basisInverse 8 6) tests_store 8%positive
    = Some [1; 0; 0; 0; 1; 0; 0; 0; 1].
Proof. vm_compute. reflexivity. Qed.

(** "invert should invert scaling" *)
Example test_mat3Invert :
  result_at (mat3Invert 8 7) tests_store 8%positive
    = Some [1 / 2; 0; 0; 0; 1 / 3; 0; 0; 0; 1].
Proof. vm_compute. reflexivity. Qed.

(** "should multiply two matrices" *)
Example test_mat4Mul :
  result_at (mat4Mul 4 1 2) mul_store 4%positive
    = Some [2; 0; 0; 0; 0; 2; 0; 0; 0; 0; 2; 0; 1; 2; 3; 1].
Proof. vm_compute. reflexivity. Qed.

(** "should orthonormalize basis matrix": the test passes the identity as
    [out] and finds it orthonormal afterwards *)
Example test_basisOrthonormalize :
  result_at (basisOrthonormalize 6 9) tests_store 6%positive
    = Some [1; 0; 0; 0; 1; 0; 0; 0; 1].
Proof. vm_compute. reflexivity. Qed.
End Tests.

(** ** Exact arithmetic: the algebra of the kernel *)

Local Open Scope R_scope.

Ltac to_R :=
  cbn [ofZ fadd fsub fmul fdiv fneg fsqrt fabs fltb feqb R_scalar
       fsin fcos facos R_trig frem R_rem] in *.

(** componentwise proof of an equation between array literals *)
Ltac each tac :=
  repeat first [ reflexivity | apply (f_equal2 cons); [ tac | ] ].

Lemma Rltb_true x y : Rltb x y = true <-> x < y.
Proof. unfold Rltb. destruct (Rlt_dec x y); split; intros; (lra || congruence). Qed.

Lemma Rltb_false x y : Rltb x y = false <-> y <= x.
Proof. unfold Rltb. destruct (Rlt_dec x y); split; intros; (lra || congruence). Qed.

Lemma Reqb_true x y : Reqb x y = true <-> x = y.
Proof. unfold Reqb. destruct (Req_dec_T x y); split; intros; (lra || congruence). Qed.

Lemma Reqb_false x y : Reqb x y = false <-> x <> y.
Proof. unfold Reqb. destruct (Req_dec_T x y); split; intros; (lra || congruence). Qed.

Lemma basisMul_val_prod (a b : list R) :
  length a = 9%nat -> length b = 9%nat -> basisMul_val a b = mat3_prod a b.
Proof. intros Ha Hb. explode. reflexivity. Qed.

Lemma basisDeterminant_val_det (b : list R) :
  length b = 9%nat -> basisDeterminant_val b = mat3_det b.
Proof.
  intros Hb. explode. unfold basisDeterminant_val, mat3_det, mat3_entry.
  cbn [nth Nat.mul Nat.add]. to_R. ring.
Qed.

Lemma mat3Invert_det_det (a : list R) :
  length a = 9%nat -> mat3Invert_det a = mat3_det a.
Proof.
  intros Ha. explode. unfold mat3Invert_det, mat3_det, mat3_entry.
  cbn [nth Nat.mul Nat.add]. to_R. ring.
Qed.

Lemma mat4Mul_val_prod (a b : list R) :
  length a = 16%nat -> length b = 16%nat -> mat4Mul_val a b = mat4_prod a b.
Proof.
  intros Ha Hb. explode.
  unfold mat4Mul_val, mat4Mul_row, mat4_prod, mat4_entry.
  cbn [nth Nat.mul Nat.add flat_map map app]. to_R. each ltac:(ring).
Qed.

Lemma mat4_apply_prod (a b v : list R) :
  length a = 16%nat -> length b = 16%nat -> length v = 4%nat ->
  mat4_apply (mat4_prod a b) v = mat4_apply a (mat4_apply b v).
Proof.
  intros Ha Hb Hv. explode.
  unfold mat4_apply, mat4_prod, mat4_entry.
  cbn [nth Nat.mul Nat.add flat_map map app]. each ltac:(ring).
Qed.

(** ** Slerp takes the shorter arc *)

Lemma quat_unit_neg (q : list R) : quat_unit q -> quat_unit (quat_neg q).
Proof.
  intros [Hl Hq]. split; [ reflexivity | ].
  explode. unfold quat_dot, quat_neg in *. cbn [nth] in *. lra.
Qed.

(** Cauchy-Schwarz for unit quaternions *)
Lemma cauchy_schwarz_unit (a0 a1 a2 a3 b0 b1 b2 b3 : R) :
  a0 * a0 + a1 * a1 + a2 * a2 + a3 * a3 = 1 ->
  b0 * b0 + b1 * b1 + b2 * b2 + b3 * b3 = 1 ->
  -1 <= a0 * b0 + a1 * b1 + a2 * b2 + a3 * b3 <= 1.
Proof.
  intros Ha Hb.
  pose proof (Rle_0_sqr (a0 - b0)). pose proof (Rle_0_sqr (a1 - b1)).
  pose proof (Rle_0_sqr (a2 - b2)). pose proof (Rle_0_sqr (a3 - b3)).
  pose proof (Rle_0_sqr (a0 + b0)). pose proof (Rle_0_sqr (a1 + b1)).
  pose proof (Rle_0_sqr (a2 + b2)). pose proof (Rle_0_sqr (a3 + b3)).
  unfold Rsqr in *. split; lra.
Qed.

(** the squared length of the linear mix of two unit quaternions *)
Lemma mix_norm_sq (a0 a1 a2 a3 b0 b1 b2 b3 t : R) :
  a0 * a0 + a1 * a1 + a2 * a2 + a3 * a3 = 1 ->
  b0 * b0 + b1 * b1 + b2 * b2 + b3 * b3 = 1 ->
  (a0 + t * (b0 - a0)) * (a0 + t * (b0 - a0))
  + (a1 + t * (b1 - a1)) * (a1 + t * (b1 - a1))
  + (a2 + t * (b2 - a2)) * (a2 + t * (b2 - a2))
  + (a3 + t * (b3 - a3)) * (a3 + t * (b3 - a3))
  = 1 - 2 * (1 - (a0 * b0 + a1 * b1 + a2 * b2 + a3 * b3)) * (t * (1 - t)).
Proof.
  intros Ha Hb.
  transitivity ((1 - t) * (1 - t) * (a0 * a0 + a1 * a1 + a2 * a2 + a3 * a3)
                + 2 * t * (1 - t) * (a0 * b0 + a1 * b1 + a2 * b2 + a3 * b3)
                + t * t * (b0 * b0 + b1 * b1 + b2 * b2 + b3 * b3)).
  - ring.
  - rewrite Ha, Hb. ring.
Qed.

Lemma mix_norm_sq_lower (d t : R) :
  9995 / 10000 < d -> d <= 1 -> 99 / 100 <= 1 - 2 * (1 - d) * (t * (1 - t)).
Proof.
  intros Hd Hd1.
  assert (Ht : t * (1 - t) <= 1 / 4) by (pose proof (Rle_0_sqr (t - 1 / 2)); unfold Rsqr in *; lra).
  nra.
Qed.

Lemma sqrt_above_EPSILON (s : R) : 99 / 100 <= s -> 1 / 1000000 < sqrt s.
Proof.
  intros Hs.
  apply Rlt_le_trans with (sqrt (1 / 4)).
  - replace (1 / 4) with ((1 / 2) * (1 / 2)) by lra.
    rewrite sqrt_square by lra. lra.
  - apply sqrt_le_1_alt. lra.
Qed.

(** the weights [quatSlerp] computes are those of the spherical formula *)
Lemma slerp_weight (d t : R) :
  0 <= d <= 9995 / 10000 ->
  cos (acos d * t) - d * sin (acos d * t) / sin (acos d)
  = sin ((1 - t) * acos d) / sin (acos d).
Proof.
  intros Hd.
  assert (Hcos : cos (acos d) = d) by (apply cos_acos; lra).
  assert (Hsin : 0 < sin (acos d)).
  { rewrite sin_acos by lra. apply sqrt_lt_R0. unfold Rsqr. nra. }
  replace ((1 - t) * acos d) with (acos d - acos d * t) by ring.
  rewrite sin_minus, Hcos. field. lra.
Qed.

Lemma quatSlerp_val_shorter_arc_explicit (a0 a1 a2 a3 b0 b1 b2 b3 t : R) :
  a0 * a0 + a1 * a1 + a2 * a2 + a3 * a3 = 1 ->
  b0 * b0 + b1 * b1 + b2 * b2 + b3 * b3 = 1 ->
  quatSlerp_val [a0; a1; a2; a3] [b0; b1; b2; b3] t
  = shorter_arc_slerp [a0; a1; a2; a3] [b0; b1; b2; b3] t.
Proof.
  intros Ha Hb.
  pose proof (cauchy_schwarz_unit a0 a1 a2 a3 b0 b1 b2 b3 Ha Hb) as Hd.
  unfold quatSlerp_val, shorter_arc_slerp, slerp_dot, slerp_target, quatDot_val,
    quat_dot, quat_neg, SLERP_THRESHOLD in *.
  cbn [nth] in *. to_R.
  set (d := a0 * b0 + a1 * b1 + a2 * b2 + a3 * b3) in *.
  destruct (Rlt_dec d 0) as [Hneg|Hpos].
  - (* the operand is negated *)
    rewrite (proj2 (Rltb_true d 0) Hneg). cbn [nth].
    rewrite (Rabs_left d) by exact Hneg.
    destruct (Rlt_dec (9995 / 10000) (- d)) as [Hnear|Hfar].
    + rewrite (proj2 (Rltb_true _ _) Hnear).
      unfold renormalize_val, quatLength_val, mix_val, nlerp, quat_norm, quat_dot, EPSILON.
      cbn [nth map]. to_R.
      assert (Hlen : Rltb (1 / 1000000)
                (sqrt ((a0 + t * (- b0 - a0)) * (a0 + t * (- b0 - a0))
                       + (a1 + t * (- b1 - a1)) * (a1 + t * (- b1 - a1))
                       + (a2 + t * (- b2 - a2)) * (a2 + t * (- b2 - a2))
                       + (a3 + t * (- b3 - a3)) * (a3 + t * (- b3 - a3)))) = true).
      { apply Rltb_true, sqrt_above_EPSILON.
        rewrite mix_norm_sq by lra.
        replace (a0 * - b0 + a1 * - b1 + a2 * - b2 + a3 * - b3) with (- d)
          by (unfold d; ring).
        apply mix_norm_sq_lower; lra. }
      rewrite Hlen. reflexivity.
    + rewrite (proj2 (Rltb_false _ _) (Rnot_lt_le _ _ Hfar)).
      unfold spherical. cbn [nth]. rewrite (Rabs_pos_eq (- d)) by lra.
      rewrite slerp_weight by lra.
      replace (t * acos (- d)) with (acos (- d) * t) by ring.
      reflexivity.
  - rewrite (proj2 (Rltb_false d 0) (Rnot_lt_le _ _ Hpos)). cbn [nth].
    rewrite (Rabs_pos_eq d) by lra.
    destruct (Rlt_dec (9995 / 10000) d) as [Hnear|Hfar].
    + rewrite (proj2 (Rltb_true _ _) Hnear).
      unfold renormalize_val, quatLength_val, mix_val, nlerp, quat_norm, quat_dot, EPSILON.
      cbn [nth map]. to_R.
      assert (Hlen : Rltb (1 / 1000000)
                (sqrt ((a0 + t * (b0 - a0)) * (a0 + t * (b0 - a0))
                       + (a1 + t * (b1 - a1)) * (a1 + t * (b1 - a1))
                       + (a2 + t * (b2 - a2)) * (a2 + t * (b2 - a2))
                       + (a3 + t * (b3 - a3)) * (a3 + t * (b3 - a3)))) = true).
      { apply Rltb_true, sqrt_above_EPSILON.
        rewrite mix_norm_sq by lra.
        fold d. apply mix_norm_sq_lower; lra. }
      rewrite Hlen. reflexivity.
    + rewrite (proj2 (Rltb_false _ _) (Rnot_lt_le _ _ Hfar)).
      unfold spherical. cbn [nth].
      rewrite slerp_weight by lra.
      replace (t * acos d) with (acos d * t) by ring.
      reflexivity.
Qed.

Lemma quatSlerp_val_shorter_arc (a b : list R) (t : R) :
  quat_unit a -> quat_unit b -> quatSlerp_val a b t = shorter_arc_slerp a b t.
Proof.
  intros [Hla Ha] [Hlb Hb]. explode. unfold quat_dot in Ha, Hb. cbn [nth] in Ha, Hb.
  apply quatSlerp_val_shorter_arc_explicit; assumption.
Qed.

Lemma nlerp_unit_explicit (a0 a1 a2 a3 b0 b1 b2 b3 t : R) :
  a0 * a0 + a1 * a1 + a2 * a2 + a3 * a3 = 1 ->
  b0 * b0 + b1 * b1 + b2 * b2 + b3 * b3 = 1 ->
  9995 / 10000 < a0 * b0 + a1 * b1 + a2 * b2 + a3 * b3 ->
  quat_norm (nlerp [a0; a1; a2; a3] [b0; b1; b2; b3] t) = 1.
Proof.
  intros Ha Hb Hd.
  pose proof (cauchy_schwarz_unit a0 a1 a2 a3 b0 b1 b2 b3 Ha Hb) as Hcs.
  unfold nlerp, quat_norm, quat_dot. cbn [nth map].
  pose proof (mix_norm_sq a0 a1 a2 a3 b0 b1 b2 b3 t Ha Hb) as Hs.
  pose proof (mix_norm_sq_lower _ t Hd (proj2 Hcs)) as Hlow.
  rewrite <- Hs in Hlow.
  set (s := (a0 + t * (b0 - a0)) * (a0 + t * (b0 - a0))
            + (a1 + t * (b1 - a1)) * (a1 + t * (b1 - a1))
            + (a2 + t * (b2 - a2)) * (a2 + t * (b2 - a2))
            + (a3 + t * (b3 - a3)) * (a3 + t * (b3 - a3))) in *.
  assert (Hpos : 0 < sqrt s) by (apply sqrt_lt_R0; lra).
  assert (Hsq : sqrt s * sqrt s = s) by (apply sqrt_sqrt; lra).
  transitivity (sqrt 1); [ f_equal | apply sqrt_1 ].
  set (len := sqrt s) in *.
  transitivity (s / (len * len)).
  - unfold s. field. lra.
  - rewrite Hsq. field. lra.
Qed.

(** With an [out] that is not [a]: for unit quaternions [a] and [b] and
    every [t], [quatSlerp] leaves in [out] the interpolation the
    specification describes: towards [-b] instead of [b] when [a.b < 0]; the
    componentwise linear interpolation renormalised to unit length when
    [|a.b| > 0.9995]; the spherical formula otherwise.  [basisSlerp] returns
    the basis of the quaternion that the same rule gives for the quaternions
    of its two bases. *)
Lemma slerp_takes_shorter_arc :
  (forall (h : heap R) out a b t qa qb o,
      h !! a = Some qa -> h !! b = Some qb ->
      h !! out = Some o -> length o = 4%nat ->
      out <> a -> quat_unit qa -> quat_unit qb ->
      let target := if Rlt_dec (quat_dot qa qb) 0 then quat_neg qb else qb in
      quatSlerp out a b t h = Some (out, <[out := shorter_arc_slerp qa qb t]> h) /\
      (9995 / 10000 < Rabs (quat_dot qa qb) ->
       shorter_arc_slerp qa qb t = nlerp qa target t /\
       quat_norm (shorter_arc_slerp qa qb t) = 1)) /\
  (forall (h : heap R) out a b t va vb,
      h !! a = Some va -> length va = 9%nat ->
      h !! b = Some vb -> length vb = 9%nat ->
      quat_unit (basisToQuat_val va) -> quat_unit (basisToQuat_val vb) ->
      exists r h',
        basisSlerp out a b t h = Some (r, h') /\
        h' !! r = Some (basisFromQuat_val
                          (shorter_arc_slerp (basisToQuat_val va) (basisToQuat_val vb) t))).
Proof.
  split.
  - intros h out a b t qa qb o Ha Hb Ho Hlen Hne Hqa Hqb target.
    split.
    + rewrite <- quatSlerp_val_shorter_arc by assumption.
      destruct Hqa as [Hla _], Hqb as [Hlb _].
      exact (quatSlerp_run h out a b t qa qb o Ha Hla Hb Hlb Ho Hlen Hne).
    + intros Hnear. unfold shorter_arc_slerp. fold target.
      destruct (Rlt_dec (9995 / 10000) (Rabs (quat_dot qa qb))) as [_|Hn];
        [ | contradiction ].
      split; [ reflexivity | ].
      assert (Htarget : quat_unit target /\ 9995 / 10000 < quat_dot qa target).
      { subst target. destruct (Rlt_dec (quat_dot qa qb) 0) as [Hneg|Hpos].
        - split; [ apply quat_unit_neg; exact Hqb | ].
          rewrite Rabs_left in Hnear by exact Hneg.
          destruct Hqa as [Hla _], Hqb as [Hlb _]. explode.
          unfold quat_dot, quat_neg in *. cbn [nth] in *. lra.
        - split; [ exact Hqb | ].
          rewrite Rabs_pos_eq in Hnear by lra. exact Hnear. }
      destruct Htarget as [[Hlt Ht] Hdot]. destruct Hqa as [Hla Hqa].
      generalize dependent target. intros target Hlt Ht Hdot. explode.
      unfold quat_dot in Hqa, Ht, Hdot. cbn [nth] in Hqa, Ht, Hdot.
      apply nlerp_unit_explicit; assumption.
  - intros h out a b t va vb Ha Hva Hb Hvb Hqa Hqb.
    destruct (wp_run _ _ _ (basisSlerp_wp h out a b t va vb Ha Hva Hb Hvb))
      as (r & h' & Hrun & _ & _ & Hres).
    exists r, h'. split; [ exact Hrun | ].
    rewrite Hres. unfold basisSlerp_val.
    rewrite quatSlerp_val_shorter_arc by assumption. reflexivity.
Qed.

Lemma basisToQuat_val_identity : basisToQuat_val mat3_identity = [0; 0; 0; 1].
Proof.
  unfold basisToQuat_val, mat3_identity. cbn [nth]. to_R.
  assert (Htr : Rltb 0 (1 + 1 + 1) = true) by (apply Rltb_true; lra).
  rewrite Htr.
  replace (1 + 1 + 1 + 1) with (2 * 2) by ring. rewrite sqrt_square by lra.
  each ltac:(field).
Qed.

(** ** Orthonormalisation *)

Section Orthonormalize.
Context {F : Type} `{!Scalar F}.

(** C2, what the code does: [basisOrthonormalize] normalises into temporary
    arrays and never writes to [out], which it returns as it was. *)
Theorem basisOrthonormalize_leaves_out :
  forall (h : heap F) out b vb o,
    h !! b = Some vb -> length vb = 9%nat ->
    h !! out = Some o -> length o = 9%nat ->
    exists h', basisOrthonormalize out b h = Some (out, h') /\
               h ⊆ h' /\ h' !! out = Some o.
Proof.
  intros h out b vb o Hb Hvb Ho Hlen.
  destruct (wp_run _ _ _ (basisOrthonormalize_wp h out b vb o Hb Hvb Ho Hlen))
    as (r & h' & Hrun & -> & Hsub).
  exists h'. repeat split; try assumption.
  exact (lookup_weaken _ _ _ _ Ho Hsub).
Qed.
End Orthonormalize.

Lemma basisOrthonormalize_leaves_out_witness :
  exists h', basisOrthonormalize 1 1 skew_store = Some (1%positive, h') /\
             skew_store ⊆ h' /\
             h' !! 1%positive = Some [2; 0; 0; 1; 1; 0; 0; 0; 1]%float.
Proof.
  apply (basisOrthonormalize_leaves_out (F := float) skew_store 1%positive 1%positive
           [2; 0; 0; 1; 1; 0; 0; 0; 1]%float [2; 0; 0; 1; 1; 0; 0; 0; 1]%float);
    reflexivity.
Defined.

(** the basis orthonormalised in place is still skewed: its X axis has length
    [2] and its X and Y axes have dot product [2] *)
Lemma basisOrthonormalize_in_place_skewed :
  result_at (basisOrthonormalize 1 1) skew_store 1%positive
    = Some [2; 0; 0; 1; 1; 0; 0; 0; 1]%float /\
  PrimFloat.sqrt (2 * 2 + 0 * 0 + 0 * 0) = 2%float /\
  (2 * 1 + 0 * 1 + 0 * 0 = 2)%float.
Proof. repeat split; vm_compute; reflexivity. Qed.

(** ** Global and local rotation *)

Lemma half_turn_z :
  basisFromAxisAngle_val [0; 0; 1] PI = [-1; 0; 0; 0; -1; 0; 0; 0; 1].
Proof.
  unfold basisFromAxisAngle_val, vec3Normalize_val. cbn [nth]. to_R.
  replace (0 * 0 + 0 * 0 + 1 * 1) with 1 by ring. rewrite sqrt_1.
  assert (Hne : Reqb 1 0 = false) by (apply Reqb_false; lra).
  rewrite Hne. cbn [nth]. rewrite cos_PI, sin_PI.
  each ltac:(field).
Qed.

(** C3.  [basisRotate(out, b, axis, angle)] is [basisMul(out, R, b)] and
    [basisRotateLocal(out, b, axis, angle)] is [basisMul(out, b, R)], where [R]
    is the basis [basisFromAxisAngle(axis, angle)] builds: the first leaves the
    matrix product [R·b] in [out], the second [b·R].  On the identity basis
    the two results coincide; they differ for some basis. *)
Theorem basisRotate_global_vs_local :
  (forall (h : heap R) out b axis angle vb v o,
      h !! b = Some vb -> length vb = 9%nat ->
      h !! axis = Some v -> length v = 3%nat ->
      h !! out = Some o -> length o = 9%nat ->
      let rot := basisFromAxisAngle_val v angle in
      basisRotate out b axis angle h
        = (let* r := basisFromAxisAngle axis angle in basisMul out r b) h /\
      basisRotateLocal out b axis angle h
        = (let* r := basisFromAxisAngle axis angle in basisMul out b r) h /\
      (exists h1, basisRotate out b axis angle h = Some (out, h1) /\
                  h1 !! out = Some (mat3_prod rot vb)) /\
      (exists h2, basisRotateLocal out b axis angle h = Some (out, h2) /\
                  h2 !! out = Some (mat3_prod vb rot)) /\
      (vb = mat3_identity -> mat3_prod rot vb = mat3_prod vb rot)) /\
  (exists vb v angle,
      length vb = 9%nat /\ length v = 3%nat /\
      mat3_prod (basisFromAxisAngle_val v angle) vb
        <> mat3_prod vb (basisFromAxisAngle_val v angle)).
Proof.
  split.
  - intros h out b axis angle vb v o Hb Hvb Hv Hlv Ho Hlen rot.
    assert (Hrot : length rot = 9%nat) by reflexivity.
    split; [ reflexivity | split; [ reflexivity | ] ].
    split; [ | split ].
    + destruct (wp_run _ _ _ (basisRotate_wp h out b axis angle vb v o Hb Hvb Hv Hlv Ho Hlen))
        as (x & h1 & Hrun & -> & Hout).
      exists h1. split; [ exact Hrun | ].
      rewrite <- (basisMul_val_prod rot vb) by assumption. exact Hout.
    + destruct (wp_run _ _ _
                  (basisRotateLocal_wp h out b axis angle vb v o Hb Hvb Hv Hlv Ho Hlen))
        as (x & h2 & Hrun & -> & Hout).
      exists h2. split; [ exact Hrun | ].
      rewrite <- (basisMul_val_prod vb rot) by assumption. exact Hout.
    + intros ->. generalize dependent rot. intros rot Hrot. explode.
      unfold mat3_prod, mat3_identity, mat3_entry.
      cbn [nth Nat.mul Nat.add flat_map map app]. each ltac:(ring).
  - exists quarter_turn_y, [0; 0; 1], PI.
    split; [ reflexivity | split; [ reflexivity | ] ].
    rewrite half_turn_z. unfold quarter_turn_y, mat3_prod, mat3_entry.
    cbn [nth Nat.mul Nat.add flat_map map app].
    intros Heq. injection Heq as _ _ Heq _. lra.
Qed.

Lemma basisRotate_global_vs_local_witness :
  exists h1 h2,
    basisRotate 3 1 2 PI rotate_store = Some (3%positive, h1) /\
    basisRotateLocal 3 1 2 PI rotate_store = Some (3%positive, h2) /\
    h1 !! 3%positive = h2 !! 3%positive.
Proof.
  destruct basisRotate_global_vs_local as [Hall _].
  destruct (Hall rotate_store 3%positive 1%positive 2%positive PI
              mat3_identity [0; 0; 1] [0; 0; 0; 0; 0; 0; 0; 0; 0])
    as (_ & _ & (h1 & Hrun1 & Hout1) & (h2 & Hrun2 & Hout2) & Hid);
    try reflexivity.
  exists h1, h2. split; [ exact Hrun1 | split; [ exact Hrun2 | ] ].
  rewrite Hout1, Hout2, Hid; reflexivity.
Defined.

(** ** The order of [mat4Mul] *)

(** [mat4TransformVec3] applies the matrix to the column vector [(x, y, z, 1)]
    and divides by the last coordinate unless it is zero *)
Lemma mat4TransformVec3_val_apply (m : list R) x y z :
  length m = 16%nat ->
  let p := mat4_apply m [x; y; z; 1] in
  mat4TransformVec3_val m [x; y; z] =
    if Reqb (nth 3 p 0) 0 then [nth 0 p 0; nth 1 p 0; nth 2 p 0]
    else [nth 0 p 0 / nth 3 p 0; nth 1 p 0 / nth 3 p 0; nth 2 p 0 / nth 3 p 0].
Proof.
  intros Hm. explode.
  unfold mat4TransformVec3_val, mat4_apply, mat4_entry.
  cbn [nth Nat.mul Nat.add map]. to_R.
  repeat match goal with |- context [?x * 1] => replace (x * 1) with x by ring end.
  reflexivity.
Qed.

(** C4, as stated, fails on the matrices of the repository's own test: the
    product [mat4Mul(m, a, b)] sends [(1, 1, 1)] to [(3, 4, 5)], which is [b]
    (scale) first and [a] (translate) second, whereas [a] first and [b] second
    gives [(4, 6, 8)]. *)
Lemma mat4Mul_not_a_then_b :
  result_at (mat4Mul 4 1 2 ;; mat4TransformVec3 5 4 3) mul_store 5%positive
    = Some [3; 4; 5]%float /\
  result_at (mat4TransformVec3 6 1 3 ;; mat4TransformVec3 5 2 6) mul_store 5%positive
    = Some [4; 6; 8]%float /\
  result_at (mat4Mul 4 1 2 ;; mat4TransformVec3 5 4 3) mul_store 5%positive
    <> result_at (mat4TransformVec3 6 1 3 ;; mat4TransformVec3 5 2 6) mul_store 5%positive.
Proof.
  split; [ vm_compute; reflexivity | split; [ vm_compute; reflexivity | ] ].
  intros Heq.
  apply (f_equal (fun r => match r with
                           | Some (x :: _) => PrimFloat.eqb x 3
                           | _ => false
                           end)) in Heq.
  vm_compute in Heq. discriminate Heq.
Qed.

(** C4, amended.  [mat4Mul(out, a, b)] leaves in [out] (which may be [a] or
    [b]) the product [a × b] of the two column-major matrices: applied to a
    column vector it applies [b] first and [a] second. *)
Theorem mat4Mul_applies_b_then_a :
  forall (h : heap R) out a b va vb o,
    h !! a = Some va -> length va = 16%nat ->
    h !! b = Some vb -> length vb = 16%nat ->
    h !! out = Some o -> length o = 16%nat ->
    mat4Mul out a b h = Some (out, <[out := mat4_prod va vb]> h) /\
    forall v, length v = 4%nat ->
      mat4_apply (mat4_prod va vb) v = mat4_apply va (mat4_apply vb v).
Proof.
  intros h out a b va vb o Ha Hva Hb Hvb Ho Hlen. split.
  - rewrite <- (mat4Mul_val_prod va vb) by assumption.
    exact (mat4Mul_run h out a b va vb o Ha Hva Hb Hvb Ho Hlen).
  - intros v Hv. apply mat4_apply_prod; assumption.
Qed.

Lemma mat4Mul_applies_b_then_a_witness :
  mat4Mul 3 1 2 mul_store_R
    = Some (3%positive,
            <[3%positive := mat4_prod [1; 0; 0; 0; 0; 1; 0; 0; 0; 0; 1; 0; 1; 2; 3; 1]
                                      [2; 0; 0; 0; 0; 2; 0; 0; 0; 0; 2; 0; 0; 0; 0; 1]]>
              mul_store_R).
Proof.
  apply (mat4Mul_applies_b_then_a mul_store_R 3%positive 1%positive 2%positive
           [1; 0; 0; 0; 0; 1; 0; 0; 0; 0; 1; 0; 1; 2; 3; 1]
           [2; 0; 0; 0; 0; 2; 0; 0; 0; 0; 2; 0; 0; 0; 0; 1]
           [0; 0; 0; 0; 0; 0; 0; 0; 0; 0; 0; 0; 0; 0; 0; 0]); reflexivity.
Defined.

(** ** Boundary laws of the interpolations *)

Lemma vec3Lerp_val_0 (a b : list R) : length a = 3%nat -> vec3Lerp_val a b 0 = a.
Proof. intros Ha. explode. unfold vec3Lerp_val. cbn [nth]. to_R. each ltac:(ring). Qed.

Lemma vec3Lerp_val_1 (a b : list R) : length b = 3%nat -> vec3Lerp_val a b 1 = b.
Proof. intros Hb. explode. unfold vec3Lerp_val. cbn [nth]. to_R. each ltac:(ring). Qed.

Lemma renormalize_val_unit (q : list R) : quat_unit q -> renormalize_val q = q.
Proof.
  intros [Hl Hq]. explode. unfold quat_dot in Hq. cbn [nth] in Hq.
  unfold renormalize_val, quatLength_val, EPSILON. cbn [nth]. to_R.
  rewrite Hq, sqrt_1.
  assert (Hlt : Rltb (1 / 1000000) 1 = true) by (apply Rltb_true; lra).
  rewrite Hlt. each ltac:(field).
Qed.

Lemma mix_val_0 (a b : list R) : length a = 4%nat -> mix_val a b 0 = a.
Proof. intros Ha. explode. unfold mix_val. cbn [nth]. to_R. each ltac:(ring). Qed.

Lemma mix_val_1 (a b : list R) : length b = 4%nat -> mix_val a b 1 = b.
Proof. intros Hb. explode. unfold mix_val. cbn [nth]. to_R. each ltac:(ring). Qed.

Lemma quatLerp_val_0 (a b : list R) : quat_unit a -> quatLerp_val a b 0 = a.
Proof.
  intros Ha. unfold quatLerp_val. rewrite mix_val_0 by apply Ha.
  apply renormalize_val_unit, Ha.
Qed.

Lemma quatLerp_val_1 (a b : list R) : quat_unit b -> quatLerp_val a b 1 = b.
Proof.
  intros Hb. unfold quatLerp_val. rewrite mix_val_1 by apply Hb.
  apply renormalize_val_unit, Hb.
Qed.

Lemma nlerp_mix (a b : list R) t :
  quat_unit (mix_val a b t) -> nlerp a b t = mix_val a b t.
Proof.
  intros [_ Hq]. unfold nlerp, quat_norm. unfold mix_val in *. to_R.
  rewrite Hq, sqrt_1. cbn [map]. each ltac:(field).
Qed.

Lemma sin_acos_pos (d : R) : 0 <= d <= 9995 / 10000 -> 0 < sin (acos d).
Proof. intros Hd. rewrite sin_acos by lra. apply sqrt_lt_R0. unfold Rsqr. nra. Qed.

Lemma spherical_0 (a b : list R) d :
  length a = 4%nat -> 0 <= d <= 9995 / 10000 -> spherical a b (acos d) 0 = a.
Proof.
  intros Ha Hd. pose proof (sin_acos_pos d Hd) as Hs. explode.
  unfold spherical. cbn [nth].
  replace ((1 - 0) * acos d) with (acos d) by ring.
  replace (0 * acos d) with 0 by ring. rewrite sin_0.
  each ltac:(field; lra).
Qed.

Lemma spherical_1 (a b : list R) d :
  length b = 4%nat -> 0 <= d <= 9995 / 10000 -> spherical a b (acos d) 1 = b.
Proof.
  intros Hb Hd. pose proof (sin_acos_pos d Hd) as Hs. explode.
  unfold spherical. cbn [nth].
  replace ((1 - 1) * acos d) with 0 by ring.
  replace (1 * acos d) with (acos d) by ring. rewrite sin_0.
  each ltac:(field; lra).
Qed.

Lemma shorter_arc_slerp_0 (a b : list R) :
  quat_unit a -> quat_unit b -> shorter_arc_slerp a b 0 = a.
Proof.
  intros Ha Hb. unfold shorter_arc_slerp.
  destruct (Rlt_dec (9995 / 10000) (Rabs (quat_dot a b))) as [Hnear|Hfar].
  - rewrite nlerp_mix; rewrite mix_val_0 by apply Ha; [ reflexivity | exact Ha ].
  - apply spherical_0; [ apply Ha | ].
    split; [ apply Rabs_pos | lra ].
Qed.

Lemma shorter_arc_slerp_1 (a b : list R) :
  quat_unit a -> quat_unit b ->
  shorter_arc_slerp a b 1 = if Rlt_dec (quat_dot a b) 0 then quat_neg b else b.
Proof.
  intros Ha Hb. unfold shorter_arc_slerp.
  set (target := if Rlt_dec (quat_dot a b) 0 then quat_neg b else b).
  assert (Ht : quat_unit target).
  { subst target. destruct (Rlt_dec (quat_dot a b) 0);
      [ apply quat_unit_neg | ]; exact Hb. }
  destruct (Rlt_dec (9995 / 10000) (Rabs (quat_dot a b))) as [Hnear|Hfar].
  - rewrite nlerp_mix; rewrite mix_val_1 by apply Ht; [ reflexivity | exact Ht ].
  - apply spherical_1; [ apply Ht | ].
    split; [ apply Rabs_pos | lra ].
Qed.

(** C5, as stated, fails for [quatSlerp] at [t = 1] when the dot product is
    negative: from [a = (0, 0, 0, 1)] to [b = (0, 0, 0, -1)] it returns
    [(0, 0, 0, 1)], which is [-b]. *)
Lemma quatSlerp_at_1_not_b :
  result_at (quatSlerp 3 1 2 1) boundary_store 3%positive = Some [0; 0; 0; 1] /\
  boundary_store !! 2%positive = Some [0; 0; 0; -1] /\
  [0; 0; 0; 1] <> [0; 0; 0; -1].
Proof.
  split; [ | split; [ reflexivity | intros Heq; injection Heq as Heq; lra ] ].
  unfold result_at.
  rewrite (quatSlerp_run boundary_store 3%positive 1%positive 2%positive 1
             [0; 0; 0; 1] [0; 0; 0; -1] [0; 0; 0; 0]) by (reflexivity || discriminate).
  rewrite lookup_insert_eq. f_equal.
  assert (Ha : quat_unit [0; 0; 0; 1])
    by (split; [ reflexivity | unfold quat_dot; cbn [nth]; lra ]).
  assert (Hb : quat_unit [0; 0; 0; -1])
    by (split; [ reflexivity | unfold quat_dot; cbn [nth]; lra ]).
  rewrite quatSlerp_val_shorter_arc, shorter_arc_slerp_1 by assumption.
  destruct (Rlt_dec (quat_dot [0; 0; 0; 1] [0; 0; 0; -1]) 0) as [_|Hn].
  - unfold quat_neg. cbn [nth]. each ltac:(lra).
  - exfalso. apply Hn. unfold quat_dot. cbn [nth]. lra.
Qed.

(** Bases: on binary64 [basisLerp(out, p, p, 0)] for the axis permutation [p]
    returns the transpose of [p], not [p]; [basis_interpolation_boundaries]
    below is the general fact. *)
Lemma basisLerp_at_0_transposes :
  returned (basisLerp 2 1 1 (ofZ 0)) permutation_store
    = Some [0; 0; 1; 1; 0; 0; 0; 1; 0]%float.
Proof. vm_compute. reflexivity. Qed.

(** C5, amended.  In exact arithmetic: [vec3Lerp] leaves [a] in [out] at
    [t = 0] and [b] at [t = 1]; for unit quaternions [quatLerp] does the
    same, and [quatSlerp], called with an [out] that is not the array [a],
    leaves [a] at [t = 0] and, at [t = 1], [b] when [a.b >= 0] and [-b], the
    same rotation, when [a.b < 0]. *)
Theorem interpolation_boundary_laws :
  (forall (h : heap R) out a b va vb o,
      h !! a = Some va -> length va = 3%nat ->
      h !! b = Some vb -> length vb = 3%nat ->
      h !! out = Some o -> length o = 3%nat ->
      (exists h', vec3Lerp out a b 0 h = Some (out, h') /\ h' !! out = Some va) /\
      (exists h', vec3Lerp out a b 1 h = Some (out, h') /\ h' !! out = Some vb)) /\
  (forall (h : heap R) out a b qa qb o,
      h !! a = Some qa -> h !! b = Some qb ->
      h !! out = Some o -> length o = 4%nat ->
      quat_unit qa -> quat_unit qb ->
      quatLerp out a b 0 h = Some (out, <[out := qa]> h) /\
      quatLerp out a b 1 h = Some (out, <[out := qb]> h)) /\
  (forall (h : heap R) out a b qa qb o,
      h !! a = Some qa -> h !! b = Some qb ->
      h !! out = Some o -> length o = 4%nat ->
      out <> a -> quat_unit qa -> quat_unit qb ->
      quatSlerp out a b 0 h = Some (out, <[out := qa]> h) /\
      quatSlerp out a b 1 h
        = Some (out, <[out := if Rlt_dec (quat_dot qa qb) 0 then quat_neg qb else qb]> h)).
Proof.
  split; [ | split ].
  - intros h out a b va vb o Ha Hva Hb Hvb Ho Hlen. split.
    + destruct (vec3Lerp_run h out a b 0 va vb o Ha Hva Hb Hvb Ho Hlen)
        as (h' & Hrun & Hout).
      exists h'. split; [ exact Hrun | ].
      rewrite <- (vec3Lerp_val_0 va vb) by assumption. exact Hout.
    + destruct (vec3Lerp_run h out a b 1 va vb o Ha Hva Hb Hvb Ho Hlen)
        as (h' & Hrun & Hout).
      exists h'. split; [ exact Hrun | ].
      rewrite <- (vec3Lerp_val_1 va vb) by assumption. exact Hout.
  - intros h out a b qa qb o Ha Hb Ho Hlen Hqa Hqb. split.
    + rewrite <- (quatLerp_val_0 qa qb) by assumption.
      exact (quatLerp_run h out a b 0 qa qb o Ha (proj1 Hqa) Hb (proj1 Hqb) Ho Hlen).
    + rewrite <- (quatLerp_val_1 qa qb) by assumption.
      exact (quatLerp_run h out a b 1 qa qb o Ha (proj1 Hqa) Hb (proj1 Hqb) Ho Hlen).
  - intros h out a b qa qb o Ha Hb Ho Hlen Hne Hqa Hqb. split.
    + rewrite <- (shorter_arc_slerp_0 qa qb) by assumption.
      rewrite <- quatSlerp_val_shorter_arc by assumption.
      exact (quatSlerp_run h out a b 0 qa qb o Ha (proj1 Hqa) Hb (proj1 Hqb) Ho Hlen Hne).
    + rewrite <- (shorter_arc_slerp_1 qa qb) by assumption.
      rewrite <- quatSlerp_val_shorter_arc by assumption.
      exact (quatSlerp_run h out a b 1 qa qb o Ha (proj1 Hqa) Hb (proj1 Hqb) Ho Hlen Hne).
Qed.

Lemma interpolation_boundary_laws_witness :
  ((exists h', vec3Lerp 6 4 5 0 boundary_store = Some (6%positive, h') /\
               h' !! 6%positive = Some [1; 2; 3]) /\
   (exists h', vec3Lerp 6 4 5 1 boundary_store = Some (6%positive, h') /\
               h' !! 6%positive = Some [4; 5; 6])) /\
  (quatLerp 3 1 2 0 boundary_store
     = Some (3%positive, <[3%positive := [0; 0; 0; 1]]> boundary_store) /\
   quatLerp 3 1 2 1 boundary_store
     = Some (3%positive, <[3%positive := [0; 0; 0; -1]]> boundary_store)) /\
  (quatSlerp 3 1 2 0 boundary_store
     = Some (3%positive, <[3%positive := [0; 0; 0; 1]]> boundary_store) /\
   quatSlerp 3 1 2 1 boundary_store
     = Some (3%positive,
             <[3%positive := if Rlt_dec (quat_dot [0; 0; 0; 1] [0; 0; 0; -1]) 0
                             then quat_neg [0; 0; 0; -1] else [0; 0; 0; -1]]>
               boundary_store)).
Proof.
  destruct interpolation_boundary_laws as (Hvec & Hlerp & Hslerp).
  assert (Ha : quat_unit [0; 0; 0; 1])
    by (split; [ reflexivity | unfold quat_dot; cbn [nth]; lra ]).
  assert (Hb : quat_unit [0; 0; 0; -1])
    by (split; [ reflexivity | unfold quat_dot; cbn [nth]; lra ]).
  split; [ | split ].
  - apply (Hvec boundary_store 6%positive 4%positive 5%positive
             [1; 2; 3] [4; 5; 6] [0; 0; 0]); reflexivity.
  - apply (Hlerp boundary_store 3%positive 1%positive 2%positive
             [0; 0; 0; 1] [0; 0; 0; -1] [0; 0; 0; 0]); first [ reflexivity | assumption ].
  - apply (Hslerp boundary_store 3%positive 1%positive 2%positive
             [0; 0; 0; 1] [0; 0; 0; -1] [0; 0; 0; 0]);
      first [ reflexivity | assumption | discriminate ].
Defined.

(** ** Basis to quaternion and back *)

Section Rotation.
Variables b0 b1 b2 b3 b4 b5 b6 b7 b8 : R.
Hypothesis H00 : b0 * b0 + b1 * b1 + b2 * b2 = 1.
Hypothesis H11 : b3 * b3 + b4 * b4 + b5 * b5 = 1.
Hypothesis H22 : b6 * b6 + b7 * b7 + b8 * b8 = 1.
Hypothesis H01 : b0 * b3 + b1 * b4 + b2 * b5 = 0.
Hypothesis H02 : b0 * b6 + b1 * b7 + b2 * b8 = 0.
Hypothesis H12 : b3 * b6 + b4 * b7 + b5 * b8 = 0.
Hypothesis Hdet :
  b0 * b4 * b8 + b1 * b5 * b6 + b2 * b3 * b7
  - b2 * b4 * b6 - b1 * b3 * b8 - b0 * b5 * b7 = 1.

(** division by [s = u * 2] is multiplication by an inverse [i] of [s] *)
Ltac with_inverse u Hpos :=
  assert (Hw : 2 * (1 / 4 * (u * 2)) = u) by lra;
  generalize dependent (1 / 4 * (u * 2)); intros w Hw;
  unfold Rdiv;
  assert (Hi : u * 2 * / (u * 2) = 1) by (apply Rinv_r; lra);
  generalize dependent (/ (u * 2)); intros i Hi.

(** the four branches of Shepperd's method *)
Lemma shepperd_w (u : R) :
  0 < u -> u * u = b0 + b4 + b8 + 1 ->
  let q := [(b7 - b5) / (u * 2); (b2 - b6) / (u * 2); (b3 - b1) / (u * 2); 1 / 4 * (u * 2)] in
  basisFromQuat_val q = [b0; b3; b6; b1; b4; b7; b2; b5; b8] /\ quat_dot q q = 1.
Proof.
  intros Hpos Hu q. subst q. unfold basisFromQuat_val, quat_dot. cbn [nth]. to_R.
  with_inverse u Hpos.
  split; [ each ltac:(nsatz) | nsatz ].
Qed.

Lemma shepperd_x (u : R) :
  0 < u -> u * u = 1 + b0 - b4 - b8 ->
  let q := [1 / 4 * (u * 2); (b1 + b3) / (u * 2); (b2 + b6) / (u * 2); (b7 - b5) / (u * 2)] in
  basisFromQuat_val q = [b0; b3; b6; b1; b4; b7; b2; b5; b8] /\ quat_dot q q = 1.
Proof.
  intros Hpos Hu q. subst q. unfold basisFromQuat_val, quat_dot. cbn [nth]. to_R.
  with_inverse u Hpos.
  split; [ each ltac:(nsatz) | nsatz ].
Qed.

Lemma shepperd_y (u : R) :
  0 < u -> u * u = 1 + b4 - b0 - b8 ->
  let q := [(b1 + b3) / (u * 2); 1 / 4 * (u * 2); (b5 + b7) / (u * 2); (b2 - b6) / (u * 2)] in
  basisFromQuat_val q = [b0; b3; b6; b1; b4; b7; b2; b5; b8] /\ quat_dot q q = 1.
Proof.
  intros Hpos Hu q. subst q. unfold basisFromQuat_val, quat_dot. cbn [nth]. to_R.
  with_inverse u Hpos.
  split; [ each ltac:(nsatz) | nsatz ].
Qed.

Lemma shepperd_z (u : R) :
  0 < u -> u * u = 1 + b8 - b0 - b4 ->
  let q := [(b2 + b6) / (u * 2); (b5 + b7) / (u * 2); 1 / 4 * (u * 2); (b3 - b1) / (u * 2)] in
  basisFromQuat_val q = [b0; b3; b6; b1; b4; b7; b2; b5; b8] /\ quat_dot q q = 1.
Proof.
  intros Hpos Hu q. subst q. unfold basisFromQuat_val, quat_dot. cbn [nth]. to_R.
  with_inverse u Hpos.
  split; [ each ltac:(nsatz) | nsatz ].
Qed.
End Rotation.

(** on a rotation, [basisFromQuat] after [basisToQuat] is the transposition:
    [basisToQuat] reads the array by rows, [basisFromQuat] writes it by
    columns *)
Lemma basis_quat_roundtrip (b : list R) :
  is_rotation b ->
  basisFromQuat_val (basisToQuat_val b) = basisTranspose_val b /\
  quat_unit (basisToQuat_val b).
Proof.
  intros (Hl & H00 & H11 & H22 & H01 & H02 & H12 & Hdet).
  cut (basisFromQuat_val (basisToQuat_val b) = basisTranspose_val b /\
       quat_dot (basisToQuat_val b) (basisToQuat_val b) = 1).
  { intros [Ht Hu]. split; [ exact Ht | split; [ apply basisToQuat_val_length | exact Hu ] ]. }
  explode. unfold mat3_det, mat3_entry in *. cbn [nth Nat.mul Nat.add] in *.
  unfold basisToQuat_val, basisTranspose_val. cbn [nth]. to_R.
  repeat match goal with
         | |- context [Rltb ?x ?y] =>
             let H := fresh "Hc" in
             destruct (Rltb x y) eqn:H;
             [ apply Rltb_true in H | apply Rltb_false in H ]
         end; cbn [andb].
  all: match goal with
       | |- context [sqrt ?arg] =>
           assert (Hpos : 0 < sqrt arg) by (apply sqrt_lt_R0; lra);
           assert (Hu : sqrt arg * sqrt arg = arg) by (apply sqrt_sqrt; lra);
           generalize dependent (sqrt arg); intros u Hpos Hu
       end.
  all: first [ apply shepperd_w | apply shepperd_x | apply shepperd_y | apply shepperd_z ];
    first [ assumption | lra ].
Qed.

Lemma basisFromQuat_val_neg (q : list R) :
  length q = 4%nat -> basisFromQuat_val (quat_neg q) = basisFromQuat_val q.
Proof.
  intros Hq. explode. unfold basisFromQuat_val, quat_neg. cbn [nth]. to_R.
  each ltac:(ring).
Qed.

(** hence at [t = 0] the basis interpolations return the transpose of the
    rotation [a], and at [t = 1] the transpose of [b] *)
Lemma basis_interpolation_boundaries (a b : list R) :
  is_rotation a -> is_rotation b ->
  basisLerp_val a b 0 = basisTranspose_val a /\
  basisLerp_val a b 1 = basisTranspose_val b /\
  basisSlerp_val a b 0 = basisTranspose_val a /\
  basisSlerp_val a b 1 = basisTranspose_val b.
Proof.
  intros Ha Hb.
  destruct (basis_quat_roundtrip a Ha) as [Hta Hqa].
  destruct (basis_quat_roundtrip b Hb) as [Htb Hqb].
  unfold basisLerp_val, basisSlerp_val.
  rewrite quatLerp_val_0, quatLerp_val_1 by assumption.
  rewrite !quatSlerp_val_shorter_arc by assumption.
  rewrite shorter_arc_slerp_0, shorter_arc_slerp_1 by assumption.
  repeat split; try assumption.
  destruct (Rlt_dec _ 0); [ rewrite basisFromQuat_val_neg by apply Hqb | ]; exact Htb.
Qed.

(** a rotation that is not symmetric: the permutation of the axes *)
Lemma permutation_is_rotation :
  is_rotation [0; 1; 0; 0; 0; 1; 1; 0; 0] /\
  basisTranspose_val [0; 1; 0; 0; 0; 1; 1; 0; 0] <> [0; 1; 0; 0; 0; 1; 1; 0; 0].
Proof.
  split.
  - unfold is_rotation, mat3_det, mat3_entry. cbn [nth Nat.mul Nat.add length].
    repeat split; lra.
  - unfold basisTranspose_val. cbn [nth]. intros Heq. injection Heq as _ Heq _. lra.
Qed.

(** ** Degenerate inputs of the normalisations (binary64) *)

Section NormalizeZero.
Local Open Scope float_scope.

(** C6.  On the numbers the program runs on: when the computed length of the
    input is exactly zero ([len === 0]), [vec2Normalize] and [vec3Normalize]
    store the zero vector and [quatNormalize] stores the identity quaternion
    [(0,0,0,1)] in [out] (which may be the input itself); no component of the
    result is NaN. *)
Theorem normalize_zero_length_no_NaN :
  (forall (h : heap float) out v vs o,
      h !! v = Some vs -> length vs = 2%nat ->
      h !! out = Some o -> length o = 2%nat ->
      PrimFloat.eqb
        (PrimFloat.sqrt (nth 0 vs 0 * nth 0 vs 0 + nth 1 vs 0 * nth 1 vs 0)) 0 = true ->
      vec2Normalize out v h = Some (out, <[out := [0; 0]]> h) /\ no_NaN [0; 0]) /\
  (forall (h : heap float) out v vs o,
      h !! v = Some vs -> length vs = 3%nat ->
      h !! out = Some o -> length o = 3%nat ->
      PrimFloat.eqb
        (PrimFloat.sqrt (nth 0 vs 0 * nth 0 vs 0 + nth 1 vs 0 * nth 1 vs 0
                         + nth 2 vs 0 * nth 2 vs 0)) 0 = true ->
      vec3Normalize out v h = Some (out, <[out := [0; 0; 0]]> h) /\ no_NaN [0; 0; 0]) /\
  (forall (h : heap float) out q vs o,
      h !! q = Some vs -> length vs = 4%nat ->
      h !! out = Some o -> length o = 4%nat ->
      PrimFloat.eqb
        (PrimFloat.sqrt (nth 0 vs 0 * nth 0 vs 0 + nth 1 vs 0 * nth 1 vs 0
                         + nth 2 vs 0 * nth 2 vs 0 + nth 3 vs 0 * nth 3 vs 0)) 0 = true ->
      quatNormalize out q h = Some (out, <[out := [0; 0; 0; 1]]> h) /\
      no_NaN [0; 0; 0; 1]).
Proof.
  split; [ | split ].
  - intros h out v vs o Hv Hvs Ho Hlen Hz. split.
    + exact (vec2Normalize_zero h out v vs o Hv Hvs Ho Hlen Hz).
    + repeat constructor.
  - intros h out v vs o Hv Hvs Ho Hlen Hz. split.
    + exact (vec3Normalize_zero h out v vs o Hv Hvs Ho Hlen Hz).
    + repeat constructor.
  - intros h out q vs o Hq Hvs Ho Hlen Hz. split.
    + exact (quatNormalize_zero h out q vs o Hq Hvs Ho Hlen Hz).
    + repeat constructor.
Qed.

Lemma normalize_zero_length_no_NaN_witness :
  (vec2Normalize 1 1 zero_store = Some (1%positive, <[1%positive := [0; 0]]> zero_store)
   /\ no_NaN [0; 0]) /\
  (vec3Normalize 2 2 zero_store = Some (2%positive, <[2%positive := [0; 0; 0]]> zero_store)
   /\ no_NaN [0; 0; 0]) /\
  (quatNormalize 3 3 zero_store
     = Some (3%positive, <[3%positive := [0; 0; 0; 1]]> zero_store)
   /\ no_NaN [0; 0; 0; 1]).
Proof.
  destruct normalize_zero_length_no_NaN as (H2 & H3 & H4).
  split; [ | split ].
  - apply (H2 zero_store 1%positive 1%positive [0; 0] [0; 0]); reflexivity.
  - apply (H3 zero_store 2%positive 2%positive [0; 0; 0] [0; 0; 0]); reflexivity.
  - apply (H4 zero_store 3%positive 3%positive [0; 0; 0; 0] [0; 0; 0; 0]); reflexivity.
Defined.
End NormalizeZero.

(** ** Inverses and the degenerate determinant *)

Lemma basisInverse_val_inverse (b : list R) :
  length b = 9%nat -> 1 / 1000000 <= Rabs (mat3_det b) ->
  mat3_inverse_of b (basisInverse_val b).
Proof.
  intros Hb Hdet. rewrite <- basisDeterminant_val_det in Hdet by assumption.
  unfold basisInverse_val.
  assert (Hlt : (fabs (basisDeterminant_val b) <? EPSILON)%num = false).
  { to_R. apply Rltb_false. exact Hdet. }
  rewrite Hlt.
  assert (Hne : basisDeterminant_val b <> 0).
  { intros Hz. rewrite Hz, Rabs_R0 in Hdet. lra. }
  explode. unfold basisDeterminant_val in *. cbn [nth] in *. to_R.
  match type of Hne with ?d <> 0 => set (D := d) in * end.
  assert (Hinv : D * (1 / D) = 1) by (field; exact Hne).
  generalize dependent (1 / D). intros i Hinv.
  unfold mat3_inverse_of, mat3_prod, mat3_identity, mat3_entry.
  cbn [nth Nat.mul Nat.add flat_map map app].
  split; each ltac:(first [ ring | (rewrite <- Hinv; unfold D; ring) ]).
Qed.

Lemma mat3Invert_val_inverse (a : list R) :
  length a = 9%nat -> 1 / 1000000 <= Rabs (mat3_det a) ->
  mat3_inverse_of a (mat3Invert_val a).
Proof.
  intros Ha Hdet. rewrite <- mat3Invert_det_det in Hdet by assumption.
  assert (Hne : mat3Invert_det a <> 0).
  { intros Hz. rewrite Hz, Rabs_R0 in Hdet. lra. }
  unfold mat3Invert_val.
  explode. unfold mat3Invert_det in *. cbn [nth] in *. to_R.
  match type of Hne with ?d <> 0 => set (D := d) in * end.
  assert (Hinv : D * (1 / D) = 1) by (field; exact Hne).
  generalize dependent (1 / D). intros i Hinv.
  unfold mat3_inverse_of, mat3_prod, mat3_identity, mat3_entry.
  cbn [nth Nat.mul Nat.add flat_map map app].
  split; each ltac:(first [ ring | (rewrite <- Hinv; unfold D; ring) ]).
Qed.

(** When the determinant of the input is below [EPSILON = 1e-6] in absolute
    value, [basisInverse] writes the identity to [out] and returns it, while
    [mat3Invert] returns [null] and leaves every array as it was.  From the
    threshold on, both leave the inverse of the input in [out] and return it
    ([basisInverse] for an [out] that is not the input itself). *)
Lemma degenerate_determinant_policies :
  forall (h : heap R) out m vm o,
    h !! m = Some vm -> length vm = 9%nat ->
    h !! out = Some o -> length o = 9%nat ->
    (Rabs (mat3_det vm) < 1 / 1000000 ->
     basisInverse out m h = Some (out, <[out := mat3_identity]> h) /\
     mat3Invert out m h = Some (None, h)) /\
    (1 / 1000000 <= Rabs (mat3_det vm) ->
     (out <> m ->
      exists inv, basisInverse out m h = Some (out, <[out := inv]> h) /\
                  mat3_inverse_of vm inv) /\
     (exists inv, mat3Invert out m h = Some (Some out, <[out := inv]> h) /\
                  mat3_inverse_of vm inv)).
Proof.
  intros h out m vm o Hm Hvm Ho Hlen. split.
  - intros Hdet. split.
    + change mat3_identity with (basisIdentity_val (F := R)).
      apply (basisInverse_degenerate_run h out m vm o Hm Hvm Ho Hlen).
      rewrite basisDeterminant_val_det by assumption.
      to_R. apply Rltb_true. exact Hdet.
    + rewrite (mat3Invert_run h out m vm o Hm Hvm Ho Hlen).
      rewrite mat3Invert_det_det by assumption.
      assert (Hlt : (fabs (mat3_det vm) <? EPSILON)%num = true)
        by (to_R; apply Rltb_true; exact Hdet).
      rewrite Hlt. reflexivity.
  - intros Hdet. split.
    + intros Hne. exists (basisInverse_val vm). split.
      * exact (basisInverse_run h out m vm o Hm Hvm Ho Hlen Hne).
      * apply basisInverse_val_inverse; assumption.
    + exists (mat3Invert_val vm). split.
      * rewrite (mat3Invert_run h out m vm o Hm Hvm Ho Hlen).
        rewrite mat3Invert_det_det by assumption.
        assert (Hlt : (fabs (mat3_det vm) <? EPSILON)%num = false)
          by (to_R; apply Rltb_false; exact Hdet).
        rewrite Hlt. reflexivity.
      * apply mat3Invert_val_inverse; assumption.
Qed.

Lemma singular_det : Rabs (mat3_det [1; 0; 0; 0; 0; 0; 0; 0; 1]) < 1 / 1000000.
Proof.
  unfold mat3_det, mat3_entry. cbn [nth Nat.mul Nat.add].
  replace (1 * 0 * 1 + 0 * 0 * 0 + 0 * 0 * 0 - 0 * 0 * 0 - 0 * 0 * 1 - 1 * 0 * 0)
    with 0 by ring.
  rewrite Rabs_R0. lra.
Qed.

Lemma regular_det : 1 / 1000000 <= Rabs (mat3_det [2; 0; 0; 0; 1; 0; 0; 0; 1]).
Proof.
  unfold mat3_det, mat3_entry. cbn [nth Nat.mul Nat.add].
  replace (2 * 1 * 1 + 0 * 0 * 0 + 0 * 0 * 0 - 0 * 1 * 0 - 0 * 0 * 1 - 2 * 0 * 0)
    with 2 by ring.
  rewrite Rabs_pos_eq; lra.
Qed.

Lemma skew_det : 1 / 1000000 <= Rabs (mat3_det [2; 1; 0; 0; 1; 0; 0; 0; 1]).
Proof.
  unfold mat3_det, mat3_entry. cbn [nth Nat.mul Nat.add].
  replace (2 * 1 * 1 + 1 * 0 * 0 + 0 * 0 * 0 - 0 * 1 * 0 - 1 * 0 * 1 - 2 * 0 * 0)
    with 2 by ring.
  rewrite Rabs_pos_eq; lra.
Qed.

(** in exact arithmetic the in-place inverse of [[2, 1, 0; 0, 1, 0; 0, 0, 1]]
    has [1/4] and [1/16] on its diagonal, and is no inverse *)
Lemma basisInverse_inplace_val_skew :
  basisInverse_inplace_val [2; 1; 0; 0; 1; 0; 0; 0; 1]
    = [1 / 2; - (1 / 2); 0; 0; 1 / 4; 0; 0; 0; 1 / 16] /\
  ~ mat3_inverse_of [2; 1; 0; 0; 1; 0; 0; 0; 1]
                    [1 / 2; - (1 / 2); 0; 0; 1 / 4; 0; 0; 0; 1 / 16].
Proof.
  split.
  - unfold basisInverse_inplace_val, basisDeterminant_val, EPSILON. cbn [nth]. to_R.
    rewrite (proj2 (Rltb_false _ _)).
    + each ltac:(field).
    + rewrite Rabs_pos_eq; lra.
  - intros [Hl _]. unfold mat3_prod, mat3_identity, mat3_entry in Hl.
    cbn [nth Nat.mul Nat.add flat_map map app] in Hl.
    apply (f_equal (fun l => nth 4 l 0)) in Hl. cbn [nth] in Hl. lra.
Qed.

(** C7, what the code does.  When the determinant of the input is below
    [EPSILON = 1e-6] in absolute value, [basisInverse] writes the identity to
    [out] and returns it, while [mat3Invert] returns [null] and leaves every
    array as it was.  From the threshold on, [mat3Invert] leaves the inverse
    of the input in [out], whatever [out] is; [basisInverse] does so when
    [out] is not the input itself, but called in place it reads entries it
    has already overwritten: for [[2, 1, 0; 0, 1, 0; 0, 0, 1]], of determinant
    [2], it leaves [[1/2, -1/2, 0; 0, 1/4, 0; 0, 0, 1/16]], which is not the
    inverse. *)
Theorem basisInverse_inverts_unless_in_place :
  (forall (h : heap R) out m vm o,
      h !! m = Some vm -> length vm = 9%nat ->
      h !! out = Some o -> length o = 9%nat ->
      (Rabs (mat3_det vm) < 1 / 1000000 ->
       basisInverse out m h = Some (out, <[out := mat3_identity]> h) /\
       mat3Invert out m h = Some (None, h)) /\
      (1 / 1000000 <= Rabs (mat3_det vm) ->
       (out <> m ->
        exists inv, basisInverse out m h = Some (out, <[out := inv]> h) /\
                    mat3_inverse_of vm inv) /\
       (exists inv, mat3Invert out m h = Some (Some out, <[out := inv]> h) /\
                    mat3_inverse_of vm inv) /\
       basisInverse m m h = Some (m, <[m := basisInverse_inplace_val vm]> h))) /\
  1 / 1000000 <= Rabs (mat3_det [2; 1; 0; 0; 1; 0; 0; 0; 1]) /\
  basisInverse_inplace_val [2; 1; 0; 0; 1; 0; 0; 0; 1]
    = [1 / 2; - (1 / 2); 0; 0; 1 / 4; 0; 0; 0; 1 / 16] /\
  ~ mat3_inverse_of [2; 1; 0; 0; 1; 0; 0; 0; 1]
                    [1 / 2; - (1 / 2); 0; 0; 1 / 4; 0; 0; 0; 1 / 16].
Proof.
  split; [ | split; [ exact skew_det | exact basisInverse_inplace_val_skew ] ].
  intros h out m vm o Hm Hvm Ho Hlen.
  destruct (degenerate_determinant_policies h out m vm o Hm Hvm Ho Hlen) as [Hdeg Hreg].
  split; [ exact Hdeg | ].
  intros Hdet. destruct (Hreg Hdet) as [Hb Hm3].
  split; [ exact Hb | ]. split; [ exact Hm3 | ].
  exact (basisInverse_inplace_run h m vm Hm Hvm).
Qed.

Lemma basisInverse_inverts_unless_in_place_witness :
  (basisInverse 2 1 singular_store
     = Some (2%positive, <[2%positive := mat3_identity]> singular_store) /\
   mat3Invert 2 1 singular_store = Some (None, singular_store)) /\
  (exists inv, basisInverse 2 1 regular_store
                 = Some (2%positive, <[2%positive := inv]> regular_store) /\
               mat3_inverse_of [2; 0; 0; 0; 1; 0; 0; 0; 1] inv) /\
  (exists inv, mat3Invert 2 1 regular_store
                 = Some (Some 2%positive, <[2%positive := inv]> regular_store) /\
               mat3_inverse_of [2; 0; 0; 0; 1; 0; 0; 0; 1] inv) /\
  basisInverse 1 1 inverse_store_R
    = Some (1%positive,
            <[1%positive := basisInverse_inplace_val [2; 1; 0; 0; 1; 0; 0; 0; 1]]>
              inverse_store_R).
Proof.
  destruct basisInverse_inverts_unless_in_place as [Hall _].
  split; [ | split; [ | split ] ].
  - apply (Hall singular_store 2%positive 1%positive
             [1; 0; 0; 0; 0; 0; 0; 0; 1] [0; 0; 0; 0; 0; 0; 0; 0; 0]);
      try reflexivity.
    exact singular_det.
  - apply (Hall regular_store 2%positive 1%positive
             [2; 0; 0; 0; 1; 0; 0; 0; 1] [0; 0; 0; 0; 0; 0; 0; 0; 0]);
      try reflexivity.
    + exact regular_det.
    + discriminate.
  - apply (Hall regular_store 2%positive 1%positive
             [2; 0; 0; 0; 1; 0; 0; 0; 1] [0; 0; 0; 0; 0; 0; 0; 0; 0]);
      try reflexivity.
    exact regular_det.
  - apply (Hall inverse_store_R 1%positive 1%positive
             [2; 1; 0; 0; 1; 0; 0; 0; 1] [2; 1; 0; 0; 1; 0; 0; 0; 1]);
      try reflexivity.
    exact skew_det.
Defined.

(** ** Output aliased to an input *)

(** [basisTranspose] may transpose in place *)
Lemma basisTranspose_in_place {F : Type} `{!Scalar F} (h : heap F) b vb :
  h !! b = Some vb -> length vb = 9%nat ->
  basisTranspose b b h = Some (b, <[b := basisTranspose_val vb]> h).
Proof. intros Hb Hvb. exact (basisTranspose_run h b b vb vb Hb Hvb Hb Hvb). Qed.

(** C8 fails on [quatSlerp(a, a, b, t)]: at [t = 0] between the unit
    quaternions [a = (0, 0, 0, 1)] and [b = (3/5, 0, 0, 4/5)] the call with
    [out] aliased to [a] leaves [b] in [a], while the call with a separate
    [out] leaves [a] there. *)
Theorem quatSlerp_in_place_differs :
  result_at (quatSlerp 1 1 2 0) alias_store 1%positive = Some [3 / 5; 0; 0; 4 / 5] /\
  result_at (quatSlerp 3 1 2 0) alias_store 3%positive = Some [0; 0; 0; 1] /\
  [3 / 5; 0; 0; 4 / 5] <> [0; 0; 0; 1].
Proof.
  assert (Hdot : Rltb (0 * (3 / 5) + 0 * 0 + 0 * 0 + 1 * (4 / 5)) 0 = false)
    by (apply Rltb_false; lra).
  assert (Hfar : Rltb (9995 / 10000) (0 * (3 / 5) + 0 * 0 + 0 * 0 + 1 * (4 / 5)) = false)
    by (apply Rltb_false; lra).
  split; [ | split ].
  - unfold result_at.
    rewrite (quatSlerp_inplace_run alias_store 1%positive 2%positive 0
               [0; 0; 0; 1] [3 / 5; 0; 0; 4 / 5]) by reflexivity.
    rewrite lookup_insert_eq. f_equal.
    unfold quatSlerp_inplace_val, slerp_dot, slerp_target, quatDot_val, SLERP_THRESHOLD.
    cbn [nth]. to_R. rewrite Hdot, Hfar. cbn [nth].
    rewrite !Rmult_0_r, sin_0, cos_0. unfold Rdiv. each ltac:(ring).
  - unfold result_at.
    rewrite (quatSlerp_run alias_store 3%positive 1%positive 2%positive 0
               [0; 0; 0; 1] [3 / 5; 0; 0; 4 / 5] [0; 0; 0; 0])
      by (reflexivity || discriminate).
    rewrite lookup_insert_eq. f_equal.
    unfold quatSlerp_val, slerp_dot, slerp_target, quatDot_val, SLERP_THRESHOLD.
    cbn [nth]. to_R. rewrite Hdot, Hfar. cbn [nth].
    rewrite !Rmult_0_r, sin_0, cos_0. unfold Rdiv. each ltac:(ring).
  - intros Heq. injection Heq as Heq _. lra.
Qed.

(** [basisInverse] in place reads entries it has already overwritten: on
    binary64 the in-place inverse of [[2, 1, 0; 0, 1, 0; 0, 0, 1]] differs
    from the inverse written to a separate [out] *)
Lemma basisInverse_in_place_differs :
  result_at (basisInverse 1 1) inverse_store 1%positive
    = Some [0.5; -0.5; -0; 0; 0.25; -0; 0; -0; 0.0625]%float /\
  result_at (basisInverse 2 1) inverse_store 2%positive
    = Some [0.5; -0.5; 0; 0; 1; 0; 0; 0; 1]%float.
Proof. split; vm_compute; reflexivity. Qed.

(** [quatSlerp] in place interpolates between the target and itself: the
    result is a multiple of the target *)
Lemma quatSlerp_inplace_val_explicit (a0 a1 a2 a3 b0 b1 b2 b3 t : R) :
  b0 * b0 + b1 * b1 + b2 * b2 + b3 * b3 = 1 ->
  let a := [a0; a1; a2; a3] in
  let b := [b0; b1; b2; b3] in
  let target := if Rlt_dec (quat_dot a b) 0 then quat_neg b else b in
  exists k,
    quatSlerp_inplace_val a b t = map (Rmult k) target /\
    (9995 / 10000 < Rabs (quat_dot a b) \/ t = 0 -> k = 1).
Proof.
  intros Hb a b target. subst a b target.
  unfold quatSlerp_inplace_val, slerp_dot, slerp_target, quatDot_val, SLERP_THRESHOLD,
    renormalize_val, mix_val, quatLength_val, quat_neg, quat_dot, EPSILON.
  cbn [nth]. to_R.
  set (d := a0 * b0 + a1 * b1 + a2 * b2 + a3 * b3).
  destruct (Rltb d 0) eqn:Hd; cbn [nth].
  - apply Rltb_true in Hd.
    destruct (Rlt_dec d 0) as [_|Hn]; [ | contradiction ]. cbn [map].
    destruct (Rltb (9995 / 10000) (- d)) eqn:Hnear.
    + exists 1. split; [ | reflexivity ].
      replace ((- b0 + t * (- b0 - - b0)) * (- b0 + t * (- b0 - - b0))
               + (- b1 + t * (- b1 - - b1)) * (- b1 + t * (- b1 - - b1))
               + (- b2 + t * (- b2 - - b2)) * (- b2 + t * (- b2 - - b2))
               + (- b3 + t * (- b3 - - b3)) * (- b3 + t * (- b3 - - b3)))
        with 1 by (rewrite <- Hb; ring).
      rewrite sqrt_1. rewrite (proj2 (Rltb_true _ _)) by lra.
      each ltac:(field).
    + apply Rltb_false in Hnear.
      eexists. split; [ each ltac:(rewrite <- Rmult_plus_distr_r; reflexivity) | ].
      intros [Hgt| ->]; [ rewrite Rabs_left in Hgt by lra; lra | ].
      rewrite Rmult_0_r, sin_0, cos_0. unfold Rdiv. ring.
  - apply Rltb_false in Hd.
    destruct (Rlt_dec d 0) as [Hn|_]; [ lra | ]. cbn [map].
    destruct (Rltb (9995 / 10000) d) eqn:Hnear.
    + exists 1. split; [ | reflexivity ].
      replace ((b0 + t * (b0 - b0)) * (b0 + t * (b0 - b0))
               + (b1 + t * (b1 - b1)) * (b1 + t * (b1 - b1))
               + (b2 + t * (b2 - b2)) * (b2 + t * (b2 - b2))
               + (b3 + t * (b3 - b3)) * (b3 + t * (b3 - b3)))
        with 1 by (rewrite <- Hb; ring).
      rewrite sqrt_1. rewrite (proj2 (Rltb_true _ _)) by lra.
      each ltac:(field).
    + apply Rltb_false in Hnear.
      eexists. split; [ each ltac:(rewrite <- Rmult_plus_distr_r; reflexivity) | ].
      intros [Hgt| ->]; [ rewrite Rabs_pos_eq in Hgt by lra; lra | ].
      rewrite Rmult_0_r, sin_0, cos_0. unfold Rdiv. ring.
Qed.

Lemma quatSlerp_inplace_val_multiple (a b : list R) (t : R) :
  length a = 4%nat -> quat_unit b ->
  let target := if Rlt_dec (quat_dot a b) 0 then quat_neg b else b in
  exists k,
    quatSlerp_inplace_val a b t = map (Rmult k) target /\
    (9995 / 10000 < Rabs (quat_dot a b) \/ t = 0 -> k = 1).
Proof.
  intros Hla [Hlb Hb]. explode. unfold quat_dot in Hb. cbn [nth] in Hb.
  apply quatSlerp_inplace_val_explicit. exact Hb.
Qed.

(** C1, what the code does.  For unit quaternions [a] and [b] and every [t],
    [quatSlerp] called with an [out] that is not [a] leaves in [out] the
    interpolation the specification describes: towards [-b] instead of [b]
    when [a.b < 0]; the componentwise linear interpolation renormalised to
    unit length when [|a.b| > 0.9995]; the spherical formula otherwise; and
    [basisSlerp] returns the basis of the quaternion that the same rule gives
    for the quaternions of its two bases.  Called in place
    ([quatSlerp(a, a, b, t)]), the code has replaced [a] by [b] or [-b] when
    it reads it: it leaves a multiple of that operand, the operand itself when
    [|a.b| > 0.9995] or [t = 0], so that at [t = 0] the result is not the
    interpolation, which is [a], unless [a] is that operand. *)
Theorem quatSlerp_shorter_arc_unless_in_place :
  (forall (h : heap R) out a b t qa qb o,
      h !! a = Some qa -> h !! b = Some qb ->
      h !! out = Some o -> length o = 4%nat ->
      out <> a -> quat_unit qa -> quat_unit qb ->
      let target := if Rlt_dec (quat_dot qa qb) 0 then quat_neg qb else qb in
      quatSlerp out a b t h = Some (out, <[out := shorter_arc_slerp qa qb t]> h) /\
      (9995 / 10000 < Rabs (quat_dot qa qb) ->
       shorter_arc_slerp qa qb t = nlerp qa target t /\
       quat_norm (shorter_arc_slerp qa qb t) = 1)) /\
  (forall (h : heap R) out a b t va vb,
      h !! a = Some va -> length va = 9%nat ->
      h !! b = Some vb -> length vb = 9%nat ->
      quat_unit (basisToQuat_val va) -> quat_unit (basisToQuat_val vb) ->
      exists r h',
        basisSlerp out a b t h = Some (r, h') /\
        h' !! r = Some (basisFromQuat_val
                          (shorter_arc_slerp (basisToQuat_val va) (basisToQuat_val vb) t))) /\
  (forall (h : heap R) a b t qa qb,
      h !! a = Some qa -> h !! b = Some qb ->
      quat_unit qa -> quat_unit qb ->
      let target := if Rlt_dec (quat_dot qa qb) 0 then quat_neg qb else qb in
      exists k,
        quatSlerp a a b t h = Some (a, <[a := map (Rmult k) target]> h) /\
        (9995 / 10000 < Rabs (quat_dot qa qb) \/ t = 0 -> map (Rmult k) target = target) /\
        (t = 0 -> shorter_arc_slerp qa qb t = qa /\
                  (qa <> target -> map (Rmult k) target <> shorter_arc_slerp qa qb t))).
Proof.
  destruct slerp_takes_shorter_arc as [Hquat Hbasis].
  split; [ exact Hquat | ]. split; [ exact Hbasis | ].
  intros h a b t qa qb Ha Hb Hqa Hqb target.
  destruct (quatSlerp_inplace_val_multiple qa qb t (proj1 Hqa) Hqb) as (k & Hval & Hk).
  fold target in Hval.
  assert (Hlt : length target = 4%nat).
  { subst target. destruct (Rlt_dec (quat_dot qa qb) 0); [ reflexivity | apply Hqb ]. }
  assert (Hone : 9995 / 10000 < Rabs (quat_dot qa qb) \/ t = 0 ->
                 map (Rmult k) target = target).
  { intros Hc. rewrite (Hk Hc). clear Hval. explode. cbn [map]. each ltac:(ring). }
  exists k. split; [ | split ].
  - rewrite <- Hval.
    exact (quatSlerp_inplace_run h a b t qa qb Ha (proj1 Hqa) Hb (proj1 Hqb)).
  - exact Hone.
  - intros ->. rewrite shorter_arc_slerp_0 by assumption.
    split; [ reflexivity | ].
    intros Hne. rewrite Hone by (right; reflexivity). congruence.
Qed.

Lemma quatSlerp_shorter_arc_unless_in_place_witness :
  quatSlerp 3 1 2 (1 / 2) slerp_store
    = Some (3%positive,
            <[3%positive := shorter_arc_slerp [0; 0; 0; 1] [1; 0; 0; 0] (1 / 2)]> slerp_store) /\
  (exists r h',
     basisSlerp 3 4 4 (1 / 2) slerp_store = Some (r, h') /\
     h' !! r = Some (basisFromQuat_val
                       (shorter_arc_slerp (basisToQuat_val mat3_identity)
                                          (basisToQuat_val mat3_identity) (1 / 2)))) /\
  (exists k,
     quatSlerp 1 1 2 0 alias_store
       = Some (1%positive,
               <[1%positive := map (Rmult k)
                                 (if Rlt_dec (quat_dot [0; 0; 0; 1] [3 / 5; 0; 0; 4 / 5]) 0
                                  then quat_neg [3 / 5; 0; 0; 4 / 5]
                                  else [3 / 5; 0; 0; 4 / 5])]> alias_store) /\
     shorter_arc_slerp [0; 0; 0; 1] [3 / 5; 0; 0; 4 / 5] 0 = [0; 0; 0; 1]).
Proof.
  destruct quatSlerp_shorter_arc_unless_in_place as (Hquat & Hbasis & Hin).
  split; [ | split ].
  - apply (Hquat slerp_store 3%positive 1%positive 2%positive (1 / 2)
             [0; 0; 0; 1] [1; 0; 0; 0] [0; 0; 0; 0]);
      try reflexivity; try discriminate;
      (split; [ reflexivity | unfold quat_dot; cbn [nth]; lra ]).
  - apply (Hbasis slerp_store 3%positive 4%positive 4%positive (1 / 2)
             mat3_identity mat3_identity);
      try reflexivity;
      (rewrite basisToQuat_val_identity;
       split; [ reflexivity | unfold quat_dot; cbn [nth]; lra ]).
  - destruct (Hin alias_store 1%positive 2%positive 0 [0; 0; 0; 1] [3 / 5; 0; 0; 4 / 5])
      as (k & Hrun & _ & Hzero);
      try reflexivity;
      try (split; [ reflexivity | unfold quat_dot; cbn [nth]; lra ]).
    exists k. split; [ exact Hrun | apply Hzero; reflexivity ].
Defined.

(** ** Hue interpolation *)

Lemma Int_part_small (x : R) : 0 <= x < 1 -> Int_part x = 0%Z.
Proof. intros Hx. symmetry. apply Int_part_spec. simpl. lra. Qed.

Lemma Rrem_nonneg_range (x y : R) : 0 <= x -> 0 < y -> 0 <= Rrem x y < y.
Proof.
  intros Hx Hy. unfold Rrem, Rtrunc.
  assert (Hq : 0 <= x / y) by (apply Rmult_le_pos; [ lra | left; apply Rinv_0_lt_compat; lra ]).
  destruct (Rle_dec 0 (x / y)) as [_|Hn]; [ | contradiction ].
  destruct (base_Int_part (x / y)) as [Hlo Hhi].
  assert (Hxy : x / y * y = x) by (field; lra).
  set (k := IZR (Int_part (x / y))) in *.
  split; nra.
Qed.

Lemma hueDelta_cases (a0 b0 : R) :
  0 <= a0 < 360 -> 0 <= b0 < 360 ->
  let raw := b0 - a0 in
  let d := hueDelta a0 b0 in
  (180 < raw -> d = raw - 360) /\
  (raw < -180 -> d = raw + 360) /\
  (-180 <= raw <= 180 -> d = raw) /\
  Rabs d <= 180.
Proof.
  intros Ha Hb raw d. subst raw d. unfold hueDelta. to_R.
  unfold Rltb.
  destruct (Rlt_dec 180 (b0 - a0)); destruct (Rlt_dec _ (-180));
    repeat split; intros; try lra; apply Rabs_le; lra.
Qed.

(** the repository's test "should interpolate HSV colors with hue wrapping":
    from red (hue 0) to blue (hue 240) the midpoint has hue 300 *)
Example test_lerpHsv : lerpHsv_val [0; 1; 1] [240; 1; 1] (1 / 2) = [300; 1; 1].
Proof.
  unfold lerpHsv_val, hueDelta. cbn [nth]. to_R.
  assert (H1 : Rltb 180 (240 - 0) = true) by (apply Rltb_true; lra).
  rewrite H1.
  assert (H2 : Rltb (240 - 0 - 360) (-180) = false) by (apply Rltb_false; lra).
  rewrite H2.
  replace (0 + (240 - 0 - 360) * (1 / 2) + 360) with 300 by lra.
  unfold Rrem, Rtrunc.
  destruct (Rle_dec 0 (300 / 360)) as [_|Hn]; [ | lra ].
  rewrite (Int_part_small (300 / 360)) by lra.
  each ltac:(lra).
Qed.

(** C9, as stated, fails for [t] outside [[0, 1]]: from hue [0] to hue [270]
    at [t = 5] the result hue is [-90], outside [[0, 360)]. *)
Lemma lerpHsv_hue_not_wrapped :
  result_at (lerpHsv 5 3 4 5) hue_store 5%positive = Some [-90; 1; 1] /\
  ~ (0 <= -90 < 360).
Proof.
  split; [ | lra ].
  unfold result_at.
  rewrite (lerpHsv_run hue_store 5%positive 3%positive 4%positive 5
             [0; 1; 1] [270; 1; 1] [0; 0; 0]) by reflexivity.
  rewrite lookup_insert_eq. f_equal.
  unfold lerpHsv_val, hueDelta. cbn [nth]. to_R.
  assert (H1 : Rltb 180 (270 - 0) = true) by (apply Rltb_true; lra).
  rewrite H1.
  assert (H2 : Rltb (270 - 0 - 360) (-180) = false) by (apply Rltb_false; lra).
  rewrite H2.
  replace (0 + (270 - 0 - 360) * 5 + 360) with (-90) by lra.
  unfold Rrem, Rtrunc.
  destruct (Rle_dec 0 (-90 / 360)) as [Hle|_]; [ lra | ].
  rewrite (Int_part_small (- (-90 / 360))) by lra.
  change (- 0)%Z with 0%Z.
  each ltac:(lra).
Qed.

(** C9, amended.  For hues in [[0, 360)] and [t] in [[0, 1]], [lerpHsv] takes
    the shorter way round the hue circle: the hue difference is wrapped by
    [360] when it exceeds [180] in magnitude, so that it is at most [180], the
    resulting hue differs from [a[0] + delta * t] by a multiple of [360] and
    lies in [[0, 360)]; from hue [350] to hue [10] at [t = 1/2] the hue is
    [0]. *)
Theorem lerpHsv_shorter_hue_path :
  (forall (h : heap R) out a b t va vb o,
      h !! a = Some va -> length va = 3%nat ->
      h !! b = Some vb -> length vb = 3%nat ->
      h !! out = Some o -> length o = 3%nat ->
      0 <= nth 0 va 0 < 360 -> 0 <= nth 0 vb 0 < 360 -> 0 <= t <= 1 ->
      let raw := nth 0 vb 0 - nth 0 va 0 in
      let delta := hueDelta (nth 0 va 0) (nth 0 vb 0) in
      let hue := nth 0 (lerpHsv_val va vb t) 0 in
      lerpHsv out a b t h = Some (out, <[out := lerpHsv_val va vb t]> h) /\
      (180 < raw -> delta = raw - 360) /\
      (raw < -180 -> delta = raw + 360) /\
      (-180 <= raw <= 180 -> delta = raw) /\
      Rabs delta <= 180 /\
      (exists k : Z, hue = nth 0 va 0 + delta * t + 360 * IZR k) /\
      0 <= hue < 360) /\
  lerpHsv_val [350; 1; 1] [10; 1; 1] (1 / 2) = [0; 1; 1].
Proof.
  split.
  - intros h out a b t va vb o Ha Hva Hb Hvb Ho Hlen Ha0 Hb0 Ht raw delta hue.
    destruct (hueDelta_cases _ _ Ha0 Hb0) as (Hgt & Hlt & Hmid & Habs).
    fold raw delta in Hgt, Hlt, Hmid, Habs.
    split; [ exact (lerpHsv_run h out a b t va vb o Ha Hva Hb Hvb Ho Hlen) | ].
    do 4 (split; [ assumption | ]).
    assert (Hd : -180 <= delta <= 180)
      by (revert Habs; unfold Rabs; destruct (Rcase_abs delta); lra).
    assert (Hx : 0 <= nth 0 va 0 + delta * t + 360) by nra.
    subst hue. explode. unfold lerpHsv_val. cbn [nth] in *. to_R. fold delta.
    split.
    + match goal with
      | |- context [Rrem ?x _] => exists (1 - Rtrunc (x / 360))%Z
      end.
      unfold Rrem. rewrite minus_IZR. ring.
    + apply Rrem_nonneg_range; lra.
  - unfold lerpHsv_val, hueDelta. cbn [nth]. to_R.
    assert (H1 : Rltb 180 (10 - 350) = false) by (apply Rltb_false; lra).
    rewrite H1.
    assert (H2 : Rltb (10 - 350) (-180) = true) by (apply Rltb_true; lra).
    rewrite H2.
    replace (350 + (10 - 350 + 360) * (1 / 2) + 360) with 720 by lra.
    unfold Rrem, Rtrunc.
    destruct (Rle_dec 0 (720 / 360)) as [_|Hn]; [ | lra ].
    replace (Int_part (720 / 360)) with 2%Z by (apply Int_part_spec; simpl; lra).
    each ltac:(lra).
Qed.

Lemma lerpHsv_shorter_hue_path_witness :
  lerpHsv 5 1 2 (1 / 2) hue_store
    = Some (5%positive,
            <[5%positive := lerpHsv_val [350; 1; 1] [10; 1; 1] (1 / 2)]> hue_store).
Proof.
  destruct lerpHsv_shorter_hue_path as [Hall _].
  apply (Hall hue_store 5%positive 1%positive 2%positive (1 / 2)
           [350; 1; 1] [10; 1; 1] [0; 0; 0]);
    first [ reflexivity | simpl; lra ].
Defined.

(** ** The basis interpolations do not write to [out] *)

Section BasisInterpolation.
Context {F : Type} `{!Scalar F} `{!Trig F}.

(** C10.  [basisLerp] and [basisSlerp] leave every array of the store as it
    was, [out] included: they return a new array, which holds what
    [basisFromQuat] builds from the interpolated quaternion. *)
Theorem basis_interpolation_leaves_out :
  forall (h : heap F) out a b t va vb,
    h !! a = Some va -> length va = 9%nat ->
    h !! b = Some vb -> length vb = 9%nat ->
    (exists r h',
        basisLerp out a b t h = Some (r, h') /\
        h !! r = None /\ h ⊆ h' /\
        (forall o, h !! out = Some o -> h' !! out = Some o) /\
        h' !! r = Some (basisFromQuat_val
                          (quatLerp_val (basisToQuat_val va) (basisToQuat_val vb) t))) /\
    (exists r h',
        basisSlerp out a b t h = Some (r, h') /\
        h !! r = None /\ h ⊆ h' /\
        (forall o, h !! out = Some o -> h' !! out = Some o) /\
        h' !! r = Some (basisFromQuat_val
                          (quatSlerp_val (basisToQuat_val va) (basisToQuat_val vb) t))).
Proof.
  intros h out a b t va vb Ha Hva Hb Hvb. split.
  - destruct (wp_run _ _ _ (basisLerp_wp h out a b t va vb Ha Hva Hb Hvb))
      as (r & h' & Hrun & Hsub & Hnew & Hres).
    exists r, h'. repeat split; try assumption.
    intros o Ho. exact (lookup_weaken _ _ _ _ Ho Hsub).
  - destruct (wp_run _ _ _ (basisSlerp_wp h out a b t va vb Ha Hva Hb Hvb))
      as (r & h' & Hrun & Hsub & Hnew & Hres).
    exists r, h'. repeat split; try assumption.
    intros o Ho. exact (lookup_weaken _ _ _ _ Ho Hsub).
Qed.
End BasisInterpolation.

Lemma basis_interpolation_leaves_out_witness :
  (exists r h',
      basisLerp 3 1 2 (1 / 2) basis_store = Some (r, h') /\
      basis_store !! r = None /\ basis_store ⊆ h' /\
      (forall o, basis_store !! 3%positive = Some o -> h' !! 3%positive = Some o) /\
      h' !! r = Some (basisFromQuat_val
                        (quatLerp_val (basisToQuat_val mat3_identity)
                                      (basisToQuat_val mat3_identity) (1 / 2)))) /\
  (exists r h',
      basisSlerp 3 1 2 (1 / 2) basis_store = Some (r, h') /\
      basis_store !! r = None /\ basis_store ⊆ h' /\
      (forall o, basis_store !! 3%positive = Some o -> h' !! 3%positive = Some o) /\
      h' !! r = Some (basisFromQuat_val
                        (quatSlerp_val (basisToQuat_val mat3_identity)
                                       (basisToQuat_val mat3_identity) (1 / 2)))).
Proof.
  apply (basis_interpolation_leaves_out basis_store 3%positive 1%positive 2%positive
           (1 / 2) mat3_identity mat3_identity); reflexivity.
Defined.


(** * The rest of the kernel *)

(** ** What each function leaves in the store *)

Local Close Scope R_scope.

Section RunQuaternions.
Context {F : Type} `{!Scalar F}.
Implicit Types (h : heap F).


Lemma quatFromAxisAngle_wp `{!Trig F} h axis angle v (Q : loc -> heap F -> Prop) :
  h !! axis = Some v -> length v = 3%nat ->
  (forall n r, h !! n = None -> h !! r = None -> n <> r ->
     Q r (<[r := quatFromAxisAngle_val v angle]> (<[n := vec3Normalize_val v]> h))) ->
  wp (quatFromAxisAngle axis angle) h Q.
Proof.
  intros Hv Hlen HQ. explode.
  unfold quatFromAxisAngle, vec3Normalize.
  unfold quatFromAxisAngle_val, vec3Normalize_val in HQ. cbn [nth] in HQ.
  steps.
  all: match goal with
       | Hn : _ !! ?n = None, Hr : _ !! ?r = None, Hne : ?n <> ?r |- _ =>
           specialize (HQ n r Hn Hr Hne)
       end.
  all: revert HQ; use_conds; intros HQ; exact HQ.
Qed.

Lemma quatFromEuler_wp `{!Trig F} h euler e (Q : loc -> heap F -> Prop) :
  h !! euler = Some e -> length e = 3%nat ->
  (forall r, h !! r = None -> Q r (<[r := quatFromEuler_val e]> h)) ->
  wp (quatFromEuler euler) h Q.
Proof.
  intros He Hlen HQ. explode.
  unfold quatFromEuler. steps. apply HQ. assumption.
Qed.

Lemma quatMul_run h out a b qa qb o :
  h !! a = Some qa -> length qa = 4%nat ->
  h !! b = Some qb -> length qb = 4%nat ->
  h !! out = Some o -> length o = 4%nat ->
  quatMul out a b h = Some (out, <[out := quatMul_val qa qb]> h).
Proof.
  intros Ha Hqa Hb Hqb Ho Hlen. apply wp_run_eq.
  alias3 out a b; explode.
  all: unfold quatMul, quatMul_val; cbn [nth]; steps.
  all: finish.
Qed.


Lemma quatRotateVec3_run h out v q vv vq o :
  h !! v = Some vv -> length vv = 3%nat ->
  h !! q = Some vq -> length vq = 4%nat ->
  h !! out = Some o -> length o = 3%nat ->
  quatRotateVec3 out v q h = Some (out, <[out := quatRotateVec3_val vv vq]> h).
Proof.
  intros Hv Hvv Hq Hvq Ho Hlen. apply wp_run_eq.
  assert (Hne : out <> q) by (intros ->; rewrite Hq in Ho; injection Ho as ->; lia).
  alias out v; explode.
  all: unfold quatRotateVec3, quatRotateVec3_val; cbn [nth]; steps.
  all: finish.
Qed.

Lemma quatToAngleAxis_wp `{!Trig F} h q vq (Q : F * loc -> heap F -> Prop) :
  h !! q = Some vq -> length vq = 4%nat ->
  (forall r, h !! r = None ->
     Q ((quatToAngleAxis_val vq).1, r) (<[r := (quatToAngleAxis_val vq).2]> h)) ->
  wp (quatToAngleAxis q) h Q.
Proof.
  intros Hq Hvq HQ. explode.
  unfold quatToAngleAxis. unfold quatToAngleAxis_val in HQ. cbn [nth] in HQ.
  steps.
  all: match goal with H : _ !! ?r = None |- _ => specialize (HQ r H) end.
  all: revert HQ; use_conds; intros HQ; exact HQ.
Qed.

Lemma quatToBasis_wp h q vq (Q : loc -> heap F -> Prop) :
  h !! q = Some vq -> length vq = 4%nat ->
  (forall r, h !! r = None -> Q r (<[r := basisFromQuat_val vq]> h)) ->
  wp (quatToBasis q) h Q.
Proof.
  intros Hq Hvq HQ. explode.
  unfold quatToBasis. steps. apply HQ. assumption.
Qed.

Lemma quatToMat4_run h out q vq o :
  h !! q = Some vq -> length vq = 4%nat ->
  h !! out = Some o -> length o = 16%nat ->
  quatToMat4 out q h = Some (out, <[out := quatToMat4_val vq]> h).
Proof.
  intros Hq Hvq Ho Hlen. apply wp_run_eq.
  assert (Hne : out <> q) by (intros ->; rewrite Hq in Ho; injection Ho as ->; lia).
  explode.
  unfold quatToMat4, quatToMat4_val, basisFromQuat_val; cbn [nth]; steps.
  finish.
Qed.

End RunQuaternions.

Section RunBases.
Context {F : Type} `{!Scalar F}.
Implicit Types (h : heap F).

Lemma basisFromEuler_wp `{!Trig F} h euler e (Q : loc -> heap F -> Prop) :
  h !! euler = Some e -> length e = 3%nat ->
  (forall r, h !! r = None -> Q r (<[r := basisFromEuler_val e]> h)) ->
  wp (basisFromEuler euler) h Q.
Proof.
  intros He Hlen HQ. explode.
  unfold basisFromEuler. steps. apply HQ. assumption.
Qed.

Lemma basisRotateVec3_run h out b v vb vv o :
  h !! b = Some vb -> length vb = 9%nat ->
  h !! v = Some vv -> length vv = 3%nat ->
  h !! out = Some o -> length o = 3%nat ->
  out <> v ->
  basisRotateVec3 out b v h = Some (out, <[out := basisRotateVec3_val vb vv]> h).
Proof.
  intros Hb Hvb Hv Hvv Ho Hlen Hne. apply wp_run_eq.
  assert (Hob : out <> b) by (intros ->; rewrite Hb in Ho; injection Ho as ->; lia).
  explode.
  unfold basisRotateVec3, basisRotateVec3_val; cbn [nth]; steps.
  finish.
Qed.

Lemma basisRotateVec3_inplace_run h b v vb vv :
  h !! b = Some vb -> length vb = 9%nat ->
  h !! v = Some vv -> length vv = 3%nat ->
  basisRotateVec3 v b v h = Some (v, <[v := basisRotateVec3_inplace_val vb vv]> h).
Proof.
  intros Hb Hvb Hv Hvv. apply wp_run_eq.
  assert (Hob : v <> b) by (intros ->; rewrite Hb in Hv; injection Hv as ->; lia).
  explode.
  unfold basisRotateVec3, basisRotateVec3_inplace_val; cbn [nth]; steps.
  finish.
Qed.

Lemma basisToEuler_wp `{!Trig F} `{!Compare F} `{!Circular F} h b vb
    (Q : loc -> heap F -> Prop) :
  h !! b = Some vb -> length vb = 9%nat ->
  (forall r, h !! r = None -> Q r (<[r := basisToEuler_val vb]> h)) ->
  wp (basisToEuler b) h Q.
Proof.
  intros Hb Hvb HQ. explode.
  unfold basisToEuler. unfold basisToEuler_val in HQ. cbn [nth] in HQ.
  steps.
  all: match goal with H : _ !! ?r = None |- _ => specialize (HQ r H) end.
  all: revert HQ; use_conds; intros HQ; exact HQ.
Qed.

End RunBases.

Local Open Scope R_scope.

(** the operations of the new classes, in exact arithmetic *)
Ltac to_reals :=
  to_R; cbn [fleb R_compare fPI fasin fatan2 ftan R_circular] in *.

Local Close Scope R_scope.

Section RunMatrices3.
Context {F : Type} `{!Scalar F}.
Implicit Types (h : heap F).

Lemma mat3Mul_run h out a b va vb o :
  h !! a = Some va -> length va = 9%nat ->
  h !! b = Some vb -> length vb = 9%nat ->
  h !! out = Some o -> length o = 9%nat ->
  mat3Mul out a b h = Some (out, <[out := mat3Mul_val va vb]> h).
Proof.
  intros Ha Hva Hb Hvb Ho Hlen. apply wp_run_eq.
  alias3 out a b; explode.
  all: unfold mat3Mul, mat3Mul_val, mat3Mul_col; cbn [nth app]; steps.
  all: finish.
Qed.

Lemma mat3FromTranslation_wp h v vv (Q : loc -> heap F -> Prop) :
  h !! v = Some vv -> length vv = 2%nat ->
  (forall r, h !! r = None -> Q r (<[r := mat3FromTranslation_val vv]> h)) ->
  wp (mat3FromTranslation v) h Q.
Proof.
  intros Hv Hvv HQ. explode. unfold mat3FromTranslation. steps. apply HQ. assumption.
Qed.

Lemma mat3Translate_run h out a v va vv o :
  h !! a = Some va -> length va = 9%nat ->
  h !! v = Some vv -> length vv = 2%nat ->
  h !! out = Some o -> length o = 9%nat ->
  mat3Translate out a v h = Some (out, <[out := mat3Translate_val va vv]> h).
Proof.
  intros Ha Hva Hv Hvv Ho Hlen. apply wp_run_eq.
  assert (Hne : out <> v) by (intros ->; rewrite Hv in Ho; injection Ho as ->; lia).
  alias out a; explode.
  all: unfold mat3Translate, mat3Translate_val; cbn [nth]; steps;
    try (congruence || contradiction).
  all: finish.
Qed.

Lemma mat3FromRotation_wp `{!Trig F} h rad (Q : loc -> heap F -> Prop) :
  (forall r, h !! r = None -> Q r (<[r := mat3FromRotation_val rad]> h)) ->
  wp (mat3FromRotation rad) h Q.
Proof. intros HQ. unfold mat3FromRotation. steps. apply HQ. assumption. Qed.

Lemma mat3Rotate_run `{!Trig F} h out a rad va o :
  h !! a = Some va -> length va = 9%nat ->
  h !! out = Some o -> length o = 9%nat ->
  mat3Rotate out a rad h = Some (out, <[out := mat3Rotate_val va rad]> h).
Proof.
  intros Ha Hva Ho Hlen. apply wp_run_eq.
  alias out a; explode.
  all: unfold mat3Rotate, mat3Rotate_val; cbn [nth]; steps.
  all: finish.
Qed.

Lemma mat3FromScaling_wp h v vv (Q : loc -> heap F -> Prop) :
  h !! v = Some vv -> length vv = 2%nat ->
  (forall r, h !! r = None -> Q r (<[r := mat3FromScaling_val vv]> h)) ->
  wp (mat3FromScaling v) h Q.
Proof.
  intros Hv Hvv HQ. explode. unfold mat3FromScaling. steps. apply HQ. assumption.
Qed.

Lemma mat3Scale_run h out a v va vv o :
  h !! a = Some va -> length va = 9%nat ->
  h !! v = Some vv -> length vv = 2%nat ->
  h !! out = Some o -> length o = 9%nat ->
  mat3Scale out a v h = Some (out, <[out := mat3Scale_val va vv]> h).
Proof.
  intros Ha Hva Hv Hvv Ho Hlen. apply wp_run_eq.
  assert (Hne : out <> v) by (intros ->; rewrite Hv in Ho; injection Ho as ->; lia).
  alias out a; explode.
  all: unfold mat3Scale, mat3Scale_val; cbn [nth]; steps.
  all: finish.
Qed.

Lemma mat3TransformVec2_run h out m v vm vv o :
  h !! m = Some vm -> length vm = 9%nat ->
  h !! v = Some vv -> length vv = 2%nat ->
  h !! out = Some o -> length o = 2%nat ->
  mat3TransformVec2 out m v h = Some (out, <[out := mat3TransformVec2_val vm vv]> h).
Proof.
  intros Hm Hvm Hv Hvv Ho Hlen. apply wp_run_eq.
  assert (Hne : out <> m) by (intros ->; rewrite Hm in Ho; injection Ho as ->; lia).
  alias out v; explode.
  all: unfold mat3TransformVec2, mat3TransformVec2_val; cbn [nth]; steps.
  all: finish.
Qed.

End RunMatrices3.

Local Open Scope R_scope.

Local Close Scope R_scope.

(** branches that the aliasing of the arguments rules out *)
Ltac absurd_alias :=
  try (congruence || contradiction ||
       (exfalso; match goal with H : ¬ _ |- _ => apply H; solve_neq end)).

Section RunMatrices4.
Context {F : Type} `{!Scalar F}.
Implicit Types (h : heap F).

Lemma mat4Perspective_run `{!Circular F} h out fovy aspect near far o :
  h !! out = Some o -> length o = 16%nat ->
  mat4Perspective out fovy aspect near far h
    = Some (out, <[out := mat4Perspective_val fovy aspect near far]> h).
Proof.
  intros Ho Hlen. apply wp_run_eq. explode.
  unfold mat4Perspective, mat4Perspective_val; steps. finish.
Qed.

Lemma mat4Ortho_run h out left right bottom top near far o :
  h !! out = Some o -> length o = 16%nat ->
  mat4Ortho out left right bottom top near far h
    = Some (out, <[out := mat4Ortho_val left right bottom top near far]> h).
Proof.
  intros Ho Hlen. apply wp_run_eq. explode.
  unfold mat4Ortho, mat4Ortho_val; steps. finish.
Qed.

Lemma mat4FromTranslation_wp h v vv (Q : loc -> heap F -> Prop) :
  h !! v = Some vv -> length vv = 3%nat ->
  (forall r, h !! r = None -> Q r (<[r := mat4FromTranslation_val vv]> h)) ->
  wp (mat4FromTranslation v) h Q.
Proof.
  intros Hv Hvv HQ. explode. unfold mat4FromTranslation. steps. apply HQ. assumption.
Qed.

Lemma mat4Translate_run h out m v vm vv o :
  h !! m = Some vm -> length vm = 16%nat ->
  h !! v = Some vv -> length vv = 3%nat ->
  h !! out = Some o -> length o = 16%nat ->
  mat4Translate out m v h = Some (out, <[out := mat4Translate_val vm vv]> h).
Proof.
  intros Hm Hvm Hv Hvv Ho Hlen. apply wp_run_eq.
  assert (Hne : out <> v) by (intros ->; rewrite Hv in Ho; injection Ho as ->; lia).
  alias out m; explode.
  all: unfold mat4Translate, mat4Translate_val; cbn [nth]; steps; absurd_alias.
  all: finish.
Qed.

Lemma mat4FromXRotation_wp `{!Trig F} h angle (Q : loc -> heap F -> Prop) :
  (forall r, h !! r = None -> Q r (<[r := mat4FromXRotation_val angle]> h)) ->
  wp (mat4FromXRotation angle) h Q.
Proof. intros HQ. unfold mat4FromXRotation. steps. apply HQ. assumption. Qed.

Lemma mat4FromYRotation_wp `{!Trig F} h angle (Q : loc -> heap F -> Prop) :
  (forall r, h !! r = None -> Q r (<[r := mat4FromYRotation_val angle]> h)) ->
  wp (mat4FromYRotation angle) h Q.
Proof. intros HQ. unfold mat4FromYRotation. steps. apply HQ. assumption. Qed.

Lemma mat4FromZRotation_wp `{!Trig F} h angle (Q : loc -> heap F -> Prop) :
  (forall r, h !! r = None -> Q r (<[r := mat4FromZRotation_val angle]> h)) ->
  wp (mat4FromZRotation angle) h Q.
Proof. intros HQ. unfold mat4FromZRotation. steps. apply HQ. assumption. Qed.

Lemma mat4RotateX_run `{!Trig F} h out m rad vm o :
  h !! m = Some vm -> length vm = 16%nat ->
  h !! out = Some o -> length o = 16%nat ->
  mat4RotateX out m rad h = Some (out, <[out := mat4RotateX_val vm rad]> h).
Proof.
  intros Hm Hvm Ho Hlen. apply wp_run_eq.
  alias out m; explode.
  all: unfold mat4RotateX, mat4RotateX_val; cbn [nth]; steps; absurd_alias.
  all: finish.
Qed.

Lemma mat4RotateY_run `{!Trig F} h out m rad vm o :
  h !! m = Some vm -> length vm = 16%nat ->
  h !! out = Some o -> length o = 16%nat ->
  mat4RotateY out m rad h = Some (out, <[out := mat4RotateY_val vm rad]> h).
Proof.
  intros Hm Hvm Ho Hlen. apply wp_run_eq.
  alias out m; explode.
  all: unfold mat4RotateY, mat4RotateY_val; cbn [nth]; steps; absurd_alias.
  all: finish.
Qed.

Lemma mat4RotateZ_run `{!Trig F} h out m rad vm o :
  h !! m = Some vm -> length vm = 16%nat ->
  h !! out = Some o -> length o = 16%nat ->
  mat4RotateZ out m rad h = Some (out, <[out := mat4RotateZ_val vm rad]> h).
Proof.
  intros Hm Hvm Ho Hlen. apply wp_run_eq.
  alias out m; explode.
  all: unfold mat4RotateZ, mat4RotateZ_val; cbn [nth]; steps; absurd_alias.
  all: finish.
Qed.

Lemma mat4FromRotation_wp `{!Trig F} h rad axis v (Q : loc -> heap F -> Prop) :
  h !! axis = Some v -> length v = 3%nat ->
  (forall r, h !! r = None -> Q r (<[r := mat4FromRotation_val rad v]> h)) ->
  wp (mat4FromRotation rad axis) h Q.
Proof.
  intros Hv Hlen HQ. explode.
  unfold mat4FromRotation, mat4Identity.
  unfold mat4FromRotation_val, mat4Identity_val in HQ. cbn [nth] in HQ.
  steps.
  all: match goal with H : _ !! ?r = None |- _ => specialize (HQ r H) end.
  all: revert HQ; use_conds; intros HQ; exact HQ.
Qed.

Lemma mat4FromScale_wp h v vv (Q : loc -> heap F -> Prop) :
  h !! v = Some vv -> length vv = 3%nat ->
  (forall r, h !! r = None -> Q r (<[r := mat4FromScale_val vv]> h)) ->
  wp (mat4FromScale v) h Q.
Proof.
  intros Hv Hvv HQ. explode. unfold mat4FromScale. steps. apply HQ. assumption.
Qed.

Lemma mat4Scale_run h out m v vm vv o :
  h !! m = Some vm -> length vm = 16%nat ->
  h !! v = Some vv -> length vv = 3%nat ->
  h !! out = Some o -> length o = 16%nat ->
  mat4Scale out m v h = Some (out, <[out := mat4Scale_val vm vv]> h).
Proof.
  intros Hm Hvm Hv Hvv Ho Hlen. apply wp_run_eq.
  assert (Hne : out <> v) by (intros ->; rewrite Hv in Ho; injection Ho as ->; lia).
  alias out m; explode.
  all: unfold mat4Scale, mat4Scale_val; cbn [nth]; steps.
  all: finish.
Qed.

Lemma mat4SetBasis_run h out m b vm vb o :
  h !! m = Some vm -> length vm = 16%nat ->
  h !! b = Some vb -> length vb = 9%nat ->
  h !! out = Some o -> length o = 16%nat ->
  mat4SetBasis out m b h = Some (out, <[out := mat4SetBasis_val vm vb]> h).
Proof.
  intros Hm Hvm Hb Hvb Ho Hlen. apply wp_run_eq.
  assert (Hne : out <> b) by (intros ->; rewrite Hb in Ho; injection Ho as ->; lia).
  alias out m; explode.
  all: unfold mat4SetBasis, mat4SetBasis_val; cbn [nth]; steps.
  all: finish.
Qed.

End RunMatrices4.

Local Open Scope R_scope.

Local Close Scope R_scope.

Section RunVectors.
Context {F : Type} `{!Scalar F}.
Implicit Types (h : heap F).

Lemma vec2Rotate_run `{!Trig F} h out v angle vv o :
  h !! v = Some vv -> length vv = 2%nat ->
  h !! out = Some o -> length o = 2%nat ->
  vec2Rotate out v angle h = Some (out, <[out := vec2Rotate_val vv angle]> h).
Proof.
  intros Hv Hvv Ho Hlen. apply wp_run_eq.
  alias out v; explode.
  all: unfold vec2Rotate, vec2Rotate_val; cbn [nth]; steps.
  all: finish.
Qed.

Lemma vec3Reflect_wp h out i n vi vn o (Q : loc -> heap F -> Prop) :
  h !! i = Some vi -> length vi = 3%nat ->
  h !! n = Some vn -> length vn = 3%nat ->
  h !! out = Some o -> length o = 3%nat ->
  (forall t tv, h !! t = None ->
     Q out (<[out := vec3Reflect_val vi vn]> (<[t := tv]> h))) ->
  wp (vec3Reflect out i n) h Q.
Proof.
  intros Hi Hvi Hn Hvn Ho Hlen HQ.
  alias3 out i n; try alias i n; explode.
  all: unfold vec3Reflect, vec3Dot, vec3Mul, vec3Sub; steps.
  all: apply HQ; assumption.
Qed.

Lemma vec3Cross_run h out a b va vb o :
  h !! a = Some va -> length va = 3%nat ->
  h !! b = Some vb -> length vb = 3%nat ->
  h !! out = Some o -> length o = 3%nat ->
  out <> a -> out <> b ->
  vec3Cross out a b h = Some (out, <[out := vec3Cross_val va vb]> h).
Proof.
  intros Ha Hva Hb Hvb Ho Hlen Hoa Hob. apply wp_run_eq.
  alias a b; explode.
  all: unfold vec3Cross, vec3Cross_val; cbn [nth]; steps.
  all: finish.
Qed.

Lemma vec3Cross_inplace_run h a b va vb :
  h !! a = Some va -> length va = 3%nat ->
  h !! b = Some vb -> length vb = 3%nat ->
  a <> b ->
  vec3Cross a a b h = Some (a, <[a := vec3Cross_inplace_val va vb]> h).
Proof.
  intros Ha Hva Hb Hvb Hab. apply wp_run_eq. explode.
  unfold vec3Cross, vec3Cross_inplace_val; cbn [nth]; steps.
  finish.
Qed.

End RunVectors.

Local Open Scope R_scope.

(** ** Quaternions *)

Lemma quatMul_val_prod (a b : list R) :
  length a = 4%nat -> length b = 4%nat -> quatMul_val a b = quat_prod a b.
Proof.
  intros Ha Hb. explode. unfold quatMul_val, quat_prod. cbn [nth]. to_R.
  each ltac:(ring).
Qed.

Lemma quat_prod_norm (a b : list R) :
  length a = 4%nat -> length b = 4%nat ->
  quat_dot (quat_prod a b) (quat_prod a b) = quat_dot a a * quat_dot b b.
Proof.
  intros Ha Hb. explode. unfold quat_dot, quat_prod. cbn [nth]. ring.
Qed.

Lemma quat_prod_assoc (a b c : list R) :
  length a = 4%nat -> length b = 4%nat -> length c = 4%nat ->
  quat_prod (quat_prod a b) c = quat_prod a (quat_prod b c).
Proof.
  intros Ha Hb Hc. explode. unfold quat_prod. cbn [nth]. each ltac:(ring).
Qed.

(** X1.  [quatMul(out, a, b)] leaves the Hamilton product [a b] in [out],
    whether or not [out] is one of [a] and [b]; the squared length of the
    product is the product of the squared lengths (so unit quaternions
    multiply to unit quaternions), and the product is associative. *)
Theorem quatMul_hamilton_product :
  forall (h : heap R) out a b qa qb o,
    h !! a = Some qa -> length qa = 4%nat ->
    h !! b = Some qb -> length qb = 4%nat ->
    h !! out = Some o -> length o = 4%nat ->
    quatMul out a b h = Some (out, <[out := quat_prod qa qb]> h) /\
    quat_dot (quat_prod qa qb) (quat_prod qa qb) = quat_dot qa qa * quat_dot qb qb /\
    (quat_unit qa -> quat_unit qb -> quat_unit (quat_prod qa qb)) /\
    (forall qc, length qc = 4%nat ->
       quat_prod (quat_prod qa qb) qc = quat_prod qa (quat_prod qb qc)).
Proof.
  intros h out a b qa qb o Ha Hqa Hb Hqb Ho Hlen.
  split; [ | split; [ | split ] ].
  - rewrite <- (quatMul_val_prod qa qb) by assumption.
    exact (quatMul_run h out a b qa qb o Ha Hqa Hb Hqb Ho Hlen).
  - apply quat_prod_norm; assumption.
  - intros [_ Hua] [_ Hub]. split; [ reflexivity | ].
    rewrite quat_prod_norm by assumption. rewrite Hua, Hub. ring.
  - intros qc Hqc. apply quat_prod_assoc; assumption.
Qed.

Lemma quatMul_hamilton_product_witness :
  quatMul 1 1 2 alias_store
    = Some (1%positive,
            <[1%positive := quat_prod [0; 0; 0; 1] [3 / 5; 0; 0; 4 / 5]]> alias_store).
Proof.
  apply (quatMul_hamilton_product alias_store 1%positive 1%positive 2%positive
           [0; 0; 0; 1] [3 / 5; 0; 0; 4 / 5] [0; 0; 0; 1]); reflexivity.
Defined.




(** *** Rotating a vector *)

Lemma quatRotateVec3_val_sandwich (v q : list R) :
  length v = 3%nat -> length q = 4%nat ->
  quat_of_vec (quatRotateVec3_val v q)
    = quat_prod (quat_prod q (quat_of_vec v)) (quat_conj q).
Proof.
  intros Hv Hq. explode.
  unfold quatRotateVec3_val, quat_of_vec, quat_prod, quat_conj. cbn [nth]. to_R.
  each ltac:(ring).
Qed.

Lemma quatRotateVec3_val_dot (v q : list R) :
  length v = 3%nat -> length q = 4%nat ->
  vec3_dot (quatRotateVec3_val v q) (quatRotateVec3_val v q)
    = quat_dot q q * quat_dot q q * vec3_dot v v.
Proof.
  intros Hv Hq. explode.
  unfold quatRotateVec3_val, vec3_dot, quat_dot. cbn [nth]. to_R. ring.
Qed.

Lemma quatRotateVec3_val_prod (v a b : list R) :
  length v = 3%nat -> length a = 4%nat -> length b = 4%nat ->
  quatRotateVec3_val v (quat_prod a b)
    = quatRotateVec3_val (quatRotateVec3_val v b) a.
Proof.
  intros Hv Ha Hb. explode.
  unfold quatRotateVec3_val, quat_prod. cbn [nth]. to_R. each ltac:(ring).
Qed.

Lemma quatRotateVec3_val_conj (v q : list R) :
  length v = 3%nat -> quat_unit q ->
  quatRotateVec3_val (quatRotateVec3_val v q) (quat_conj q) = v.
Proof.
  intros Hv [Hq Hu]. explode.
  unfold quatRotateVec3_val, quat_conj, quat_dot in *. cbn [nth] in *. to_R.
  each ltac:(nsatz).
Qed.

(** X3.  [quatRotateVec3(out, v, q)] (where [out] may be [v]) leaves in [out]
    the vector part of [q v q*], the vector [v] conjugated by [q].  For a unit
    quaternion this keeps the length of [v]; rotating by [q] and then by its
    conjugate gives [v] back; rotating by the Hamilton product [q p] is
    rotating by [p] first and by [q] second. *)
Theorem quatRotateVec3_conjugation :
  forall (h : heap R) out v q vv vq o,
    h !! v = Some vv -> length vv = 3%nat ->
    h !! q = Some vq -> length vq = 4%nat ->
    h !! out = Some o -> length o = 3%nat ->
    let rot := quatRotateVec3_val vv vq in
    quatRotateVec3 out v q h = Some (out, <[out := rot]> h) /\
    quat_of_vec rot = quat_prod (quat_prod vq (quat_of_vec vv)) (quat_conj vq) /\
    (quat_unit vq ->
     vec3_dot rot rot = vec3_dot vv vv /\
     quatRotateVec3_val rot (quat_conj vq) = vv) /\
    (forall vp, length vp = 4%nat ->
       quatRotateVec3_val vv (quat_prod vq vp)
         = quatRotateVec3_val (quatRotateVec3_val vv vp) vq).
Proof.
  intros h out v q vv vq o Hv Hvv Hq Hvq Ho Hlen rot. subst rot.
  split; [ | split; [ | split ] ].
  - exact (quatRotateVec3_run h out v q vv vq o Hv Hvv Hq Hvq Ho Hlen).
  - apply quatRotateVec3_val_sandwich; assumption.
  - intros Hu. split.
    + rewrite quatRotateVec3_val_dot by assumption.
      destruct Hu as [_ ->]. ring.
    + apply quatRotateVec3_val_conj; assumption.
  - intros vp Hvp. apply quatRotateVec3_val_prod; assumption.
Qed.

Lemma quatRotateVec3_conjugation_witness :
  quatRotateVec3 6 4 1 boundary_store
    = Some (6%positive,
            <[6%positive := quatRotateVec3_val [1; 2; 3] [0; 0; 0; 1]]> boundary_store).
Proof.
  apply (quatRotateVec3_conjugation boundary_store 6%positive 4%positive 1%positive
           [1; 2; 3] [0; 0; 0; 1] [0; 0; 0]); reflexivity.
Defined.

(** a computation that returns [out] and leaves a given array there *)
Lemma wp_run_ret {F : Type} (m : M F loc) (h : heap F) (out : loc) (vs : list F) :
  wp m h (fun r h' => r = out /\ h' !! out = Some vs) ->
  exists h', m h = Some (out, h') /\ h' !! out = Some vs.
Proof. intros (r & h' & Hrun & -> & Hout)%wp_run. eauto. Qed.

(** a call whose result is known *)
Tactic Notation "call" uconstr(lem) :=
  eapply wp_of_run;
  [ eapply lem; first [ solve_lookup | eassumption | reflexivity | solve_neq ] | ].

Lemma quatToMat4_val_rotates (q v : list R) :
  quat_unit q -> length v = 3%nat ->
  mat4TransformVec3_val (quatToMat4_val q) v = quatRotateVec3_val v q.
Proof.
  intros [Hq Hu] Hv. explode.
  unfold mat4TransformVec3_val, quatToMat4_val, basisFromQuat_val, quatRotateVec3_val,
    quat_dot in *.
  cbn [nth] in *. to_R.
  match goal with
  | |- context [Reqb ?w 0] =>
      replace w with 1 by ring; rewrite (proj2 (Reqb_false 1 0)) by lra
  end.
  unfold Rdiv. rewrite Rinv_1, !Rmult_1_r.
  each ltac:(nsatz).
Qed.

(** X4.  For a unit quaternion [q], transforming a point by the matrix that
    [quatToMat4] builds is rotating it by [q]: [quatToMat4(m, q)] followed by
    [mat4TransformVec3(out, m, v)] leaves in [out] what
    [quatRotateVec3(out, v, q)] leaves there. *)
Theorem quatToMat4_rotates_like_quat :
  forall (h : heap R) out m v q vv vq o om,
    h !! v = Some vv -> length vv = 3%nat ->
    h !! q = Some vq -> quat_unit vq ->
    h !! m = Some om -> length om = 16%nat ->
    h !! out = Some o -> length o = 3%nat ->
    exists h1 h2,
      (quatToMat4 m q ;; mat4TransformVec3 out m v) h = Some (out, h1) /\
      quatRotateVec3 out v q h = Some (out, h2) /\
      h1 !! out = h2 !! out /\
      h2 !! out = Some (quatRotateVec3_val vv vq).
Proof.
  intros h out m v q vv vq o om Hv Hvv Hq Hu Hm Hom Ho Hlen.
  pose proof Hu as [Hvq _].
  assert (Hmo : out <> m) by (intros ->; rewrite Hm in Ho; injection Ho as ->; lia).
  assert (Hmv : m <> v) by (intros ->; rewrite Hm in Hv; injection Hv as ->; lia).
  assert (Hmq : m <> q) by (intros ->; rewrite Hm in Hq; injection Hq as ->; lia).
  assert (Hwp : wp (quatToMat4 m q ;; mat4TransformVec3 out m v) h
                  (fun r h1 => r = out /\ h1 !! out = Some (quatRotateVec3_val vv vq))).
  { step. call quatToMat4_run. call mat4TransformVec3_run.
    split; [ reflexivity | ].
    rewrite lookup_insert_eq. f_equal. apply quatToMat4_val_rotates; assumption. }
  apply wp_run in Hwp. destruct Hwp as (r & h1 & Hrun & -> & Hout).
  exists h1, (<[out := quatRotateVec3_val vv vq]> h).
  split; [ exact Hrun | ].
  split; [ exact (quatRotateVec3_run h out v q vv vq o Hv Hvv Hq Hvq Ho Hlen) | ].
  rewrite lookup_insert_eq. split; [ exact Hout | reflexivity ].
Qed.

Lemma quat_store_unit : quat_unit [0; 0; 3 / 5; 4 / 5].
Proof. split; [ reflexivity | unfold quat_dot; cbn [nth]; lra ]. Qed.

Lemma quatToMat4_rotates_like_quat_witness :
  exists h1 h2,
    (quatToMat4 5 2 ;; mat4TransformVec3 4 5 3) quat_store = Some (4%positive, h1) /\
    quatRotateVec3 4 3 2 quat_store = Some (4%positive, h2) /\
    h1 !! 4%positive = h2 !! 4%positive /\
    h2 !! 4%positive = Some (quatRotateVec3_val [1; 2; 3] [0; 0; 3 / 5; 4 / 5]).
Proof.
  apply (quatToMat4_rotates_like_quat quat_store 4%positive 5%positive 3%positive
           2%positive [1; 2; 3] [0; 0; 3 / 5; 4 / 5] [0; 0; 0]
           [0; 0; 0; 0; 0; 0; 0; 0; 0; 0; 0; 0; 0; 0; 0; 0]);
    first [ reflexivity | exact quat_store_unit ].
Defined.

Lemma basisFromQuat_val_rotates (q v : list R) :
  quat_unit q -> length v = 3%nat ->
  basisRotateVec3_val (basisFromQuat_val q) v = quatRotateVec3_val v (quat_conj q).
Proof.
  intros [Hq Hu] Hv. explode.
  unfold basisRotateVec3_val, basisFromQuat_val, quatRotateVec3_val, quat_conj,
    quat_dot in *.
  cbn [nth] in *. to_R. each ltac:(nsatz).
Qed.

Lemma basisFromQuat_val_transposed_rotates (q v : list R) :
  quat_unit q -> length v = 3%nat ->
  basisRotateVec3_val (basisTranspose_val (basisFromQuat_val q)) v
    = quatRotateVec3_val v q.
Proof.
  intros [Hq Hu] Hv. explode.
  unfold basisRotateVec3_val, basisTranspose_val, basisFromQuat_val, quatRotateVec3_val,
    quat_dot in *.
  cbn [nth] in *. to_R. each ltac:(nsatz).
Qed.

(** X5.  The basis that [quatToBasis] (or its twin [basisFromQuat]) builds
    from a unit quaternion [q] turns vectors the other way round:
    [basisRotateVec3(out, b, v)] with that basis and an [out] distinct from
    [v] leaves the vector rotated by the conjugate of [q], and it is the
    transposed basis that rotates like [q]; the two rotations differ for some
    [q] and [v]. *)
Theorem quatToBasis_rotates_by_conjugate :
  (forall (h : heap R) out v q vv vq o,
      h !! v = Some vv -> length vv = 3%nat ->
      h !! q = Some vq -> quat_unit vq ->
      h !! out = Some o -> length o = 3%nat ->
      out <> v ->
      (exists h1, (let* b := quatToBasis q in basisRotateVec3 out b v) h = Some (out, h1) /\
                  h1 !! out = Some (quatRotateVec3_val vv (quat_conj vq))) /\
      (exists h1, (let* b := basisFromQuat q in basisRotateVec3 out b v) h = Some (out, h1) /\
                  h1 !! out = Some (quatRotateVec3_val vv (quat_conj vq))) /\
      basisRotateVec3_val (basisTranspose_val (basisFromQuat_val vq)) vv
        = quatRotateVec3_val vv vq) /\
  (exists vq vv, quat_unit vq /\ length vv = 3%nat /\
      quatRotateVec3_val vv (quat_conj vq) <> quatRotateVec3_val vv vq).
Proof.
  split.
  - intros h out v q vv vq o Hv Hvv Hq Hu Ho Hlen Hne.
    pose proof Hu as [Hvq _].
    split; [ | split ].
    + apply wp_run_ret.
      step. eapply quatToBasis_wp; [ solve_lookup | assumption | ]. intros b Hb.
      call basisRotateVec3_run.
      split; [ reflexivity | ].
      rewrite lookup_insert_eq. f_equal. apply basisFromQuat_val_rotates; assumption.
    + apply wp_run_ret.
      step. eapply basisFromQuat_wp; [ solve_lookup | assumption | ]. intros b Hb.
      call basisRotateVec3_run.
      split; [ reflexivity | ].
      rewrite lookup_insert_eq. f_equal. apply basisFromQuat_val_rotates; assumption.
    + apply basisFromQuat_val_transposed_rotates; assumption.
  - exists [0; 0; 3 / 5; 4 / 5], [1; 0; 0].
    split; [ exact quat_store_unit | split; [ reflexivity | ] ].
    unfold quatRotateVec3_val, quat_conj. cbn [nth]. to_R.
    intros Heq. injection Heq as _ Heq _. lra.
Qed.

Lemma quatToBasis_rotates_by_conjugate_witness :
  exists h1,
    (let* b := quatToBasis 2 in basisRotateVec3 4 b 3) quat_store = Some (4%positive, h1) /\
    h1 !! 4%positive
      = Some (quatRotateVec3_val [1; 2; 3] (quat_conj [0; 0; 3 / 5; 4 / 5])).
Proof.
  destruct quatToBasis_rotates_by_conjugate as [Hall _].
  apply (Hall quat_store 4%positive 3%positive 2%positive [1; 2; 3]
           [0; 0; 3 / 5; 4 / 5] [0; 0; 0]);
    first [ reflexivity | exact quat_store_unit | discriminate ].
Defined.

(** *** Axis and angle *)










Lemma quatToAngleAxis_val_length (q : list R) : length (quatToAngleAxis_val q).2 = 3%nat.
Proof. unfold quatToAngleAxis_val. destruct (_ >? _)%num; reflexivity. Qed.

Lemma angle_axis_roundtrip_val (x y z w : R) :
  x * x + y * y + z * z + w * w = 1 ->
  let p := quatToAngleAxis_val [x; y; z; w] in
  quatFromAxisAngle_val p.2 p.1
    = if Rlt_dec (9999 / 10000) (Rabs w) then [0; 0; 0; 1] else [x; y; z; Rabs w].
Proof.
  intros Hu p. subst p. unfold quatToAngleAxis_val. cbn [nth]. to_R.
  destruct (Rlt_dec (9999 / 10000) (Rabs w)) as [Hnear|Hfar].
  - rewrite (proj2 (Rltb_true _ _) Hnear). cbn [fst snd].
    unfold quatFromAxisAngle_val, vec3Normalize_val. cbn [nth]. to_R.
    replace (1 * 1 + 0 * 0 + 0 * 0) with 1 by ring. rewrite sqrt_1.
    rewrite (proj2 (Reqb_false 1 0)) by lra. cbn [nth].
    replace (0 * (1 / 2)) with 0 by field. rewrite sin_0, cos_0.
    each ltac:(field).
  - rewrite (proj2 (Rltb_false _ _)) by lra. cbn [fst snd].
    pose proof (Rabs_pos w) as Hpos.
    set (a := Rabs w) in *.
    assert (Haa : a * a = w * w).
    { unfold a, Rabs. destruct (Rcase_abs w); ring. }
    replace (2 * acos a / 2) with (acos a) by field.
    rewrite sin_acos by lra.
    assert (Hs2 : 0 < 1 - a²) by (unfold Rsqr; nra).
    assert (HS : 0 < sqrt (1 - a²)) by (apply sqrt_lt_R0; exact Hs2).
    assert (HSS : sqrt (1 - a²) * sqrt (1 - a²) = x * x + y * y + z * z).
    { rewrite sqrt_sqrt by lra. unfold Rsqr. lra. }
    set (S := sqrt (1 - a²)) in *.
    unfold quatFromAxisAngle_val, vec3Normalize_val. cbn [nth]. to_R.
    replace (x / S * (x / S) + y / S * (y / S) + z / S * (z / S)) with 1.
    2:{ transitivity ((x * x + y * y + z * z) / (S * S)); [ rewrite <- HSS | ]; field; lra. }
    rewrite sqrt_1. rewrite (proj2 (Reqb_false 1 0)) by lra. cbn [nth].
    replace (2 * acos a * (1 / 2)) with (acos a) by field.
    rewrite sin_acos, cos_acos by lra. fold S.
    each ltac:(field; lra).
Qed.

(** X8.  Taking a unit quaternion [(x, y, z, w)] to angle and axis with
    [quatToAngleAxis] and back with [quatFromAxisAngle] gives
    [(x, y, z, |w|)] when [|w| <= 0.9999], and the identity quaternion
    otherwise: the quaternion itself for [0 <= w <= 0.9999], but for
    [-0.9999 <= w < 0] the negated conjugate, which is the inverse
    rotation. *)
Theorem quat_angle_axis_roundtrip :
  forall (h : heap R) q vq,
    h !! q = Some vq -> quat_unit vq ->
    let w := nth 3 vq 0 in
    exists r h' res,
      (let* p := quatToAngleAxis q in quatFromAxisAngle p.2 p.1) h = Some (r, h') /\
      h' !! r = Some res /\
      (9999 / 10000 < Rabs w -> res = quat_one) /\
      (0 <= w <= 9999 / 10000 -> res = vq) /\
      (- (9999 / 10000) <= w < 0 -> res = quat_neg (quat_conj vq) /\ res <> vq).
Proof.
  intros h q vq Hq [Hvq Hu] w.
  assert (Hwp : wp (let* p := quatToAngleAxis q in quatFromAxisAngle p.2 p.1) h
                  (fun r h' =>
                     h' !! r = Some (quatFromAxisAngle_val (quatToAngleAxis_val vq).2
                                       (quatToAngleAxis_val vq).1))).
  { step. eapply quatToAngleAxis_wp; [ eassumption | assumption | ].
    intros a Ha. cbn [fst snd].
    eapply quatFromAxisAngle_wp;
      [ solve_lookup | apply quatToAngleAxis_val_length | ].
    intros n r Hn Hr Hnr. apply lookup_insert_eq. }
  apply wp_run in Hwp. destruct Hwp as (r & h' & Hrun & Hres).
  exists r, h'. eexists. split; [ exact Hrun | split; [ exact Hres | ] ].
  subst w. explode. unfold quat_dot in Hu. cbn [nth] in *.
  rewrite (angle_axis_roundtrip_val _ _ _ _ Hu).
  destruct (Rlt_dec (9999 / 10000) (Rabs r3)) as [Hnear|Hfar].
  - split; [ reflexivity | ].
    split; intros Hw; exfalso; revert Hnear; unfold Rabs; destruct (Rcase_abs r3); lra.
  - split; [ intros Hw; lra | ].
    split; intros Hw.
    + rewrite Rabs_pos_eq by lra. reflexivity.
    + rewrite Rabs_left by lra. unfold quat_neg, quat_conj. cbn [nth].
      split; [ each ltac:(ring) | ].
      intros Heq. injection Heq as Heq. lra.
Qed.

Lemma quat_angle_axis_roundtrip_witness :
  exists r h' res,
    (let* p := quatToAngleAxis 2 in quatFromAxisAngle p.2 p.1) quat_store = Some (r, h') /\
    h' !! r = Some res /\
    (0 <= 4 / 5 <= 9999 / 10000 -> res = [0; 0; 3 / 5; 4 / 5]).
Proof.
  destruct (quat_angle_axis_roundtrip quat_store 2%positive [0; 0; 3 / 5; 4 / 5]
              eq_refl quat_store_unit)
    as (r & h' & res & Hrun & Hres & _ & Hsame & _).
  exists r, h', res. auto.
Defined.

(** ** Bases *)

(** *** Euler angles *)

Lemma basisFromEuler_val_rotation (e : list R) :
  length e = 3%nat -> is_rotation (basisFromEuler_val e).
Proof.
  intros He. explode. unfold basisFromEuler_val. cbn [nth]. to_R.
  pose proof (sin2_cos2 r) as Hx. pose proof (sin2_cos2 r0) as Hy.
  pose proof (sin2_cos2 r1) as Hz. unfold Rsqr in *.
  generalize dependent (sin r). generalize dependent (cos r). intros cx sx Hx.
  generalize dependent (sin r0). generalize dependent (cos r0). intros cy sy Hy.
  generalize dependent (sin r1). generalize dependent (cos r1). intros cz sz Hz.
  unfold is_rotation, mat3_det, mat3_entry. cbn [nth Nat.mul Nat.add length].
  split; [ reflexivity | ].
  repeat split; nsatz.
Qed.

Lemma basisFromEuler_val_factors (x y z : R) :
  basisFromEuler_val [x; y; z]
    = mat3_prod (mat3_prod (basisFromEuler_val [x; 0; 0]) (basisFromEuler_val [0; y; 0]))
                (basisFromEuler_val [0; 0; z]).
Proof.
  unfold basisFromEuler_val, mat3_prod, mat3_entry.
  cbn [nth Nat.mul Nat.add flat_map map app]. to_R.
  rewrite sin_0, cos_0. each ltac:(ring).
Qed.

Lemma basisFromQuat_of_euler (x y z : R) :
  basisFromQuat_val (quatFromEuler_val [x; y; z]) = basisFromEuler_val [- x; - y; - z].
Proof.
  unfold basisFromQuat_val, quatFromEuler_val, basisFromEuler_val. cbn [nth]. to_R.
  rewrite !sin_neg, !cos_neg.
  set (hx := x * (1 / 2)). set (hy := y * (1 / 2)). set (hz := z * (1 / 2)).
  replace x with (2 * hx) by (unfold hx; field).
  replace y with (2 * hy) by (unfold hy; field).
  replace z with (2 * hz) by (unfold hz; field).
  rewrite !sin_2a, !cos_2a_sin.
  pose proof (sin2_cos2 hx) as Hx. pose proof (sin2_cos2 hy) as Hy.
  pose proof (sin2_cos2 hz) as Hz. unfold Rsqr in *.
  generalize dependent (sin hx). generalize dependent (cos hx). intros cx sx Hx.
  generalize dependent (sin hy). generalize dependent (cos hy). intros cy sy Hy.
  generalize dependent (sin hz). generalize dependent (cos hz). intros cz sz Hz.
  each ltac:(nsatz).
Qed.

(** X9.  [basisFromEuler(euler)] returns a new array that holds a rotation
    (orthonormal rows, determinant [1]) whatever the three angles are; it is
    the matrix product of the rotation by [euler[0]] about x, the rotation by
    [euler[1]] about y and the rotation by [euler[2]] about z, in this
    order. *)
Theorem basisFromEuler_rotation :
  forall (h : heap R) euler e,
    h !! euler = Some e -> length e = 3%nat ->
    exists r h',
      basisFromEuler euler h = Some (r, h') /\
      h !! r = None /\ h' !! euler = Some e /\
      h' !! r = Some (basisFromEuler_val e) /\
      is_rotation (basisFromEuler_val e) /\
      basisFromEuler_val e
        = mat3_prod (mat3_prod (basisFromEuler_val [nth 0 e 0; 0; 0])
                               (basisFromEuler_val [0; nth 1 e 0; 0]))
                    (basisFromEuler_val [0; 0; nth 2 e 0]).
Proof.
  intros h euler e He Hlen.
  assert (Hwp : wp (basisFromEuler euler) h
                  (fun r h' => h !! r = None /\ h' !! euler = Some e /\
                               h' !! r = Some (basisFromEuler_val e))).
  { eapply basisFromEuler_wp; [ eassumption | assumption | ].
    intros r Hr. split; [ assumption | split ].
    - solve_lookup.
    - apply lookup_insert_eq. }
  apply wp_run in Hwp. destruct Hwp as (r & h' & Hrun & Hnew & Hin & Hres).
  exists r, h'. do 4 (split; [ assumption | ]). split.
  - apply basisFromEuler_val_rotation; assumption.
  - explode. cbn [nth]. apply basisFromEuler_val_factors.
Qed.

Lemma basisFromEuler_rotation_witness :
  exists r h',
    basisFromEuler 1 euler_store = Some (r, h') /\
    h' !! r = Some (basisFromEuler_val [1; 1 / 2; -1]) /\
    is_rotation (basisFromEuler_val [1; 1 / 2; -1]).
Proof.
  destruct (basisFromEuler_rotation euler_store 1%positive [1; 1 / 2; -1])
    as (r & h' & Hrun & _ & _ & Hres & Hrot & _); try reflexivity.
  exists r, h'. auto.
Defined.

Lemma quatFromEuler_val_unit (e : list R) :
  length e = 3%nat -> quat_unit (quatFromEuler_val e).
Proof.
  intros He. explode. split; [ reflexivity | ].
  unfold quatFromEuler_val, quat_dot. cbn [nth]. to_R.
  pose proof (sin2_cos2 (r * (1 / 2))) as Hx. pose proof (sin2_cos2 (r0 * (1 / 2))) as Hy.
  pose proof (sin2_cos2 (r1 * (1 / 2))) as Hz. unfold Rsqr in *.
  nsatz.
Qed.

(** X10.  [quatFromEuler(euler)] returns a unit quaternion, but it turns the
    other way from [basisFromEuler]: the basis [basisFromQuat] builds from
    it is the one [basisFromEuler] builds from the opposite angles, which
    differs from the basis of the angles themselves (for instance for a
    quarter turn about z). *)
Theorem quatFromEuler_opposite_to_basisFromEuler :
  (forall (h : heap R) euler e,
      h !! euler = Some e -> length e = 3%nat ->
      exists r h',
        (let* q := quatFromEuler euler in basisFromQuat q) h = Some (r, h') /\
        h' !! r = Some (basisFromEuler_val (map Ropp e)) /\
        quat_unit (quatFromEuler_val e)) /\
  basisFromEuler_val (map Ropp [0; 0; PI / 2]) <> basisFromEuler_val [0; 0; PI / 2].
Proof.
  split.
  - intros h euler e He Hlen.
    assert (Hwp : wp (let* q := quatFromEuler euler in basisFromQuat q) h
                    (fun r h' => h' !! r = Some (basisFromEuler_val (map Ropp e)))).
    { step. eapply quatFromEuler_wp; [ eassumption | assumption | ].
      intros q Hq.
      eapply basisFromQuat_wp; [ solve_lookup | reflexivity | ].
      intros r Hr. rewrite lookup_insert_eq. f_equal.
      explode. apply basisFromQuat_of_euler. }
    apply wp_run in Hwp. destruct Hwp as (r & h' & Hrun & Hres).
    exists r, h'. split; [ exact Hrun | split; [ exact Hres | ] ].
    apply quatFromEuler_val_unit; assumption.
  - unfold basisFromEuler_val. cbn [nth map]. to_R.
    rewrite sin_neg, sin_PI2. intros Heq. injection Heq as _ Heq _.
    rewrite Ropp_0, cos_0 in Heq. lra.
Qed.

Lemma quatFromEuler_opposite_to_basisFromEuler_witness :
  exists r h',
    (let* q := quatFromEuler 1 in basisFromQuat q) euler_store = Some (r, h') /\
    h' !! r = Some (basisFromEuler_val (map Ropp [1; 1 / 2; -1])).
Proof.
  destruct quatFromEuler_opposite_to_basisFromEuler as [Hall _].
  destruct (Hall euler_store 1%positive [1; 1 / 2; -1]) as (r & h' & Hrun & Hres & _);
    try reflexivity.
  exists r, h'. auto.
Defined.

(** *** Axis and angle *)





(** *** Applying a basis to a vector *)

Lemma basisRotateVec3_val_apply (b v : list R) :
  length b = 9%nat -> length v = 3%nat -> basisRotateVec3_val b v = mat3_apply b v.
Proof. intros Hb Hv. explode. reflexivity. Qed.

Lemma mat3_apply_prod (a b v : list R) :
  length a = 9%nat -> length b = 9%nat -> length v = 3%nat ->
  mat3_apply (mat3_prod a b) v = mat3_apply a (mat3_apply b v).
Proof.
  intros Ha Hb Hv. explode. unfold mat3_apply, mat3_prod, mat3_entry.
  cbn [nth Nat.mul Nat.add flat_map map app]. each ltac:(ring).
Qed.

(** X12.  [basisRotateVec3(out, b, v)] with [out] distinct from [v] leaves in
    [out] the matrix [b] (three rows) applied to the column vector [v], so
    that applying the product [basisMul(c, a, b)] is applying [b] first and
    [a] second.  Called with [out] aliased to [v] it reads components it has
    already overwritten and leaves another vector. *)
Theorem basisRotateVec3_applies_rows :
  (forall (h : heap R) out c t a b v va vb vv o oc ot,
      h !! a = Some va -> length va = 9%nat ->
      h !! b = Some vb -> length vb = 9%nat ->
      h !! v = Some vv -> length vv = 3%nat ->
      h !! out = Some o -> length o = 3%nat ->
      h !! c = Some oc -> length oc = 9%nat ->
      h !! t = Some ot -> length ot = 3%nat ->
      out <> v -> t <> v -> out <> t ->
      basisRotateVec3 out b v h = Some (out, <[out := mat3_apply vb vv]> h) /\
      (exists h1, (basisMul c a b ;; basisRotateVec3 out c v) h = Some (out, h1) /\
                  h1 !! out = Some (mat3_apply va (mat3_apply vb vv))) /\
      (exists h2, (basisRotateVec3 t b v ;; basisRotateVec3 out a t) h = Some (out, h2) /\
                  h2 !! out = Some (mat3_apply va (mat3_apply vb vv))) /\
      basisRotateVec3 v b v h = Some (v, <[v := basisRotateVec3_inplace_val vb vv]> h)) /\
  (exists vb vv, length vb = 9%nat /\ length vv = 3%nat /\
                 basisRotateVec3_inplace_val vb vv <> mat3_apply vb vv).
Proof.
  split.
  - intros h out c t a b v va vb vv o oc ot Ha Hva Hb Hvb Hv Hvv Ho Hlen Hc Hoc Ht Hot
      Hne Htv Hot'.
    assert (Hcv : c <> v) by (intros ->; rewrite Hc in Hv; injection Hv as ->; lia).
    assert (Hco : out <> c) by (intros ->; rewrite Hc in Ho; injection Ho as ->; lia).
    assert (Hta : t <> a) by (intros ->; rewrite Ht in Ha; injection Ha as ->; lia).
    split; [ | split; [ | split ] ].
    + rewrite <- basisRotateVec3_val_apply by assumption.
      exact (basisRotateVec3_run h out b v vb vv o Hb Hvb Hv Hvv Ho Hlen Hne).
    + apply wp_run_ret. step. call basisMul_run. call basisRotateVec3_run.
      split; [ reflexivity | ].
      rewrite lookup_insert_eq. f_equal.
      rewrite basisRotateVec3_val_apply, basisMul_val_prod by (reflexivity || assumption).
      apply mat3_apply_prod; assumption.
    + apply wp_run_ret. step. call basisRotateVec3_run. call basisRotateVec3_run.
      split; [ reflexivity | ].
      rewrite lookup_insert_eq. reflexivity.
    + exact (basisRotateVec3_inplace_run h b v vb vv Hb Hvb Hv Hvv).
  - exists [0; 1; 0; 1; 0; 0; 0; 0; 1], [1; 2; 3].
    split; [ reflexivity | split; [ reflexivity | ] ].
    unfold basisRotateVec3_inplace_val, mat3_apply, mat3_entry.
    cbn [nth Nat.mul Nat.add map]. to_R.
    intros Heq. apply (f_equal (fun l => nth 1 l 0)) in Heq. cbn [nth] in Heq. lra.
Qed.

Lemma basisRotateVec3_applies_rows_witness :
  basisRotateVec3 6 2 4 euler_store
    = Some (6%positive,
            <[6%positive := mat3_apply [0; 0; 1; 0; 1; 0; -1; 0; 0] [4; 5; 6]]> euler_store).
Proof.
  destruct basisRotateVec3_applies_rows as [Hall _].
  apply (Hall euler_store 6%positive 5%positive 1%positive 3%positive 2%positive
           4%positive [0; 1; 0; 0; 0; 1; 1; 0; 0] [0; 0; 1; 0; 1; 0; -1; 0; 0] [4; 5; 6]
           [0; 0; 0] [0; 0; 0; 0; 0; 0; 0; 0; 0] [1; 1 / 2; -1]);
    first [ reflexivity | discriminate ].
Defined.

(** *** Inverse, transpose and determinant *)

Lemma basisTranspose_val_transpose (b : list R) :
  length b = 9%nat -> basisTranspose_val b = mat3_transpose b.
Proof. intros Hb. explode. reflexivity. Qed.

Lemma rotation_inverse_transpose (b : list R) :
  is_rotation b -> basisInverse_val b = basisTranspose_val b.
Proof.
  intros (Hb & H00 & H11 & H22 & H01 & H02 & H12 & Hdet).
  rewrite <- basisDeterminant_val_det in Hdet by assumption.
  unfold basisInverse_val, EPSILON. rewrite Hdet. to_R.
  rewrite Rabs_R1. rewrite (proj2 (Rltb_false _ _)) by lra.
  explode. unfold basisTranspose_val, mat3_entry, basisDeterminant_val in *.
  cbn [nth Nat.mul Nat.add] in *. to_R.
  replace (1 / 1) with 1 by field. rewrite !Rmult_1_r.
  each ltac:(nsatz).
Qed.

Lemma rotation_transpose_inverse (b : list R) :
  is_rotation b -> mat3_inverse_of b (mat3_transpose b).
Proof.
  intros Hrot. pose proof Hrot as (Hb & _).
  rewrite <- basisTranspose_val_transpose, <- rotation_inverse_transpose by assumption.
  apply basisInverse_val_inverse; [ assumption | ].
  destruct Hrot as (_ & _ & _ & _ & _ & _ & _ & ->). rewrite Rabs_R1. lra.
Qed.

(** X13.  For a basis that holds a rotation, [basisInverse(out, b)] and
    [basisTranspose(out, b)] (with [out] distinct from [b]) leave the same
    array in [out]: the transpose, which is the two-sided inverse. *)
Theorem basisInverse_of_rotation_is_transpose :
  forall (h : heap R) out b vb o,
    h !! b = Some vb -> is_rotation vb ->
    h !! out = Some o -> length o = 9%nat ->
    out <> b ->
    basisInverse out b h = Some (out, <[out := mat3_transpose vb]> h) /\
    basisTranspose out b h = Some (out, <[out := mat3_transpose vb]> h) /\
    mat3_inverse_of vb (mat3_transpose vb).
Proof.
  intros h out b vb o Hb Hrot Ho Hlen Hne. pose proof Hrot as (Hvb & _).
  split; [ | split ].
  - rewrite <- basisTranspose_val_transpose, <- rotation_inverse_transpose by assumption.
    exact (basisInverse_run h out b vb o Hb Hvb Ho Hlen Hne).
  - rewrite <- basisTranspose_val_transpose by assumption.
    exact (basisTranspose_run h out b vb o Hb Hvb Ho Hlen).
  - apply rotation_transpose_inverse; assumption.
Qed.

Lemma basisInverse_of_rotation_is_transpose_witness :
  basisInverse 5 3 euler_store
    = Some (5%positive,
            <[5%positive := mat3_transpose [0; 1; 0; 0; 0; 1; 1; 0; 0]]> euler_store).
Proof.
  apply (basisInverse_of_rotation_is_transpose euler_store 5%positive 3%positive
           [0; 1; 0; 0; 0; 1; 1; 0; 0] [0; 0; 0; 0; 0; 0; 0; 0; 0]);
    first [ reflexivity | discriminate | exact (proj1 permutation_is_rotation) ].
Defined.

Lemma mat3_det_prod (a b : list R) :
  length a = 9%nat -> length b = 9%nat ->
  mat3_det (mat3_prod a b) = mat3_det a * mat3_det b.
Proof.
  intros Ha Hb. explode. unfold mat3_det, mat3_prod, mat3_entry.
  cbn [nth Nat.mul Nat.add flat_map map app]. ring.
Qed.

Lemma mat3_det_transpose (a : list R) :
  length a = 9%nat -> mat3_det (mat3_transpose a) = mat3_det a.
Proof.
  intros Ha. explode. unfold mat3_det, mat3_transpose, mat3_entry.
  cbn [nth Nat.mul Nat.add flat_map map app]. ring.
Qed.

(** X14.  The determinant [basisDeterminant] computes is multiplicative and
    invariant under transposition: after [basisMul(out, a, b)] the
    determinant of [out] is the product of those of [a] and [b], and after
    [basisTranspose(out, a)] it is that of [a] ([out] may be an input). *)
Theorem basisDeterminant_multiplicative :
  forall (h : heap R) out a b va vb o,
    h !! a = Some va -> length va = 9%nat ->
    h !! b = Some vb -> length vb = 9%nat ->
    h !! out = Some o -> length o = 9%nat ->
    (basisMul out a b ;; basisDeterminant out) h
      = Some (mat3_det va * mat3_det vb, <[out := mat3_prod va vb]> h) /\
    (basisTranspose out a ;; basisDeterminant out) h
      = Some (mat3_det va, <[out := mat3_transpose va]> h).
Proof.
  intros h out a b va vb o Ha Hva Hb Hvb Ho Hlen.
  split; apply wp_run_eq.
  - step. call basisMul_run. call basisDeterminant_run.
    rewrite basisDeterminant_val_det, basisMul_val_prod by (reflexivity || assumption).
    split; [ apply mat3_det_prod; assumption | reflexivity ].
  - step. call basisTranspose_run. call basisDeterminant_run.
    rewrite basisDeterminant_val_det, basisTranspose_val_transpose
      by (reflexivity || assumption).
    split; [ apply mat3_det_transpose; assumption | reflexivity ].
Qed.

Lemma basisDeterminant_multiplicative_witness :
  (basisMul 5 2 3 ;; basisDeterminant 5) euler_store
    = Some (mat3_det [0; 0; 1; 0; 1; 0; -1; 0; 0] * mat3_det [0; 1; 0; 0; 0; 1; 1; 0; 0],
            <[5%positive := mat3_prod [0; 0; 1; 0; 1; 0; -1; 0; 0]
                                      [0; 1; 0; 0; 0; 1; 1; 0; 0]]> euler_store).
Proof.
  apply (basisDeterminant_multiplicative euler_store 5%positive 2%positive 3%positive
           [0; 0; 1; 0; 1; 0; -1; 0; 0] [0; 1; 0; 0; 0; 1; 1; 0; 0]
           [0; 0; 0; 0; 0; 0; 0; 0; 0]); reflexivity.
Defined.

(** *** Back to Euler angles *)

Lemma Ratan2_neg_sin_cos (t : R) :
  - (PI / 2) < t < PI / 2 -> Ratan2 (- sin t) (cos t) = - t.
Proof.
  intros Ht. assert (Hc : 0 < cos t) by (apply cos_gt_0; lra).
  unfold Ratan2. destruct (Rlt_dec 0 (cos t)) as [_|Hn]; [ | contradiction ].
  replace (- sin t / cos t) with (tan (- t)).
  - apply atan_tan. lra.
  - rewrite tan_neg. unfold tan. field. lra.
Qed.

Lemma basisToEuler_of_euler (x y z : R) :
  - (PI / 2) < x < PI / 2 -> - (PI / 2) < y < PI / 2 -> - (PI / 2) < z < PI / 2 ->
  basisToEuler_val (basisFromEuler_val [x; y; z]) = [- y; - z; - x].
Proof.
  intros Hx Hy Hz.
  assert (Hcy : 0 < cos y) by (apply cos_gt_0; lra).
  assert (Hsy : -1 < sin y < 1).
  { assert (Hlo : sin (- (PI / 2)) < sin y) by (apply sin_increasing_1; lra).
    assert (Hhi : sin y < sin (PI / 2)) by (apply sin_increasing_1; lra).
    rewrite sin_neg in Hlo. rewrite sin_PI2 in Hlo, Hhi. lra. }
  unfold basisToEuler_val, basisFromEuler_val. cbn [nth]. to_reals.
  assert (Hge : Rleb 1 (Rabs (sin y)) = false).
  { unfold Rleb. destruct (Rle_dec 1 (Rabs (sin y))) as [Hle|_]; [ | reflexivity ].
    exfalso. revert Hle. unfold Rabs. destruct (Rcase_abs (sin y)); lra. }
  rewrite Hge.
  rewrite asin_sin by lra. rewrite cos_neg.
  replace (- cos y * sin z / cos y) with (- sin z) by (field; lra).
  replace (cos y * cos z / cos y) with (cos z) by (field; lra).
  replace (- sin x * cos y / cos y) with (- sin x) by (field; lra).
  replace (cos x * cos y / cos y) with (cos x) by (field; lra).
  rewrite !Ratan2_neg_sin_cos by assumption. reflexivity.
Qed.

(** X15.  Euler angles do not survive the round trip through a basis: for
    angles strictly between [-PI/2] and [PI/2],
    [basisToEuler(basisFromEuler([x, y, z]))] returns [[-y, -z, -x]], the
    angles negated and in another order. *)
Theorem basisToEuler_of_basisFromEuler :
  forall (h : heap R) euler x y z,
    h !! euler = Some [x; y; z] ->
    - (PI / 2) < x < PI / 2 -> - (PI / 2) < y < PI / 2 -> - (PI / 2) < z < PI / 2 ->
    exists r h',
      (let* b := basisFromEuler euler in basisToEuler b) h = Some (r, h') /\
      h' !! r = Some [- y; - z; - x] /\
      (x <> 0 \/ y <> 0 \/ z <> 0 -> [- y; - z; - x] <> [x; y; z]).
Proof.
  intros h euler x y z He Hx Hy Hz.
  assert (Hwp : wp (let* b := basisFromEuler euler in basisToEuler b) h
                  (fun r h' => h' !! r = Some [- y; - z; - x])).
  { step. eapply basisFromEuler_wp; [ eassumption | reflexivity | ].
    intros b Hb.
    eapply basisToEuler_wp; [ solve_lookup | reflexivity | ].
    intros r Hr. rewrite lookup_insert_eq. f_equal.
    apply basisToEuler_of_euler; assumption. }
  apply wp_run in Hwp. destruct Hwp as (r & h' & Hrun & Hres).
  exists r, h'. split; [ exact Hrun | split; [ exact Hres | ] ].
  intros Hnz Heq. injection Heq as H1 H2 H3. lra.
Qed.

Lemma basisToEuler_of_basisFromEuler_witness :
  exists r h',
    (let* b := basisFromEuler 1 in basisToEuler b) euler_store = Some (r, h') /\
    h' !! r = Some [- (1 / 2); - -1; - 1].
Proof.
  pose proof PI2_1 as Hpi.
  destruct (basisToEuler_of_basisFromEuler euler_store 1%positive 1 (1 / 2) (-1))
    as (r & h' & Hrun & Hres & _); first [ reflexivity | lra | idtac ].
  exists r, h'. auto.
Defined.

(** ** 3x3 matrices of the plane *)

Lemma mat3Mul_val_prod (a b : list R) :
  length a = 9%nat -> length b = 9%nat -> mat3Mul_val a b = cmat3_prod a b.
Proof.
  intros Ha Hb. explode. unfold mat3Mul_val, mat3Mul_col, cmat3_prod, cmat3_entry.
  cbn [nth Nat.mul Nat.add flat_map map app]. to_R. each ltac:(ring).
Qed.

Lemma mat3Translate_val_prod (a v : list R) :
  length a = 9%nat -> length v = 2%nat ->
  mat3Translate_val a v = mat3Mul_val a (mat3FromTranslation_val v).
Proof.
  intros Ha Hv. explode.
  unfold mat3Translate_val, mat3Mul_val, mat3Mul_col, mat3FromTranslation_val.
  cbn [nth app]. to_R. each ltac:(ring).
Qed.

Lemma mat3Rotate_val_prod (a : list R) (rad : R) :
  length a = 9%nat ->
  mat3Rotate_val a rad = mat3Mul_val a (mat3FromRotation_val rad).
Proof.
  intros Ha. explode.
  unfold mat3Rotate_val, mat3Mul_val, mat3Mul_col, mat3FromRotation_val.
  cbn [nth app]. to_R. each ltac:(ring).
Qed.

Lemma mat3Scale_val_prod (a v : list R) :
  length a = 9%nat -> length v = 2%nat ->
  mat3Scale_val a v = mat3Mul_val a (mat3FromScaling_val v).
Proof.
  intros Ha Hv. explode.
  unfold mat3Scale_val, mat3Mul_val, mat3Mul_col, mat3FromScaling_val.
  cbn [nth app]. to_R. each ltac:(ring).
Qed.

(** X16.  [mat3Translate], [mat3Rotate] and [mat3Scale] multiply on the
    right: each leaves in [out] (which may be [a]) what [mat3Mul(out, a, T)]
    leaves there for the matrix [T] that [mat3FromTranslation],
    [mat3FromRotation] or [mat3FromScaling] builds, and that is the product
    [a × T] of the matrices stored by columns. *)
Theorem mat3_transforms_multiply_on_the_right :
  forall (h : heap R) out a v rad va vv o,
    h !! a = Some va -> length va = 9%nat ->
    h !! v = Some vv -> length vv = 2%nat ->
    h !! out = Some o -> length o = 9%nat ->
    (exists h1 h2,
        mat3Translate out a v h = Some (out, h1) /\
        (let* t := mat3FromTranslation v in mat3Mul out a t) h = Some (out, h2) /\
        h1 !! out = h2 !! out /\
        h1 !! out = Some (cmat3_prod va [1; 0; 0; 0; 1; 0; nth 0 vv 0; nth 1 vv 0; 1])) /\
    (exists h1 h2,
        mat3Rotate out a rad h = Some (out, h1) /\
        (let* t := mat3FromRotation rad in mat3Mul out a t) h = Some (out, h2) /\
        h1 !! out = h2 !! out /\
        h1 !! out
          = Some (cmat3_prod va [cos rad; sin rad; 0; - sin rad; cos rad; 0; 0; 0; 1])) /\
    (exists h1 h2,
        mat3Scale out a v h = Some (out, h1) /\
        (let* t := mat3FromScaling v in mat3Mul out a t) h = Some (out, h2) /\
        h1 !! out = h2 !! out /\
        h1 !! out = Some (cmat3_prod va [nth 0 vv 0; 0; 0; 0; nth 1 vv 0; 0; 0; 0; 1])).
Proof.
  intros h out a v rad va vv o Ha Hva Hv Hvv Ho Hlen.
  split; [ | split ].
  - assert (Hwp : wp (let* t := mat3FromTranslation v in mat3Mul out a t) h
                    (fun r h2 => r = out /\
                       h2 !! out = Some (mat3Mul_val va (mat3FromTranslation_val vv)))).
    { step. eapply mat3FromTranslation_wp; [ solve_lookup | assumption | ].
      intros t Ht. call mat3Mul_run.
      split; [ reflexivity | apply lookup_insert_eq ]. }
    apply wp_run_ret in Hwp. destruct Hwp as (h2 & Hrun2 & Hout2).
    exists (<[out := mat3Translate_val va vv]> h), h2.
    split; [ exact (mat3Translate_run h out a v va vv o Ha Hva Hv Hvv Ho Hlen) | ].
    split; [ exact Hrun2 | ].
    rewrite Hout2, lookup_insert_eq, mat3Translate_val_prod by assumption.
    split; [ reflexivity | ].
    rewrite mat3Mul_val_prod by (reflexivity || assumption). reflexivity.
  - assert (Hwp : wp (let* t := mat3FromRotation rad in mat3Mul out a t) h
                    (fun r h2 => r = out /\
                       h2 !! out = Some (mat3Mul_val va (mat3FromRotation_val rad)))).
    { step. eapply mat3FromRotation_wp.
      intros t Ht. call mat3Mul_run.
      split; [ reflexivity | apply lookup_insert_eq ]. }
    apply wp_run_ret in Hwp. destruct Hwp as (h2 & Hrun2 & Hout2).
    exists (<[out := mat3Rotate_val va rad]> h), h2.
    split; [ exact (mat3Rotate_run h out a rad va o Ha Hva Ho Hlen) | ].
    split; [ exact Hrun2 | ].
    rewrite Hout2, lookup_insert_eq, mat3Rotate_val_prod by assumption.
    split; [ reflexivity | ].
    rewrite mat3Mul_val_prod by (reflexivity || assumption). reflexivity.
  - assert (Hwp : wp (let* t := mat3FromScaling v in mat3Mul out a t) h
                    (fun r h2 => r = out /\
                       h2 !! out = Some (mat3Mul_val va (mat3FromScaling_val vv)))).
    { step. eapply mat3FromScaling_wp; [ solve_lookup | assumption | ].
      intros t Ht. call mat3Mul_run.
      split; [ reflexivity | apply lookup_insert_eq ]. }
    apply wp_run_ret in Hwp. destruct Hwp as (h2 & Hrun2 & Hout2).
    exists (<[out := mat3Scale_val va vv]> h), h2.
    split; [ exact (mat3Scale_run h out a v va vv o Ha Hva Hv Hvv Ho Hlen) | ].
    split; [ exact Hrun2 | ].
    rewrite Hout2, lookup_insert_eq, mat3Scale_val_prod by assumption.
    split; [ reflexivity | ].
    rewrite mat3Mul_val_prod by (reflexivity || assumption). reflexivity.
Qed.

Lemma mat3_transforms_multiply_on_the_right_witness :
  exists h1 h2,
    mat3Translate 1 1 3 plane_store = Some (1%positive, h1) /\
    (let* t := mat3FromTranslation 3 in mat3Mul 1 1 t) plane_store = Some (1%positive, h2) /\
    h1 !! 1%positive = h2 !! 1%positive.
Proof.
  destruct (mat3_transforms_multiply_on_the_right plane_store 1%positive 1%positive
              3%positive 0 [2; 0; 0; 0; 3; 0; 1; 2; 1] [5; 7] [2; 0; 0; 0; 3; 0; 1; 2; 1])
    as ((h1 & h2 & Hrun1 & Hrun2 & Heq & _) & _); try reflexivity.
  exists h1, h2. auto.
Defined.

(** *** Transforming points *)

Lemma mat3TransformVec2_val_act (m v : list R) :
  length m = 9%nat -> length v = 2%nat -> mat3TransformVec2_val m v = cmat3_act m v.
Proof. intros Hm Hv. explode. reflexivity. Qed.

Lemma cmat3_act_prod (a b v : list R) :
  length a = 9%nat -> cmat3_affine b -> length v = 2%nat ->
  cmat3_act (cmat3_prod a b) v = cmat3_act a (cmat3_act b v).
Proof.
  intros Ha (Hb & H0 & H1 & H2) Hv. explode.
  unfold cmat3_act, cmat3_prod, cmat3_entry in *.
  cbn [nth Nat.mul Nat.add flat_map map app] in *. subst. each ltac:(ring).
Qed.

Lemma cmat3_act_inverse (a v : list R) :
  cmat3_affine a -> length v = 2%nat -> 1 / 1000000 <= Rabs (mat3_det a) ->
  cmat3_act (mat3Invert_val a) (cmat3_act a v) = v.
Proof.
  intros (Ha & H0 & H1 & H2) Hv Hdet.
  rewrite <- mat3Invert_det_det in Hdet by assumption.
  assert (Hne : mat3Invert_det a <> 0).
  { intros Hz. rewrite Hz, Rabs_R0 in Hdet. lra. }
  unfold mat3Invert_val.
  explode. unfold mat3Invert_det, cmat3_act, cmat3_entry in *.
  cbn [nth Nat.mul Nat.add map] in *. subst. to_R.
  match type of Hne with ?d <> 0 => set (D := d) in * end.
  assert (Hinv : D * (1 / D) = 1) by (field; exact Hne).
  generalize dependent (1 / D). intros i Hinv.
  unfold D in *. each ltac:(nsatz).
Qed.

Lemma mat3Invert_regular_run (h : heap R) out a va o :
  h !! a = Some va -> length va = 9%nat ->
  h !! out = Some o -> length o = 9%nat ->
  1 / 1000000 <= Rabs (mat3_det va) ->
  mat3Invert out a h = Some (Some out, <[out := mat3Invert_val va]> h).
Proof.
  intros Ha Hva Ho Hlen Hdet.
  rewrite (mat3Invert_run h out a va o Ha Hva Ho Hlen).
  rewrite mat3Invert_det_det by assumption.
  assert (Hlt : (fabs (mat3_det va) <? EPSILON)%num = false)
    by (unfold EPSILON; to_R; apply Rltb_false; exact Hdet).
  rewrite Hlt. reflexivity.
Qed.

(** X17.  [mat3TransformVec2(out, m, v)] (where [out] may be [v]) applies the
    matrix to the point [(x, y, 1)] and keeps the first two coordinates.  For
    an affine [b] (last row [(0, 0, 1)]) transforming by the product
    [mat3Mul(m, a, b)] is transforming by [b] first and by [a] second; and
    for an affine [a] whose determinant is not below [1e-6] in absolute
    value, transforming by [a] and then by the matrix [mat3Invert] computes
    gives the point back. *)
Theorem mat3TransformVec2_affine_action :
  forall (h : heap R) out m a b v va vb vv o om,
    h !! a = Some va -> length va = 9%nat ->
    h !! b = Some vb -> cmat3_affine vb ->
    h !! v = Some vv -> length vv = 2%nat ->
    h !! m = Some om -> length om = 9%nat ->
    h !! out = Some o -> length o = 2%nat ->
    mat3TransformVec2 out a v h = Some (out, <[out := cmat3_act va vv]> h) /\
    (exists h1, (mat3Mul m a b ;; mat3TransformVec2 out m v) h = Some (out, h1) /\
                h1 !! out = Some (cmat3_act va (cmat3_act vb vv))) /\
    (exists h2, (mat3TransformVec2 out b v ;; mat3TransformVec2 out a out) h
                  = Some (out, h2) /\
                h2 !! out = Some (cmat3_act va (cmat3_act vb vv))) /\
    (m <> b -> 1 / 1000000 <= Rabs (mat3_det vb) ->
     exists h3, (mat3Invert m b ;; mat3TransformVec2 out b v ;; mat3TransformVec2 out m out) h
                  = Some (out, h3) /\
                h3 !! out = Some vv).
Proof.
  intros h out m a b v va vb vv o om Ha Hva Hb Haff Hv Hvv Hm Hom Ho Hlen.
  pose proof Haff as (Hvb & _).
  assert (Hmo : out <> m) by (intros ->; rewrite Hm in Ho; injection Ho as ->; lia).
  assert (Hao : out <> a) by (intros ->; rewrite Ha in Ho; injection Ho as ->; lia).
  assert (Hbo : out <> b) by (intros ->; rewrite Hb in Ho; injection Ho as ->; lia).
  assert (Hmv : m <> v) by (intros ->; rewrite Hm in Hv; injection Hv as ->; lia).
  split; [ | split; [ | split ] ].
  - rewrite <- mat3TransformVec2_val_act by assumption.
    exact (mat3TransformVec2_run h out a v va vv o Ha Hva Hv Hvv Ho Hlen).
  - apply wp_run_ret. step. call mat3Mul_run. call mat3TransformVec2_run.
    split; [ reflexivity | ].
    rewrite lookup_insert_eq. f_equal.
    rewrite mat3TransformVec2_val_act, mat3Mul_val_prod by (reflexivity || assumption).
    apply cmat3_act_prod; assumption.
  - apply wp_run_ret. step. call mat3TransformVec2_run. call mat3TransformVec2_run.
    split; [ reflexivity | ].
    rewrite insert_insert_eq, lookup_insert_eq. reflexivity.
  - intros Hmb Hdet. apply wp_run_ret. step.
    call mat3Invert_regular_run.
    step. call mat3TransformVec2_run. call mat3TransformVec2_run.
    split; [ reflexivity | ].
    rewrite insert_insert_eq, lookup_insert_eq. f_equal.
    rewrite !mat3TransformVec2_val_act by (reflexivity || assumption).
    apply cmat3_act_inverse; assumption.
Qed.

Lemma plane_store_affine : cmat3_affine [2; 0; 0; 0; 3; 0; 1; 2; 1].
Proof. unfold cmat3_affine, cmat3_entry. cbn [nth Nat.mul Nat.add length]. auto. Qed.

Lemma mat3TransformVec2_affine_action_witness :
  mat3TransformVec2 6 2 3 plane_store
    = Some (6%positive,
            <[6%positive := cmat3_act [1; 0; 0; 0; 1; 0; 3; 4; 1] [5; 7]]> plane_store).
Proof.
  apply (mat3TransformVec2_affine_action plane_store 6%positive 4%positive 2%positive
           1%positive 3%positive [1; 0; 0; 0; 1; 0; 3; 4; 1] [2; 0; 0; 0; 3; 0; 1; 2; 1]
           [5; 7] [0; 0] [0; 0; 0; 0; 0; 0; 0; 0; 0]);
    first [ reflexivity | exact plane_store_affine ].
Defined.

(** ** 4x4 matrices *)

Lemma mat4Translate_val_prod (m v : list R) :
  length m = 16%nat -> length v = 3%nat ->
  mat4Translate_val m v = mat4Mul_val m (mat4FromTranslation_val v).
Proof.
  intros Hm Hv. explode.
  unfold mat4Translate_val, mat4Mul_val, mat4Mul_row, mat4FromTranslation_val.
  cbn [nth app]. to_R. each ltac:(ring).
Qed.

Lemma mat4Scale_val_prod (m v : list R) :
  length m = 16%nat -> length v = 3%nat ->
  mat4Scale_val m v = mat4Mul_val m (mat4FromScale_val v).
Proof.
  intros Hm Hv. explode.
  unfold mat4Scale_val, mat4Mul_val, mat4Mul_row, mat4FromScale_val.
  cbn [nth app]. to_R. each ltac:(ring).
Qed.

Lemma mat4RotateX_val_prod (m : list R) (rad : R) :
  length m = 16%nat ->
  mat4RotateX_val m rad = mat4Mul_val m (mat4FromXRotation_val rad).
Proof.
  intros Hm. explode.
  unfold mat4RotateX_val, mat4Mul_val, mat4Mul_row, mat4FromXRotation_val.
  cbn [nth app]. to_R. each ltac:(ring).
Qed.

Lemma mat4RotateY_val_prod (m : list R) (rad : R) :
  length m = 16%nat ->
  mat4RotateY_val m rad = mat4Mul_val m (mat4FromYRotation_val rad).
Proof.
  intros Hm. explode.
  unfold mat4RotateY_val, mat4Mul_val, mat4Mul_row, mat4FromYRotation_val.
  cbn [nth app]. to_R. each ltac:(ring).
Qed.

Lemma mat4RotateZ_val_prod (m : list R) (rad : R) :
  length m = 16%nat ->
  mat4RotateZ_val m rad = mat4Mul_val m (mat4FromZRotation_val rad).
Proof.
  intros Hm. explode.
  unfold mat4RotateZ_val, mat4Mul_val, mat4Mul_row, mat4FromZRotation_val.
  cbn [nth app]. to_R. each ltac:(ring).
Qed.

(** X18.  [mat4Translate] and [mat4Scale] multiply on the right: each leaves
    in [out] (which may be [m] itself; [mat4Translate] has a separate branch
    for that case) what [mat4Mul(out, m, T)] leaves there for the matrix [T]
    that [mat4FromTranslation] or [mat4FromScale] builds, that is the product
    [m × T]: the translation or scaling is applied to a point before [m]. *)
Theorem mat4Translate_mat4Scale_multiply_on_the_right :
  forall (h : heap R) out m v vm vv o,
    h !! m = Some vm -> length vm = 16%nat ->
    h !! v = Some vv -> length vv = 3%nat ->
    h !! out = Some o -> length o = 16%nat ->
    (exists h1 h2,
        mat4Translate out m v h = Some (out, h1) /\
        (let* t := mat4FromTranslation v in mat4Mul out m t) h = Some (out, h2) /\
        h1 !! out = h2 !! out /\
        h1 !! out
          = Some (mat4_prod vm [1; 0; 0; 0; 0; 1; 0; 0; 0; 0; 1; 0;
                                nth 0 vv 0; nth 1 vv 0; nth 2 vv 0; 1])) /\
    (exists h1 h2,
        mat4Scale out m v h = Some (out, h1) /\
        (let* t := mat4FromScale v in mat4Mul out m t) h = Some (out, h2) /\
        h1 !! out = h2 !! out /\
        h1 !! out
          = Some (mat4_prod vm [nth 0 vv 0; 0; 0; 0; 0; nth 1 vv 0; 0; 0;
                                0; 0; nth 2 vv 0; 0; 0; 0; 0; 1])).
Proof.
  intros h out m v vm vv o Hm Hvm Hv Hvv Ho Hlen.
  split.
  - assert (Hwp : wp (let* t := mat4FromTranslation v in mat4Mul out m t) h
                    (fun r h2 => r = out /\
                       h2 !! out = Some (mat4Mul_val vm (mat4FromTranslation_val vv)))).
    { step. eapply mat4FromTranslation_wp; [ solve_lookup | assumption | ].
      intros t Ht. call mat4Mul_run.
      split; [ reflexivity | apply lookup_insert_eq ]. }
    apply wp_run_ret in Hwp. destruct Hwp as (h2 & Hrun2 & Hout2).
    exists (<[out := mat4Translate_val vm vv]> h), h2.
    split; [ exact (mat4Translate_run h out m v vm vv o Hm Hvm Hv Hvv Ho Hlen) | ].
    split; [ exact Hrun2 | ].
    rewrite Hout2, lookup_insert_eq, mat4Translate_val_prod by assumption.
    split; [ reflexivity | ].
    rewrite mat4Mul_val_prod by (reflexivity || assumption). reflexivity.
  - assert (Hwp : wp (let* t := mat4FromScale v in mat4Mul out m t) h
                    (fun r h2 => r = out /\
                       h2 !! out = Some (mat4Mul_val vm (mat4FromScale_val vv)))).
    { step. eapply mat4FromScale_wp; [ solve_lookup | assumption | ].
      intros t Ht. call mat4Mul_run.
      split; [ reflexivity | apply lookup_insert_eq ]. }
    apply wp_run_ret in Hwp. destruct Hwp as (h2 & Hrun2 & Hout2).
    exists (<[out := mat4Scale_val vm vv]> h), h2.
    split; [ exact (mat4Scale_run h out m v vm vv o Hm Hvm Hv Hvv Ho Hlen) | ].
    split; [ exact Hrun2 | ].
    rewrite Hout2, lookup_insert_eq, mat4Scale_val_prod by assumption.
    split; [ reflexivity | ].
    rewrite mat4Mul_val_prod by (reflexivity || assumption). reflexivity.
Qed.

Lemma mat4Translate_mat4Scale_multiply_on_the_right_witness :
  exists h1 h2,
    mat4Translate 1 1 2 space_store = Some (1%positive, h1) /\
    (let* t := mat4FromTranslation 2 in mat4Mul 1 1 t) space_store = Some (1%positive, h2) /\
    h1 !! 1%positive = h2 !! 1%positive.
Proof.
  destruct (mat4Translate_mat4Scale_multiply_on_the_right space_store 1%positive
              1%positive 2%positive [2; 0; 0; 0; 0; 2; 0; 0; 0; 0; 2; 0; 1; 2; 3; 1]
              [1; 2; 3] [2; 0; 0; 0; 0; 2; 0; 0; 0; 0; 2; 0; 1; 2; 3; 1])
    as ((h1 & h2 & Hrun1 & Hrun2 & Heq & _) & _); try reflexivity.
  exists h1, h2. auto.
Defined.

(** X19.  [mat4RotateX], [mat4RotateY] and [mat4RotateZ] multiply on the
    right as well: each leaves in [out] (which may be [m]) what
    [mat4Mul(out, m, R)] leaves there for the matrix [R] that
    [mat4FromXRotation], [mat4FromYRotation] or [mat4FromZRotation] builds for
    the same angle. *)
Theorem mat4Rotate_multiplies_on_the_right :
  forall (h : heap R) out m rad vm o,
    h !! m = Some vm -> length vm = 16%nat ->
    h !! out = Some o -> length o = 16%nat ->
    (exists h1 h2,
        mat4RotateX out m rad h = Some (out, h1) /\
        (let* t := mat4FromXRotation rad in mat4Mul out m t) h = Some (out, h2) /\
        h1 !! out = h2 !! out /\
        h1 !! out
          = Some (mat4_prod vm [1; 0; 0; 0; 0; cos rad; sin rad; 0;
                                0; - sin rad; cos rad; 0; 0; 0; 0; 1])) /\
    (exists h1 h2,
        mat4RotateY out m rad h = Some (out, h1) /\
        (let* t := mat4FromYRotation rad in mat4Mul out m t) h = Some (out, h2) /\
        h1 !! out = h2 !! out /\
        h1 !! out
          = Some (mat4_prod vm [cos rad; 0; - sin rad; 0; 0; 1; 0; 0;
                                sin rad; 0; cos rad; 0; 0; 0; 0; 1])) /\
    (exists h1 h2,
        mat4RotateZ out m rad h = Some (out, h1) /\
        (let* t := mat4FromZRotation rad in mat4Mul out m t) h = Some (out, h2) /\
        h1 !! out = h2 !! out /\
        h1 !! out
          = Some (mat4_prod vm [cos rad; sin rad; 0; 0; - sin rad; cos rad; 0; 0;
                                0; 0; 1; 0; 0; 0; 0; 1])).
Proof.
  intros h out m rad vm o Hm Hvm Ho Hlen.
  split; [ | split ].
  - assert (Hwp : wp (let* t := mat4FromXRotation rad in mat4Mul out m t) h
                    (fun r h2 => r = out /\
                       h2 !! out = Some (mat4Mul_val vm (mat4FromXRotation_val rad)))).
    { step. eapply mat4FromXRotation_wp.
      intros t Ht. call mat4Mul_run.
      split; [ reflexivity | apply lookup_insert_eq ]. }
    apply wp_run_ret in Hwp. destruct Hwp as (h2 & Hrun2 & Hout2).
    exists (<[out := mat4RotateX_val vm rad]> h), h2.
    split; [ exact (mat4RotateX_run h out m rad vm o Hm Hvm Ho Hlen) | ].
    split; [ exact Hrun2 | ].
    rewrite Hout2, lookup_insert_eq, mat4RotateX_val_prod by assumption.
    split; [ reflexivity | ].
    rewrite mat4Mul_val_prod by (reflexivity || assumption). reflexivity.
  - assert (Hwp : wp (let* t := mat4FromYRotation rad in mat4Mul out m t) h
                    (fun r h2 => r = out /\
                       h2 !! out = Some (mat4Mul_val vm (mat4FromYRotation_val rad)))).
    { step. eapply mat4FromYRotation_wp.
      intros t Ht. call mat4Mul_run.
      split; [ reflexivity | apply lookup_insert_eq ]. }
    apply wp_run_ret in Hwp. destruct Hwp as (h2 & Hrun2 & Hout2).
    exists (<[out := mat4RotateY_val vm rad]> h), h2.
    split; [ exact (mat4RotateY_run h out m rad vm o Hm Hvm Ho Hlen) | ].
    split; [ exact Hrun2 | ].
    rewrite Hout2, lookup_insert_eq, mat4RotateY_val_prod by assumption.
    split; [ reflexivity | ].
    rewrite mat4Mul_val_prod by (reflexivity || assumption). reflexivity.
  - assert (Hwp : wp (let* t := mat4FromZRotation rad in mat4Mul out m t) h
                    (fun r h2 => r = out /\
                       h2 !! out = Some (mat4Mul_val vm (mat4FromZRotation_val rad)))).
    { step. eapply mat4FromZRotation_wp.
      intros t Ht. call mat4Mul_run.
      split; [ reflexivity | apply lookup_insert_eq ]. }
    apply wp_run_ret in Hwp. destruct Hwp as (h2 & Hrun2 & Hout2).
    exists (<[out := mat4RotateZ_val vm rad]> h), h2.
    split; [ exact (mat4RotateZ_run h out m rad vm o Hm Hvm Ho Hlen) | ].
    split; [ exact Hrun2 | ].
    rewrite Hout2, lookup_insert_eq, mat4RotateZ_val_prod by assumption.
    split; [ reflexivity | ].
    rewrite mat4Mul_val_prod by (reflexivity || assumption). reflexivity.
Qed.

Lemma mat4Rotate_multiplies_on_the_right_witness :
  exists h1 h2,
    mat4RotateZ 4 1 PI space_store = Some (4%positive, h1) /\
    (let* t := mat4FromZRotation PI in mat4Mul 4 1 t) space_store = Some (4%positive, h2) /\
    h1 !! 4%positive = h2 !! 4%positive.
Proof.
  destruct (mat4Rotate_multiplies_on_the_right space_store 4%positive 1%positive PI
              [2; 0; 0; 0; 0; 2; 0; 0; 0; 0; 2; 0; 1; 2; 3; 1]
              [0; 0; 0; 0; 0; 0; 0; 0; 0; 0; 0; 0; 0; 0; 0; 0])
    as (_ & _ & (h1 & h2 & Hrun1 & Hrun2 & Heq & _)); try reflexivity.
  exists h1, h2. auto.
Defined.

(** *** Rotation about an axis *)

Lemma mat4FromRotation_val_regular (rad : R) (v : list R) :
  length v = 3%nat -> 1 / 1000000 <= sqrt (vec3_dot v v) ->
  mat4FromRotation_val rad v = mat4SetBasis_val mat4_identity (basisFromAxisAngle_val v rad).
Proof.
  intros Hv Hlen. explode.
  unfold mat4FromRotation_val, mat4SetBasis_val, basisFromAxisAngle_val, vec3Normalize_val,
    mat4_identity, vec3_dot, EPSILON in *.
  cbn [nth] in *. to_R.
  set (len := sqrt (r * r + r0 * r0 + r1 * r1)) in *.
  rewrite (proj2 (Rltb_false len (1 / 1000000))) by lra.
  rewrite (proj2 (Reqb_false len 0)) by lra. cbn [nth].
  each ltac:(field; lra).
Qed.

Lemma mat4FromRotation_val_degenerate (rad : R) (v : list R) :
  length v = 3%nat -> sqrt (vec3_dot v v) < 1 / 1000000 ->
  mat4FromRotation_val rad v = mat4_identity.
Proof.
  intros Hv Hlen. explode.
  unfold mat4FromRotation_val, mat4_identity, vec3_dot, EPSILON in *.
  cbn [nth] in *. to_R.
  rewrite (proj2 (Rltb_true _ _) Hlen). reflexivity.
Qed.

Lemma tiny_axis_half_turn :
  basisFromAxisAngle_val [0; 0; 1 / 10000000] PI = [-1; 0; 0; 0; -1; 0; 0; 0; 1].
Proof.
  unfold basisFromAxisAngle_val, vec3Normalize_val. cbn [nth]. to_R.
  replace (0 * 0 + 0 * 0 + 1 / 10000000 * (1 / 10000000))
    with ((1 / 10000000) * (1 / 10000000)) by ring.
  rewrite sqrt_square by lra.
  rewrite (proj2 (Reqb_false _ 0)) by lra. cbn [nth].
  rewrite cos_PI, sin_PI. each ltac:(field).
Qed.

(** X20.  [mat4FromRotation(rad, axis)] returns a new matrix.  When the
    length of the axis is at least [1e-6] its upper-left block holds the
    entries of [basisFromAxisAngle(axis, rad)] and the rest is that of the
    identity; when the length is below [1e-6] it is the identity matrix,
    whereas [basisFromAxisAngle] still normalises such an axis: for the axis
    [(0, 0, 1e-7)] and the angle [PI] it gives the half turn about z. *)
Theorem mat4FromRotation_and_basisFromAxisAngle :
  (forall (h : heap R) axis rad v,
      h !! axis = Some v -> length v = 3%nat ->
      exists r h',
        mat4FromRotation rad axis h = Some (r, h') /\
        h !! r = None /\ h' !! r = Some (mat4FromRotation_val rad v) /\
        (1 / 1000000 <= sqrt (vec3_dot v v) ->
         mat4FromRotation_val rad v
           = mat4SetBasis_val mat4_identity (basisFromAxisAngle_val v rad)) /\
        (sqrt (vec3_dot v v) < 1 / 1000000 ->
         mat4FromRotation_val rad v = mat4_identity)) /\
  mat4FromRotation_val PI [0; 0; 1 / 10000000] = mat4_identity /\
  basisFromAxisAngle_val [0; 0; 1 / 10000000] PI = [-1; 0; 0; 0; -1; 0; 0; 0; 1].
Proof.
  split; [ | split ].
  - intros h axis rad v Hv Hlen.
    assert (Hwp : wp (mat4FromRotation rad axis) h
                    (fun r h' => h !! r = None /\
                                 h' !! r = Some (mat4FromRotation_val rad v))).
    { eapply mat4FromRotation_wp; [ eassumption | assumption | ].
      intros r Hr. split; [ assumption | apply lookup_insert_eq ]. }
    apply wp_run in Hwp. destruct Hwp as (r & h' & Hrun & Hnew & Hres).
    exists r, h'. do 3 (split; [ assumption | ]). split.
    + apply mat4FromRotation_val_regular; assumption.
    + apply mat4FromRotation_val_degenerate; assumption.
  - apply mat4FromRotation_val_degenerate; [ reflexivity | ].
    unfold vec3_dot. cbn [nth].
    replace (0 * 0 + 0 * 0 + 1 / 10000000 * (1 / 10000000))
      with ((1 / 10000000) * (1 / 10000000)) by ring.
    rewrite sqrt_square by lra. lra.
  - exact tiny_axis_half_turn.
Qed.

Lemma mat4FromRotation_and_basisFromAxisAngle_witness :
  exists r h',
    mat4FromRotation PI 3 space_store = Some (r, h') /\
    h' !! r = Some (mat4FromRotation_val PI [0; 0; 5]).
Proof.
  destruct mat4FromRotation_and_basisFromAxisAngle as [Hall _].
  destruct (Hall space_store 3%positive PI [0; 0; 5]) as (r & h' & Hrun & _ & Hres & _);
    try reflexivity.
  exists r, h'. auto.
Defined.

(** *** The view matrix *)

(** one of the two normalisations [if (!len) ... else ...]: the factor is
    [0] or [1 / len] *)
Ltac step_falsy HQ :=
  lazymatch goal with
  | |- wp (match (if falsy ?l then _ else _) with _ => _ end) _ _ =>
      destruct (falsy l) eqn:?;
      [ specialize (HQ 0) | specialize (HQ (1 / l)) ];
      cbv beta iota zeta
  end.

Lemma mat4LookAt_near (h : heap R) out eye center up ve vc vu o :
  h !! eye = Some ve -> length ve = 3%nat ->
  h !! center = Some vc -> length vc = 3%nat ->
  h !! up = Some vu -> length vu = 3%nat ->
  h !! out = Some o -> length o = 16%nat ->
  Rabs (nth 0 ve 0 - nth 0 vc 0) < 1 / 1000000 ->
  Rabs (nth 1 ve 0 - nth 1 vc 0) < 1 / 1000000 ->
  Rabs (nth 2 ve 0 - nth 2 vc 0) < 1 / 1000000 ->
  mat4LookAt out eye center up h = Some (out, <[out := mat4_identity]> h).
Proof.
  intros He Hve Hc Hvc Hu Hvu Ho Hlen H0 H1 H2. apply wp_run_eq.
  assert (Hoe : out <> eye) by (intros ->; rewrite He in Ho; injection Ho as ->; lia).
  assert (Hoc : out <> center) by (intros ->; rewrite Hc in Ho; injection Ho as ->; lia).
  assert (Hou : out <> up) by (intros ->; rewrite Hu in Ho; injection Ho as ->; lia).
  explode. cbn [nth] in *.
  unfold mat4LookAt, mat4Identity, EPSILON. do 18 step. to_R.
  rewrite (proj2 (Rltb_true _ _) H0), (proj2 (Rltb_true _ _) H1),
    (proj2 (Rltb_true _ _) H2).
  cbn [andb]. steps. split; reflexivity.
Qed.

(** the matrix [mat4LookAt] writes when the eye is away from the target *)
Lemma mat4LookAt_wp (h : heap R) out e0 e1 e2 c0 c1 c2 u0 u1 u2 eye center up o
    (Q : loc -> heap R -> Prop) :
  h !! eye = Some [e0; e1; e2] ->
  h !! center = Some [c0; c1; c2] ->
  h !! up = Some [u0; u1; u2] ->
  h !! out = Some o -> length o = 16%nat ->
  ~ (Rabs (e0 - c0) < 1 / 1000000 /\ Rabs (e1 - c1) < 1 / 1000000 /\
     Rabs (e2 - c2) < 1 / 1000000) ->
  (forall k kx ky,
      k * sqrt ((e0 - c0) * (e0 - c0) + (e1 - c1) * (e1 - c1) + (e2 - c2) * (e2 - c2)) = 1 ->
      let z0 := (e0 - c0) * k in
      let z1 := (e1 - c1) * k in
      let z2 := (e2 - c2) * k in
      let x0 := (u1 * z2 - u2 * z1) * kx in
      let x1 := (u2 * z0 - u0 * z2) * kx in
      let x2 := (u0 * z1 - u1 * z0) * kx in
      let y0 := (z1 * x2 - z2 * x1) * ky in
      let y1 := (z2 * x0 - z0 * x2) * ky in
      let y2 := (z0 * x1 - z1 * x0) * ky in
      forall m,
        m = [ x0; y0; z0; 0; x1; y1; z1; 0; x2; y2; z2; 0;
              - (x0 * e0 + x1 * e1 + x2 * e2);
              - (y0 * e0 + y1 * e1 + y2 * e2);
              - (z0 * e0 + z1 * e1 + z2 * e2); 1 ] ->
        Q out (<[out := m]> h)) ->
  wp (mat4LookAt out eye center up) h Q.
Proof.
  intros He Hc Hu Ho Hlen Hfar HQ.
  assert (Hoe : out <> eye) by (intros ->; rewrite He in Ho; injection Ho as <-; cbn in Hlen; lia).
  assert (Hoc : out <> center) by (intros ->; rewrite Hc in Ho; injection Ho as <-; cbn in Hlen; lia).
  assert (Hou : out <> up) by (intros ->; rewrite Hu in Ho; injection Ho as <-; cbn in Hlen; lia).
  explode.
  set (s := (e0 - c0) * (e0 - c0) + (e1 - c1) * (e1 - c1) + (e2 - c2) * (e2 - c2)) in *.
  assert (Hs : 0 < s).
  { destruct (Req_dec s 0) as [Hz|Hnz].
    - exfalso. apply Hfar. unfold s in Hz.
      pose proof (Rle_0_sqr (e0 - c0)) as P0. pose proof (Rle_0_sqr (e1 - c1)) as P1.
      pose proof (Rle_0_sqr (e2 - c2)) as P2. unfold Rsqr in P0, P1, P2.
      assert (H0 : e0 - c0 = 0) by (apply Rsqr_0_uniq; unfold Rsqr; lra).
      assert (H1 : e1 - c1 = 0) by (apply Rsqr_0_uniq; unfold Rsqr; lra).
      assert (H2 : e2 - c2 = 0) by (apply Rsqr_0_uniq; unfold Rsqr; lra).
      rewrite H0, H1, H2, Rabs_R0. lra.
    - pose proof (Rle_0_sqr (e0 - c0)) as P0. pose proof (Rle_0_sqr (e1 - c1)) as P1.
      pose proof (Rle_0_sqr (e2 - c2)) as P2. unfold Rsqr in P0, P1, P2.
      unfold s in *. lra. }
  assert (HL : 0 < sqrt s) by (apply sqrt_lt_R0; exact Hs).
  unfold mat4LookAt, EPSILON. do 18 step. to_R.
  assert (Hnear : Rltb (Rabs (e0 - c0)) (1 / 1000000) && Rltb (Rabs (e1 - c1)) (1 / 1000000)
                  && Rltb (Rabs (e2 - c2)) (1 / 1000000) = false).
  { destruct (Rltb (Rabs (e0 - c0)) _) eqn:H0; [ | reflexivity ].
    destruct (Rltb (Rabs (e1 - c1)) _) eqn:H1; [ | reflexivity ].
    destruct (Rltb (Rabs (e2 - c2)) _) eqn:H2; [ | reflexivity ].
    exfalso. apply Hfar. rewrite !Rltb_true in *. auto. }
  rewrite Hnear. fold s.
  specialize (HQ (1 / sqrt s)).
  step_falsy HQ; step_falsy HQ; steps.
  all: eapply HQ; [ field; lra | each ltac:(ring) ].
Qed.

(** where such a matrix takes the eye and the target *)
Lemma lookAt_matrix_maps (e0 e1 e2 c0 c1 c2 u0 u1 u2 k kx ky : R) :
  let s := (e0 - c0) * (e0 - c0) + (e1 - c1) * (e1 - c1) + (e2 - c2) * (e2 - c2) in
  0 < s -> k * sqrt s = 1 ->
  let z0 := (e0 - c0) * k in
  let z1 := (e1 - c1) * k in
  let z2 := (e2 - c2) * k in
  let x0 := (u1 * z2 - u2 * z1) * kx in
  let x1 := (u2 * z0 - u0 * z2) * kx in
  let x2 := (u0 * z1 - u1 * z0) * kx in
  let y0 := (z1 * x2 - z2 * x1) * ky in
  let y1 := (z2 * x0 - z0 * x2) * ky in
  let y2 := (z0 * x1 - z1 * x0) * ky in
  let m := [ x0; y0; z0; 0; x1; y1; z1; 0; x2; y2; z2; 0;
             - (x0 * e0 + x1 * e1 + x2 * e2);
             - (y0 * e0 + y1 * e1 + y2 * e2);
             - (z0 * e0 + z1 * e1 + z2 * e2); 1 ] in
  mat4TransformVec3_val m [e0; e1; e2] = [0; 0; 0] /\
  mat4TransformVec3_val m [c0; c1; c2] = [0; 0; - sqrt s].
Proof.
  intros s Hs Hk z0 z1 z2 x0 x1 x2 y0 y1 y2 m.
  pose proof (sqrt_sqrt s (Rlt_le _ _ Hs)) as HLL.
  assert (Hks : k * s = sqrt s).
  { rewrite <- HLL at 1. rewrite <- Rmult_assoc, Hk. ring. }
  unfold mat4TransformVec3_val. subst m. cbn [nth]. to_R.
  replace (0 * e0 + 0 * e1 + 0 * e2 + 1) with 1 by ring.
  replace (0 * c0 + 0 * c1 + 0 * c2 + 1) with 1 by ring.
  rewrite (proj2 (Reqb_false 1 0)) by lra.
  unfold Rdiv. rewrite Rinv_1, !Rmult_1_r.
  split.
  - each ltac:(ring).
  - rewrite <- Hks. subst x0 x1 x2 y0 y1 y2 z0 z1 z2 s. each ltac:(ring).
Qed.

(** X21.  When the three coordinates of the eye and of the target differ by
    less than [1e-6], [mat4LookAt] writes the identity matrix.  Otherwise the
    matrix it writes takes the eye to the origin and the target to the point
    [(0, 0, -d)] on the negative z axis, [d] being the distance between the
    two, whatever the up vector is. *)
Theorem mat4LookAt_places_eye_and_target :
  forall (h : heap R) out p eye center up e0 e1 e2 c0 c1 c2 u0 u1 u2 o op,
    h !! eye = Some [e0; e1; e2] ->
    h !! center = Some [c0; c1; c2] ->
    h !! up = Some [u0; u1; u2] ->
    h !! out = Some o -> length o = 16%nat ->
    h !! p = Some op -> length op = 3%nat ->
    let near := Rabs (e0 - c0) < 1 / 1000000 /\ Rabs (e1 - c1) < 1 / 1000000 /\
                Rabs (e2 - c2) < 1 / 1000000 in
    (near -> mat4LookAt out eye center up h = Some (out, <[out := mat4_identity]> h)) /\
    (~ near ->
     exists h1 h2,
       (mat4LookAt out eye center up ;; mat4TransformVec3 p out eye) h = Some (p, h1) /\
       h1 !! p = Some [0; 0; 0] /\
       (mat4LookAt out eye center up ;; mat4TransformVec3 p out center) h = Some (p, h2) /\
       h2 !! p =
         Some [0; 0; - sqrt ((e0 - c0) * (e0 - c0) + (e1 - c1) * (e1 - c1)
                             + (e2 - c2) * (e2 - c2))]).
Proof.
  intros h out p eye center up e0 e1 e2 c0 c1 c2 u0 u1 u2 o op He Hc Hu Ho Hlen Hp Hop near.
  assert (Hpo : p <> out) by (intros ->; rewrite Hp in Ho; injection Ho as ->; lia).
  assert (Hoe : out <> eye)
    by (intros ->; rewrite He in Ho; injection Ho as <-; cbn in Hlen; lia).
  assert (Hoc : out <> center)
    by (intros ->; rewrite Hc in Ho; injection Ho as <-; cbn in Hlen; lia).
  split.
  - intros (H0 & H1 & H2).
    eapply mat4LookAt_near; try eassumption; reflexivity.
  - intros Hfar.
    set (s := (e0 - c0) * (e0 - c0) + (e1 - c1) * (e1 - c1) + (e2 - c2) * (e2 - c2)).
    assert (Hs : 0 < s).
    { pose proof (Rle_0_sqr (e0 - c0)) as P0. pose proof (Rle_0_sqr (e1 - c1)) as P1.
      pose proof (Rle_0_sqr (e2 - c2)) as P2. unfold Rsqr in P0, P1, P2.
      destruct (Req_dec s 0) as [Hz|Hnz]; [ | unfold s in *; lra ].
      exfalso. apply Hfar. unfold s in Hz.
      assert (H0 : e0 - c0 = 0) by (apply Rsqr_0_uniq; unfold Rsqr; lra).
      assert (H1 : e1 - c1 = 0) by (apply Rsqr_0_uniq; unfold Rsqr; lra).
      assert (H2 : e2 - c2 = 0) by (apply Rsqr_0_uniq; unfold Rsqr; lra).
      unfold near. rewrite H0, H1, H2, Rabs_R0. lra. }
    assert (Heye : wp (mat4LookAt out eye center up ;; mat4TransformVec3 p out eye) h
                     (fun r h1 => r = p /\ h1 !! p = Some [0; 0; 0])).
    { step. eapply mat4LookAt_wp; try eassumption.
      intros k kx ky Hk z0 z1 z2 x0 x1 x2 y0 y1 y2 m ->.
      call mat4TransformVec3_run.
      split; [ reflexivity | ]. rewrite lookup_insert_eq. f_equal.
      apply (lookAt_matrix_maps e0 e1 e2 c0 c1 c2 u0 u1 u2 k kx ky Hs Hk). }
    assert (Hcen : wp (mat4LookAt out eye center up ;; mat4TransformVec3 p out center) h
                     (fun r h2 => r = p /\ h2 !! p = Some [0; 0; - sqrt s])).
    { step. eapply mat4LookAt_wp; try eassumption.
      intros k kx ky Hk z0 z1 z2 x0 x1 x2 y0 y1 y2 m ->.
      call mat4TransformVec3_run.
      split; [ reflexivity | ]. rewrite lookup_insert_eq. f_equal.
      apply (lookAt_matrix_maps e0 e1 e2 c0 c1 c2 u0 u1 u2 k kx ky Hs Hk). }
    apply wp_run_ret in Heye. destruct Heye as (h1 & Hrun1 & Hres1).
    apply wp_run_ret in Hcen. destruct Hcen as (h2 & Hrun2 & Hres2).
    exists h1, h2. auto.
Qed.

Lemma mat4LookAt_places_eye_and_target_witness :
  exists h1 h2,
    (mat4LookAt 4 2 3 6 ;; mat4TransformVec3 5 4 2) space_store = Some (5%positive, h1) /\
    h1 !! 5%positive = Some [0; 0; 0] /\
    (mat4LookAt 4 2 3 6 ;; mat4TransformVec3 5 4 3) space_store = Some (5%positive, h2) /\
    h2 !! 5%positive =
      Some [0; 0; - sqrt ((1 - 0) * (1 - 0) + (2 - 0) * (2 - 0) + (3 - 5) * (3 - 5))].
Proof.
  apply (mat4LookAt_places_eye_and_target space_store 4%positive 5%positive 2%positive
           3%positive 6%positive 1 2 3 0 0 5 0 1 0
           [0; 0; 0; 0; 0; 0; 0; 0; 0; 0; 0; 0; 0; 0; 0; 0] [0; 0; 0]);
    try reflexivity.
  intros [H _]. rewrite Rabs_right in H; lra.
Defined.

(** *** Projections *)

(** X22.  For a box with [left <> right], [bottom <> top] and [near <> far],
    the matrix that [mat4Ortho] writes, applied by [mat4TransformVec3], takes
    the point [(x, y, z)] to
    [((2x - left - right) / (right - left), (2y - bottom - top) / (top - bottom),
      (-2z - far - near) / (far - near))]:
    the corner [(left, bottom, -near)] goes to [(-1, -1, -1)] and the corner
    [(right, top, -far)] to [(1, 1, 1)]. *)
Theorem mat4Ortho_maps_box_to_cube :
  forall (h : heap R) out p v x y z left right bottom top near far o op,
    h !! v = Some [x; y; z] ->
    h !! out = Some o -> length o = 16%nat ->
    h !! p = Some op -> length op = 3%nat ->
    left <> right -> bottom <> top -> near <> far ->
    exists h' X Y Z,
      (mat4Ortho out left right bottom top near far ;; mat4TransformVec3 p out v) h
        = Some (p, h') /\
      h' !! p = Some [X; Y; Z] /\
      X = (2 * x - left - right) / (right - left) /\
      Y = (2 * y - bottom - top) / (top - bottom) /\
      Z = (- 2 * z - far - near) / (far - near) /\
      (x = left -> X = -1) /\ (x = right -> X = 1) /\
      (y = bottom -> Y = -1) /\ (y = top -> Y = 1) /\
      (z = - near -> Z = -1) /\ (z = - far -> Z = 1).
Proof.
  intros h out p v x y z left right bottom top near far o op
    Hv Ho Hlen Hp Hop Hlr Hbt Hnf.
  assert (Hpo : p <> out) by (intros ->; rewrite Hp in Ho; injection Ho as ->; lia).
  assert (Hov : out <> v)
    by (intros ->; rewrite Hv in Ho; injection Ho as <-; cbn in Hlen; lia).
  assert (Hwp : wp (mat4Ortho out left right bottom top near far ;;
                    mat4TransformVec3 p out v) h
                  (fun r h' => r = p /\
                     h' !! p = Some [ (2 * x - left - right) / (right - left);
                                      (2 * y - bottom - top) / (top - bottom);
                                      (- 2 * z - far - near) / (far - near) ])).
  { step. call mat4Ortho_run. call mat4TransformVec3_run.
    split; [ reflexivity | ]. rewrite lookup_insert_eq. f_equal.
    unfold mat4TransformVec3_val, mat4Ortho_val. cbn [nth]. to_R.
    match goal with |- context [Reqb ?w 0] => replace w with 1 by (field; lra) end.
    rewrite (proj2 (Reqb_false 1 0)) by lra.
    each ltac:(field; lra). }
  apply wp_run_ret in Hwp. destruct Hwp as (h' & Hrun & Hres).
  exists h', ((2 * x - left - right) / (right - left)),
    ((2 * y - bottom - top) / (top - bottom)),
    ((- 2 * z - far - near) / (far - near)).
  do 5 (split; [ first [ assumption | reflexivity ] | ]).
  repeat split; intros ->; field; lra.
Qed.

Lemma mat4Ortho_maps_box_to_cube_witness :
  exists h' X Y Z,
    (mat4Ortho 4 (-2) 2 (-1) 1 1 11 ;; mat4TransformVec3 5 4 2) space_store
      = Some (5%positive, h') /\
    h' !! 5%positive = Some [X; Y; Z] /\
    X = (2 * 1 - (-2) - 2) / (2 - (-2)) /\
    Y = (2 * 2 - (-1) - 1) / (1 - (-1)) /\
    Z = (- 2 * 3 - 11 - 1) / (11 - 1).
Proof.
  destruct (mat4Ortho_maps_box_to_cube space_store 4%positive 5%positive 2%positive
              1 2 3 (-2) 2 (-1) 1 1 11
              [0; 0; 0; 0; 0; 0; 0; 0; 0; 0; 0; 0; 0; 0; 0; 0] [0; 0; 0])
    as (h' & X & Y & Z & Hrun & Hres & HX & HY & HZ & _);
    try reflexivity; try lra.
  exists h', X, Y, Z. auto.
Defined.

(** X23.  For [tan (fovy / 2) <> 0], [aspect <> 0] and [near <> far], the
    matrix that [mat4Perspective] writes, applied by [mat4TransformVec3],
    divides by the distance [-z] in front of the eye: a point of the plane
    [z = -near] gets the depth [-1], a point of the plane [z = -far] the depth
    [1], and both have [x] and [y] scaled by [f / (aspect * d)] and [f / d],
    with [f = 1 / tan (fovy / 2)] and [d] the distance of the plane.  A point
    of the plane [z = 0] of the eye is not divided at all. *)
Theorem mat4Perspective_depth_range :
  forall (h : heap R) out p v x y z fovy aspect near far o op,
    h !! v = Some [x; y; z] ->
    h !! out = Some o -> length o = 16%nat ->
    h !! p = Some op -> length op = 3%nat ->
    tan (fovy / 2) <> 0 -> aspect <> 0 -> near <> far ->
    let f := 1 / tan (fovy / 2) in
    exists h' X Y Z,
      (mat4Perspective out fovy aspect near far ;; mat4TransformVec3 p out v) h
        = Some (p, h') /\
      h' !! p = Some [X; Y; Z] /\
      (z = - near -> near <> 0 ->
       X = f * x / (aspect * near) /\ Y = f * y / near /\ Z = -1) /\
      (z = - far -> far <> 0 ->
       X = f * x / (aspect * far) /\ Y = f * y / far /\ Z = 1) /\
      (z = 0 ->
       X = f * x / aspect /\ Y = f * y /\ Z = 2 * far * near / (near - far)).
Proof.
  intros h out p v x y z fovy aspect near far o op
    Hv Ho Hlen Hp Hop Htan Hasp Hnf f.
  assert (Hpo : p <> out) by (intros ->; rewrite Hp in Ho; injection Ho as ->; lia).
  assert (Hov : out <> v)
    by (intros ->; rewrite Hv in Ho; injection Ho as <-; cbn in Hlen; lia).
  assert (Hwp : wp (mat4Perspective out fovy aspect near far ;;
                    mat4TransformVec3 p out v) h
                  (fun r h' => r = p /\
                     h' !! p = Some (mat4TransformVec3_val
                                       (mat4Perspective_val fovy aspect near far)
                                       [x; y; z]))).
  { step. call mat4Perspective_run. call mat4TransformVec3_run.
    split; [ reflexivity | ]. rewrite lookup_insert_eq. reflexivity. }
  apply wp_run_ret in Hwp. destruct Hwp as (h' & Hrun & Hres).
  revert Hres. unfold mat4TransformVec3_val, mat4Perspective_val. cbn [nth]. to_reals.
  fold f.
  replace (0 * x + 0 * y + -1 * z + 0) with (- z) by ring.
  destruct (Reqb (- z) 0) eqn:Hz; intros Hres.
  - apply Reqb_true in Hz.
    exists h'. do 3 eexists. split; [ exact Hrun | ]. split; [ exact Hres | ].
    split; [ | split ].
    + intros -> Hn. exfalso. lra.
    + intros -> Hn. exfalso. lra.
    + intros _. assert (z = 0) as -> by lra.
      repeat split; field; lra.
  - apply Reqb_false in Hz.
    exists h'. do 3 eexists. split; [ exact Hrun | ]. split; [ exact Hres | ].
    split; [ | split ].
    + intros -> Hn. repeat split; field; repeat split; lra.
    + intros -> Hn. repeat split; field; repeat split; lra.
    + intros ->. exfalso. lra.
Qed.

Lemma mat4Perspective_depth_range_witness :
  exists h' X Y Z,
    (mat4Perspective 4 (PI / 2) 2 3 10 ;; mat4TransformVec3 5 4 7) space_store
      = Some (5%positive, h') /\
    h' !! 5%positive = Some [X; Y; Z] /\
    X = 1 / tan (PI / 2 / 2) * 1 / (2 * 3) /\ Y = 1 / tan (PI / 2 / 2) * 2 / 3 /\ Z = -1.
Proof.
  assert (Htan : tan (PI / 2 / 2) <> 0).
  { replace (PI / 2 / 2) with (PI / 4) by field. rewrite tan_PI4. lra. }
  destruct (mat4Perspective_depth_range space_store 4%positive 5%positive 7%positive
              1 2 (-3) (PI / 2) 2 3 10
              [0; 0; 0; 0; 0; 0; 0; 0; 0; 0; 0; 0; 0; 0; 0; 0] [0; 0; 0])
    as (h' & X & Y & Z & Hrun & Hres & Hnear & _);
    try reflexivity; try lra; try exact Htan.
  exists h', X, Y, Z. split; [ exact Hrun | ]. split; [ exact Hres | ].
  apply Hnear; lra.
Defined.

(** ** Vectors *)

(** *** Reflection *)

Lemma vec3Reflect_val_facts (v n : list R) :
  length v = 3%nat -> vec3_unit n ->
  vec3_dot (vec3Reflect_val v n) n = - vec3_dot v n /\
  vec3_dot (vec3Reflect_val v n) (vec3Reflect_val v n) = vec3_dot v v /\
  vec3Reflect_val (vec3Reflect_val v n) n = v.
Proof.
  intros Hv [Hn Hu]. explode. revert Hu.
  unfold vec3Reflect_val, vec3_dot. cbn [nth]. to_R. intros Hu.
  split; [ | split ].
  - nsatz.
  - nsatz.
  - each ltac:(nsatz).
Qed.

(** X24.  [vec3Reflect(out, incident, normal)] leaves
    [incident - 2 (incident . normal) normal] in [out], whichever of the
    three arrays coincide.  For a unit normal the component along the normal
    changes sign and the length is kept, and reflecting the result again (with
    [out] other than the normal) gives the incident vector back. *)
Theorem vec3Reflect_unit_normal :
  forall (h : heap R) out i n vi vn o,
    h !! i = Some vi -> length vi = 3%nat ->
    h !! n = Some vn -> vec3_unit vn ->
    h !! out = Some o -> length o = 3%nat ->
    exists h1,
      vec3Reflect out i n h = Some (out, h1) /\
      h1 !! out = Some (vec3Reflect_val vi vn) /\
      vec3_dot (vec3Reflect_val vi vn) vn = - vec3_dot vi vn /\
      vec3_dot (vec3Reflect_val vi vn) (vec3Reflect_val vi vn) = vec3_dot vi vi /\
      (out <> n ->
       exists h2,
         (vec3Reflect out i n ;; vec3Reflect out out n) h = Some (out, h2) /\
         h2 !! out = Some vi).
Proof.
  intros h out i n vi vn o Hi Hvi Hn Hu Ho Hlen.
  pose proof Hu as [Hvn _].
  destruct (vec3Reflect_val_facts vi vn Hvi Hu) as (Hflip & Hkeep & Hback).
  assert (H1 : wp (vec3Reflect out i n) h
                 (fun r h1 => r = out /\ h1 !! out = Some (vec3Reflect_val vi vn))).
  { eapply vec3Reflect_wp; try eassumption.
    intros t tv Ht. split; [ reflexivity | apply lookup_insert_eq ]. }
  apply wp_run_ret in H1. destruct H1 as (h1 & Hrun1 & Hres1).
  exists h1. do 4 (split; [ assumption | ]).
  intros Hon.
  apply wp_run_ret. step.
  eapply vec3Reflect_wp; try eassumption.
  intros t tv Ht. cbv beta.
  eapply vec3Reflect_wp; [ apply lookup_insert_eq | reflexivity | solve_lookup
                         | exact Hvn | apply lookup_insert_eq | reflexivity | ].
  intros t' tv' Ht'. split; [ reflexivity | ].
  rewrite lookup_insert_eq. f_equal. exact Hback.
Qed.

Lemma vec3Reflect_unit_normal_witness :
  exists h1,
    vec3Reflect 5 3 4 vector_store = Some (5%positive, h1) /\
    h1 !! 5%positive = Some (vec3Reflect_val [1; 2; 3] [0; 0; 1]).
Proof.
  destruct (vec3Reflect_unit_normal vector_store 5%positive 3%positive 4%positive
              [1; 2; 3] [0; 0; 1] [0; 0; 0])
    as (h1 & Hrun & Hres & _); try reflexivity.
  - split; [ reflexivity | unfold vec3_dot; cbn [nth]; lra ].
  - exists h1. auto.
Defined.

(** *** The cross product *)

Lemma vec3Cross_val_orthogonal (a b : list R) :
  vec3_dot (vec3Cross_val a b) a = 0 /\ vec3_dot (vec3Cross_val a b) b = 0.
Proof. unfold vec3Cross_val, vec3_dot. cbn [nth]. to_R. split; ring. Qed.

(** X25.  With [out] other than [a] and [b], [vec3Cross(out, a, b)] leaves
    in [out] a vector orthogonal to [a] and to [b], and
    [vec3Cross(out, b, a)] leaves its opposite.  Called in place
    ([out] is [a]), the second and third components are computed from
    components already overwritten: for the x and the y axis the result is
    the zero vector, not the z axis. *)
Theorem vec3Cross_orthogonal_unless_in_place :
  forall (h : heap R) out a b va vb o,
    h !! a = Some va -> length va = 3%nat ->
    h !! b = Some vb -> length vb = 3%nat ->
    h !! out = Some o -> length o = 3%nat ->
    (out <> a -> out <> b ->
     vec3Cross out a b h = Some (out, <[out := vec3Cross_val va vb]> h) /\
     vec3_dot (vec3Cross_val va vb) va = 0 /\
     vec3_dot (vec3Cross_val va vb) vb = 0 /\
     vec3Cross out b a h = Some (out, <[out := map Ropp (vec3Cross_val va vb)]> h)) /\
    (a <> b ->
     vec3Cross a a b h = Some (a, <[a := vec3Cross_inplace_val va vb]> h)) /\
    vec3Cross_val [1; 0; 0] [0; 1; 0] = [0; 0; 1] /\
    vec3Cross_inplace_val [1; 0; 0] [0; 1; 0] = [0; 0; 0].
Proof.
  intros h out a b va vb o Ha Hva Hb Hvb Ho Hlen.
  split; [ | split; [ | split ] ].
  - intros Hoa Hob.
    destruct (vec3Cross_val_orthogonal va vb) as [Hda Hdb].
    split; [ eapply vec3Cross_run; eassumption | ].
    do 2 (split; [ assumption | ]).
    replace (map Ropp (vec3Cross_val va vb)) with (vec3Cross_val vb va).
    + eapply vec3Cross_run; eassumption.
    + explode. unfold vec3Cross_val. cbn [nth map]. to_R. each ltac:(ring).
  - intros Hab. eapply vec3Cross_inplace_run; eassumption.
  - unfold vec3Cross_val. cbn [nth]. to_R. each ltac:(ring).
  - unfold vec3Cross_inplace_val. cbn [nth]. to_R. each ltac:(ring).
Qed.

Lemma vec3Cross_orthogonal_unless_in_place_witness :
  vec3Cross 5 3 7 vector_store
    = Some (5%positive, <[5%positive := vec3Cross_val [1; 2; 3] [4; 5; 6]]> vector_store) /\
  vec3Cross 3 3 7 vector_store
    = Some (3%positive,
            <[3%positive := vec3Cross_inplace_val [1; 2; 3] [4; 5; 6]]> vector_store).
Proof.
  destruct (vec3Cross_orthogonal_unless_in_place vector_store 5%positive 3%positive
              7%positive [1; 2; 3] [4; 5; 6] [0; 0; 0])
    as (Hout & Hin & _); try reflexivity.
  split.
  - apply Hout; discriminate.
  - apply Hin; discriminate.
Defined.

(** *** Rotation in the plane *)

Lemma vec2Rotate_val_facts (v : list R) (a b : R) :
  length v = 2%nat ->
  vec2Rotate_val (vec2Rotate_val v a) b = vec2Rotate_val v (a + b) /\
  vec2_dot (vec2Rotate_val v a) (vec2Rotate_val v a) = vec2_dot v v /\
  mat3TransformVec2_val (mat3FromRotation_val a) v = vec2Rotate_val v a.
Proof.
  intros Hv. explode.
  unfold vec2Rotate_val, vec2_dot, mat3TransformVec2_val, mat3FromRotation_val.
  cbn [nth]. to_R.
  split; [ | split ].
  - rewrite sin_plus, cos_plus. each ltac:(ring).
  - pose proof (sin2_cos2 a) as Hsc. unfold Rsqr in Hsc. nsatz.
  - each ltac:(ring).
Qed.

(** X26.  [vec2Rotate(out, v, angle)] turns [v] by the angle, also when
    [out] is [v] itself: the length is kept, turning the result by a second
    angle is turning [v] by the sum, and the matrix of
    [mat3FromRotation(angle)] applied by [mat3TransformVec2] gives the same
    vector. *)
Theorem vec2Rotate_turns :
  forall (h : heap R) out v vv a b o,
    h !! v = Some vv -> length vv = 2%nat ->
    h !! out = Some o -> length o = 2%nat ->
    vec2Rotate out v a h = Some (out, <[out := vec2Rotate_val vv a]> h) /\
    vec2_dot (vec2Rotate_val vv a) (vec2Rotate_val vv a) = vec2_dot vv vv /\
    (exists h1,
       (vec2Rotate out v a ;; vec2Rotate out out b) h = Some (out, h1) /\
       h1 !! out = Some (vec2Rotate_val vv (a + b))) /\
    (exists h2,
       (let* m := mat3FromRotation a in mat3TransformVec2 out m v) h = Some (out, h2) /\
       h2 !! out = Some (vec2Rotate_val vv a)).
Proof.
  intros h out v vv a b o Hv Hvv Ho Hlen.
  destruct (vec2Rotate_val_facts vv a b Hvv) as (Hsum & Hkeep & Hmat).
  split; [ eapply vec2Rotate_run; eassumption | ].
  split; [ assumption | ].
  split.
  - apply wp_run_ret. step. call vec2Rotate_run. call vec2Rotate_run.
    split; [ reflexivity | ]. rewrite lookup_insert_eq. f_equal. exact Hsum.
  - apply wp_run_ret. step. apply mat3FromRotation_wp. intros m Hm.
    call mat3TransformVec2_run.
    split; [ reflexivity | ]. rewrite lookup_insert_eq. f_equal. exact Hmat.
Qed.

Lemma vec2Rotate_turns_witness :
  vec2Rotate 1 1 (PI / 2) vector_store
    = Some (1%positive, <[1%positive := vec2Rotate_val [3; 4] (PI / 2)]> vector_store).
Proof.
  apply (vec2Rotate_turns vector_store 1%positive 1%positive [3; 4] (PI / 2) 0 [3; 4]);
    reflexivity.
Defined.

(** ** Integers *)

Local Open Scope Z_scope.

Lemma toInt32_small (z : Z) : (- 2 ^ 31 <= z < 2 ^ 31)%Z -> toInt32 z = z.
Proof. intros Hz. unfold toInt32. rewrite Z.mod_small; lia. Qed.

(** *** The next power of two *)

Lemma shl_pow2 (j : Z) : (0 <= j < 30)%Z -> shl (2 ^ j) 1 = (2 ^ (j + 1))%Z.
Proof.
  intros Hj. unfold shl. change (Z.land 1 31) with 1%Z.
  assert (H30 : (2 ^ j < 2 ^ 30)%Z) by (apply Z.pow_lt_mono_r; lia).
  assert (H0 : (0 < 2 ^ j)%Z) by (apply Z.pow_pos_nonneg; lia).
  rewrite (toInt32_small (2 ^ j)) by lia.
  rewrite Z.shiftl_mul_pow2 by lia.
  rewrite Z.pow_add_r by lia. change (2 ^ 1)%Z with 2%Z.
  apply toInt32_small. lia.
Qed.

Lemma nextPowerOf2_loop_finds (n : Z) (fuel : nat) :
  (n <= 2 ^ 30)%Z ->
  forall j : Z,
    (0 <= j <= 30)%Z -> (30 - j < Z.of_nat fuel)%Z ->
    (j = 0 \/ 2 ^ (j - 1) < n)%Z ->
    exists k : Z,
      (0 <= k <= 30)%Z /\
      nextPowerOf2_loop fuel (2 ^ j) n = Some (2 ^ k)%Z /\
      (n <= 2 ^ k)%Z /\ (k = 0 \/ 2 ^ (k - 1) < n)%Z.
Proof.
  intros Hn. induction fuel as [|fuel IH]; intros j Hj Hfuel Hlow; [ lia | ].
  cbn [nextPowerOf2_loop].
  destruct (Z.ltb_spec (2 ^ j) n) as [Hlt|Hge].
  - assert (Hj30 : (j < 30)%Z).
    { destruct (Z.eq_dec j 30) as [->|]; [ lia | lia ]. }
    rewrite shl_pow2 by lia.
    apply IH; [ lia | lia | ].
    right. replace (j + 1 - 1)%Z with j by lia. exact Hlt.
  - exists j. repeat split; first [ lia | exact Hlow ].
Qed.

Lemma nextPowerOf2_loop_zero (n : Z) (fuel : nat) :
  (0 < n)%Z -> nextPowerOf2_loop fuel 0 n = None.
Proof.
  intros Hn. induction fuel as [|fuel IH]; [ reflexivity | ].
  cbn [nextPowerOf2_loop].
  destruct (Z.ltb_spec 0 n) as [_|Hge]; [ | lia ].
  exact IH.
Qed.

Lemma nextPowerOf2_loop_wraps (n : Z) :
  (2 ^ 30 < n)%Z ->
  forall (m : nat) (fuel : nat),
    (m <= 30)%nat -> nextPowerOf2_loop fuel (2 ^ (30 - Z.of_nat m)) n = None.
Proof.
  intros Hn. induction m as [|m IH]; intros fuel Hm.
  - change (2 ^ (30 - Z.of_nat 0))%Z with (2 ^ 30)%Z.
    destruct fuel as [|fuel]; [ reflexivity | ].
    cbn [nextPowerOf2_loop].
    destruct (Z.ltb_spec (2 ^ 30) n) as [_|Hge]; [ | lia ].
    change (shl (2 ^ 30) 1) with (- 2 ^ 31)%Z.
    destruct fuel as [|fuel]; [ reflexivity | ].
    cbn [nextPowerOf2_loop].
    destruct (Z.ltb_spec (- 2 ^ 31) n) as [_|Hge]; [ | lia ].
    change (shl (- 2 ^ 31) 1) with 0%Z.
    apply nextPowerOf2_loop_zero. lia.
  - destruct fuel as [|fuel]; [ reflexivity | ].
    cbn [nextPowerOf2_loop].
    assert (Hp : (2 ^ (30 - Z.of_nat (S m)) < 2 ^ 30)%Z) by (apply Z.pow_lt_mono_r; lia).
    destruct (Z.ltb_spec (2 ^ (30 - Z.of_nat (S m))) n) as [_|Hge]; [ | lia ].
    rewrite shl_pow2 by lia.
    replace (30 - Z.of_nat (S m) + 1)%Z with (30 - Z.of_nat m)%Z by lia.
    apply IH. lia.
Qed.

(** X27.  For an integer [n], [nextPowerOf2(n)] returns [1] when [n <= 0] and
    [2] when [n = 1] (although [1] is a power of two); for [2 <= n <= 2^30] it
    returns the least power of two that is at least [n], after at most 31
    turns of its loop; for [n > 2^30] it never returns: [power] becomes
    [2^30], then [-2^31], then [0], and stays [0]. *)
Theorem nextPowerOf2_result :
  forall n : Z,
    ((n <= 0)%Z -> forall fuel, nextPowerOf2 fuel n = Some 1%Z) /\
    (n = 1%Z -> forall fuel, nextPowerOf2 fuel n = Some 2%Z) /\
    ((2 <= n <= 2 ^ 30)%Z ->
     exists k : Z,
       (1 <= k <= 30)%Z /\ (2 ^ (k - 1) < n <= 2 ^ k)%Z /\
       forall fuel, (31 <= fuel)%nat -> nextPowerOf2 fuel n = Some (2 ^ k)%Z) /\
    ((2 ^ 30 < n)%Z -> forall fuel, nextPowerOf2 fuel n = None).
Proof.
  intros n. split; [ | split; [ | split ] ].
  - intros Hn fuel. unfold nextPowerOf2.
    destruct (Z.leb_spec n 0); [ reflexivity | lia ].
  - intros -> fuel. reflexivity.
  - intros Hn.
    destruct (nextPowerOf2_loop_finds n 31 (proj2 Hn) 0) as (k & Hk & Hrun & Hle & Hleast);
      [ lia | lia | left; reflexivity | ].
    assert (Hk1 : (1 <= k)%Z).
    { destruct (Z.eq_dec k 0) as [->|]; [ | lia ]. change (2 ^ 0)%Z with 1%Z in Hle. lia. }
    exists k. split; [ lia | ]. split; [ destruct Hleast; lia | ].
    intros fuel Hfuel. unfold nextPowerOf2.
    destruct (Z.leb_spec n 0); [ lia | ].
    destruct (Z.eqb_spec n 1); [ lia | ].
    destruct (nextPowerOf2_loop_finds n fuel (proj2 Hn) 0)
      as (k' & Hk' & Hrun' & Hle' & Hleast'); [ lia | lia | left; reflexivity | ].
    change (2 ^ 0) with 1 in Hrun'. rewrite Hrun'. do 2 f_equal.
    destruct (Z.lt_trichotomy k k') as [Hlt|[Heq|Hgt]]; [ exfalso | exact (eq_sym Heq) | exfalso ].
    + assert ((2 ^ k <= 2 ^ (k' - 1))%Z) by (apply Z.pow_le_mono_r; lia).
      destruct Hleast'; lia.
    + assert ((2 ^ k' <= 2 ^ (k - 1))%Z) by (apply Z.pow_le_mono_r; lia).
      destruct Hleast; lia.
  - intros Hn fuel. unfold nextPowerOf2.
    destruct (Z.leb_spec n 0); [ lia | ].
    destruct (Z.eqb_spec n 1); [ lia | ].
    apply (nextPowerOf2_loop_wraps n Hn 30 fuel). lia.
Qed.

Lemma nextPowerOf2_result_witness :
  (exists k : Z,
     (1 <= k <= 30)%Z /\ (2 ^ (k - 1) < 1000 <= 2 ^ k)%Z /\
     forall fuel, (31 <= fuel)%nat -> nextPowerOf2 fuel 1000 = Some (2 ^ k)%Z) /\
  (forall fuel, nextPowerOf2 fuel (2 ^ 30 + 1) = None).
Proof.
  split.
  - apply (nextPowerOf2_result 1000). lia.
  - apply (nextPowerOf2_result (2 ^ 30 + 1)). lia.
Defined.

Local Close Scope Z_scope.

(** *** Packed colours *)

Lemma u32ToRgba_run {F : Type} `{!Scalar F} (h : heap F) out color o :
  h !! out = Some o -> length o = 4%nat ->
  u32ToRgba out color h = Some (out, <[out := u32ToRgba_val color]> h).
Proof.
  intros Ho Hlen. apply wp_run_eq. explode.
  unfold u32ToRgba, u32ToRgba_val. steps. finish.
Qed.

Local Open Scope Z_scope.

Lemma land_disjoint (q y k : Z) :
  0 <= k -> 0 <= y < 2 ^ k -> Z.land (q * 2 ^ k) y = 0.
Proof.
  intros Hk Hy. apply Z.bits_inj'. intros i Hi.
  rewrite Z.land_spec, Z.bits_0.
  destruct (Z.lt_ge_cases i k) as [Hlt|Hge].
  - rewrite Z.mul_pow2_bits_low by lia. reflexivity.
  - rewrite <- (Z.mod_small y (2 ^ k)) by lia.
    rewrite Z.mod_pow2_bits_high by lia. apply andb_false_r.
Qed.

Lemma lor_disjoint (q y k : Z) :
  0 <= k -> 0 <= y < 2 ^ k -> Z.lor (q * 2 ^ k) y = q * 2 ^ k + y.
Proof.
  intros Hk Hy. pose proof (land_disjoint q y k Hk Hy) as Hl.
  rewrite (Z.add_nocarry_lxor _ _ Hl). symmetry. apply Z.lxor_lor. exact Hl.
Qed.

Lemma pack_bytes (r8 g8 b8 a8 : Z) :
  0 <= r8 <= 255 -> 0 <= g8 <= 255 -> 0 <= b8 <= 255 -> 0 <= a8 <= 255 ->
  bor (bor (bor (shl a8 24) (shl b8 16)) (shl g8 8)) r8 = packed r8 g8 b8 a8.
Proof.
  intros Hr Hg Hb Ha.
  assert (HA : shl a8 24 = (a8 - (if 128 <=? a8 then 256 else 0)) * 2 ^ 24).
  { unfold shl. change (Z.land 24 31) with 24. rewrite (toInt32_small a8) by lia.
    rewrite Z.shiftl_mul_pow2 by lia. unfold toInt32.
    destruct (Z.leb_spec 128 a8); Z.div_mod_to_equations; lia. }
  assert (HB : shl b8 16 = b8 * 2 ^ 16).
  { unfold shl. change (Z.land 16 31) with 16. rewrite (toInt32_small b8) by lia.
    rewrite Z.shiftl_mul_pow2 by lia. apply toInt32_small. lia. }
  assert (HG : shl g8 8 = g8 * 2 ^ 8).
  { unfold shl. change (Z.land 8 31) with 8. rewrite (toInt32_small g8) by lia.
    rewrite Z.shiftl_mul_pow2 by lia. apply toInt32_small. lia. }
  rewrite HA, HB, HG. clear HA HB HG.
  set (a' := a8 - (if 128 <=? a8 then 256 else 0)).
  assert (Ha' : -128 <= a' <= 127) by (subst a'; destruct (Z.leb_spec 128 a8); lia).
  assert (H1 : bor (a' * 2 ^ 24) (b8 * 2 ^ 16) = (a' * 2 ^ 8 + b8) * 2 ^ 16).
  { unfold bor. rewrite !toInt32_small by lia.
    rewrite lor_disjoint by lia. lia. }
  rewrite H1.
  assert (H2 : bor ((a' * 2 ^ 8 + b8) * 2 ^ 16) (g8 * 2 ^ 8)
               = ((a' * 2 ^ 8 + b8) * 2 ^ 8 + g8) * 2 ^ 8).
  { unfold bor. rewrite !toInt32_small by lia.
    rewrite lor_disjoint by lia. lia. }
  rewrite H2.
  unfold bor. rewrite !toInt32_small by lia.
  rewrite lor_disjoint by lia.
  unfold packed. subst a'. destruct (Z.leb_spec 128 a8); lia.
Qed.

Lemma unpack_bytes (r8 g8 b8 a8 : Z) :
  0 <= r8 <= 255 -> 0 <= g8 <= 255 -> 0 <= b8 <= 255 -> 0 <= a8 <= 255 ->
  let c := packed r8 g8 b8 a8 in
  band c 255 = r8 /\ band (sar c 8) 255 = g8 /\
  band (sar c 16) 255 = b8 /\ band (sar c 24) 255 = a8.
Proof.
  intros Hr Hg Hb Ha c.
  assert (Hc : - 2 ^ 31 <= c < 2 ^ 31).
  { subst c. unfold packed. destruct (Z.leb_spec 128 a8); lia. }
  assert (Hbyte : forall x, - 2 ^ 31 <= x < 2 ^ 31 -> band x 255 = x mod 2 ^ 8).
  { intros x Hx. unfold band. rewrite !toInt32_small by lia.
    change 255 with (Z.ones 8). apply Z.land_ones. lia. }
  assert (Hsar : forall k, 0 <= k < 32 -> Z.land k 31 = k -> sar c k = c / 2 ^ k).
  { intros k Hk Hland. unfold sar. rewrite Hland, toInt32_small by lia.
    apply Z.shiftr_div_pow2. lia. }
  rewrite (Hsar 8), (Hsar 16), (Hsar 24) by (reflexivity || lia).
  assert (H8 : - 2 ^ 31 <= c / 2 ^ 8 < 2 ^ 31) by (Z.div_mod_to_equations; lia).
  assert (H16 : - 2 ^ 31 <= c / 2 ^ 16 < 2 ^ 31) by (Z.div_mod_to_equations; lia).
  assert (H24 : - 2 ^ 31 <= c / 2 ^ 24 < 2 ^ 31) by (Z.div_mod_to_equations; lia).
  rewrite !Hbyte by assumption.
  subst c. unfold packed in *.
  destruct (Z.leb_spec 128 a8); repeat split; Z.div_mod_to_equations; lia.
Qed.

Local Close Scope Z_scope.

Lemma channel_byte (x : R) :
  0 <= x <= 1 ->
  exists k : Z,
    (0 <= k <= 255)%Z /\ ftoInt32 (x * 255 + 1 / 2) = k /\
    Rabs (IZR k / 255 - x) <= 1 / 510 /\
    ((128 <= k)%Z <-> 1 / 2 <= x).
Proof.
  intros Hx. set (y := x * 255 + 1 / 2).
  destruct (base_Int_part y) as [Hlo Hhi].
  assert (Hk : (0 <= Int_part y <= 255)%Z).
  { assert (H0 : (-1 < Int_part y)%Z) by (apply lt_IZR; unfold y in *; lra).
    assert (H1 : (Int_part y < 256)%Z) by (apply lt_IZR; unfold y in *; lra).
    lia. }
  exists (Int_part y). split; [ exact Hk | ]. split; [ | split ].
  - cbn [ftoInt32 R_toint]. unfold Rtrunc.
    destruct (Rle_dec 0 y) as [_|Hn]; [ | unfold y in Hn; lra ].
    apply toInt32_small. lia.
  - apply Rabs_le. unfold y in *. lra.
  - split.
    + intros H128. apply IZR_le in H128. unfold y in *. lra.
    + intros Hhalf.
      assert (H127 : (127 < Int_part y)%Z) by (apply lt_IZR; unfold y in *; lra).
      lia.
Qed.

(** X28.  For channels in [[0, 1]], [rgbaToU32] rounds each channel to a byte
    and [u32ToRgba] of the packed integer gives the four bytes back, divided
    by [255]: every channel returns within [1 / 510] of its value.  The packed
    integer is a signed 32-bit one: it is negative exactly when the alpha
    channel is at least [1 / 2]. *)
Theorem u32ToRgba_of_rgbaToU32 :
  forall (h : heap R) out o r g b a,
    h !! out = Some o -> length o = 4%nat ->
    0 <= r <= 1 -> 0 <= g <= 1 -> 0 <= b <= 1 -> 0 <= a <= 1 ->
    exists r8 g8 b8 a8 : Z,
      (0 <= r8 <= 255)%Z /\ (0 <= g8 <= 255)%Z /\ (0 <= b8 <= 255)%Z /\
      (0 <= a8 <= 255)%Z /\
      rgbaToU32 r g b a = packed r8 g8 b8 a8 /\
      u32ToRgba out (rgbaToU32 r g b a) h
        = Some (out, <[out := [IZR r8 / 255; IZR g8 / 255; IZR b8 / 255; IZR a8 / 255]]> h) /\
      Rabs (IZR r8 / 255 - r) <= 1 / 510 /\ Rabs (IZR g8 / 255 - g) <= 1 / 510 /\
      Rabs (IZR b8 / 255 - b) <= 1 / 510 /\ Rabs (IZR a8 / 255 - a) <= 1 / 510 /\
      ((rgbaToU32 r g b a < 0)%Z <-> 1 / 2 <= a).
Proof.
  intros h out o r g b a Ho Hlen Hr Hg Hb Ha.
  destruct (channel_byte r Hr) as (r8 & Hr8 & Er & Dr & _).
  destruct (channel_byte g Hg) as (g8 & Hg8 & Eg & Dg & _).
  destruct (channel_byte b Hb) as (b8 & Hb8 & Eb & Db & _).
  destruct (channel_byte a Ha) as (a8 & Ha8 & Ea & Da & Hsign).
  assert (Hpack : rgbaToU32 r g b a = packed r8 g8 b8 a8).
  { unfold rgbaToU32. to_R. rewrite Er, Eg, Eb, Ea. apply pack_bytes; assumption. }
  destruct (unpack_bytes r8 g8 b8 a8 Hr8 Hg8 Hb8 Ha8) as (U0 & U1 & U2 & U3).
  exists r8, g8, b8, a8.
  do 5 (split; [ assumption | ]).
  split.
  - rewrite (u32ToRgba_run h out _ o Ho Hlen). rewrite Hpack.
    unfold u32ToRgba_val. rewrite U0, U1, U2, U3. reflexivity.
  - do 4 (split; [ assumption | ]).
    rewrite Hpack, <- Hsign. unfold packed.
    destruct (Z.leb_spec 128 a8); split; lia.
Qed.

Lemma u32ToRgba_of_rgbaToU32_witness :
  exists r8 g8 b8 a8 : Z,
    rgbaToU32 1 (1 / 2) 0 1 = packed r8 g8 b8 a8 /\
    u32ToRgba 3 (rgbaToU32 1 (1 / 2) 0 1) slerp_store
      = Some (3%positive,
              <[3%positive := [IZR r8 / 255; IZR g8 / 255; IZR b8 / 255; IZR a8 / 255]]>
                slerp_store).
Proof.
  destruct (u32ToRgba_of_rgbaToU32 slerp_store 3%positive [0; 0; 0; 0] 1 (1 / 2) 0 1)
    as (r8 & g8 & b8 & a8 & _ & _ & _ & _ & Hpack & Hrun & _);
    try reflexivity; try lra.
  exists r8, g8, b8, a8. auto.
Defined.

(** *** From hue, saturation and value *)

Lemma hsvToRgb_run {F : Type} `{!Scalar F} `{!Rem F} `{!Compare F}
    (h : heap F) out hue s v o :
  h !! out = Some o -> length o = 4%nat ->
  hsvToRgb out hue s v h = Some (out, <[out := hsvToRgb_val hue s v]> h).
Proof.
  intros Ho Hlen. apply wp_run_eq. explode.
  unfold hsvToRgb, hsvToRgb_val.
  destruct (hsvSector _ _ _) as [[r g] b]. steps. finish.
Qed.

(** the sector of a hue *)
Lemma hsvSector_cases (P : R * R * R -> Prop) (h c x : R) :
  (0 <= h < 1 -> P (c, x, 0)) ->
  (1 <= h < 2 -> P (x, c, 0)) ->
  (2 <= h < 3 -> P (0, c, x)) ->
  (3 <= h < 4 -> P (0, x, c)) ->
  (4 <= h < 5 -> P (x, 0, c)) ->
  (5 <= h < 6 -> P (c, 0, x)) ->
  (h < 0 \/ 6 <= h -> P (0, 0, 0)) ->
  P (hsvSector h c x).
Proof.
  intros H0 H1 H2 H3 H4 H5 H6.
  unfold hsvSector. to_reals. unfold Rleb, Rltb.
  repeat lazymatch goal with
         | |- P (if (if ?d1 then true else false) && (if ?d2 then true else false)
                 then _ else _) =>
             destruct d1; destruct d2; cbn [andb]; try (exfalso; lra)
         end.
  all: first [ apply H0; lra | apply H1; lra | apply H2; lra | apply H3; lra
             | apply H4; lra | apply H5; lra | apply H6; lra ].
Qed.

(** X29.  For a saturation and a value in [[0, 1]], [hsvToRgb] writes an
    opaque colour whose three channels lie between [v (1 - s)] and [v].  For
    a hue in [[0, 360)] one channel is [v] and one is [v (1 - s)]; for any
    other hue, [360] included, the three channels are the grey [v (1 - s)]. *)
Theorem hsvToRgb_channels :
  forall (h : heap R) out o hue s v,
    h !! out = Some o -> length o = 4%nat ->
    0 <= s <= 1 -> 0 <= v <= 1 ->
    exists r g b,
      hsvToRgb out hue s v h = Some (out, <[out := [r; g; b; 1]]> h) /\
      v * (1 - s) <= r <= v /\ v * (1 - s) <= g <= v /\ v * (1 - s) <= b <= v /\
      (0 <= hue < 360 ->
       (r = v \/ g = v \/ b = v) /\
       (r = v * (1 - s) \/ g = v * (1 - s) \/ b = v * (1 - s))) /\
      (hue < 0 \/ 360 <= hue ->
       r = v * (1 - s) /\ g = v * (1 - s) /\ b = v * (1 - s)).
Proof.
  intros h out o hue s v Ho Hlen Hs Hv.
  rewrite (hsvToRgb_run h out hue s v o Ho Hlen).
  unfold hsvToRgb_val. to_reals.
  set (h' := hue / 60). set (c := v * s).
  set (x := c * (1 - Rabs (Rrem h' 2 - 1))).
  assert (Hc : 0 <= c <= v) by (unfold c; nra).
  assert (Hx : 0 <= h' -> 0 <= x <= c).
  { intros Hh. destruct (Rrem_nonneg_range h' 2 Hh) as [Hlo Hhi]; [ lra | ].
    assert (Ha : 0 <= Rabs (Rrem h' 2 - 1) <= 1)
      by (split; [ apply Rabs_pos | apply Rabs_le; lra ]).
    unfold x. nra. }
  assert (Hm : v - c = v * (1 - s)) by (unfold c; ring).
  pattern (hsvSector h' c x). apply hsvSector_cases; intros Hh.
  all: eexists _, _, _; split; [ reflexivity | ].
  all: try (specialize (Hx ltac:(lra))).
  all: rewrite <- Hm; unfold h' in Hh.
  all: do 3 (split; [ lra | ]).
  all: split.
  (* a hue of the circle *)
  all: try (intros Hhue; destruct Hh as [Hh|Hh]; exfalso; lra).
  all: try (intros _; split;
            first [ left; lra | right; left; lra | right; right; lra ]).
  (* any other hue *)
  all: try (intros [Hhue|Hhue]; exfalso; lra).
  all: intros _; repeat split; lra.
Qed.

Lemma hsvToRgb_channels_witness :
  exists r g b,
    hsvToRgb 3 360 1 1 slerp_store = Some (3%positive, <[3%positive := [r; g; b; 1]]> slerp_store) /\
    r = 1 * (1 - 1) /\ g = 1 * (1 - 1) /\ b = 1 * (1 - 1).
Proof.
  destruct (hsvToRgb_channels slerp_store 3%positive [0; 0; 0; 0] 360 1 1)
    as (r & g & b & Hrun & _ & _ & _ & _ & Hgrey); try reflexivity; try lra.
  exists r, g, b. split; [ exact Hrun | apply Hgrey; lra ].
Defined.

(** ** Hit tests *)

Lemma intersect_sym (p q : R * R) (x y : R) : intersect p q x y = intersect q p x y.
Proof.
  destruct p as [xp yp], q as [xq yq]. unfold intersect. to_reals.
  unfold Rltb.
  destruct (Rlt_dec y yp) as [Hp|Hp]; destruct (Rlt_dec y yq) as [Hq|Hq];
    cbn [eqb negb andb]; try reflexivity.
  - assert (Hne : yq - yp <> 0) by lra.
    replace ((xp - xq) * (y - yq) / (yp - yq + 0) + xq)
      with ((xq - xp) * (y - yp) / (yq - yp + 0) + xp) by (field; lra).
    reflexivity.
  - assert (Hne : yq - yp <> 0) by lra.
    replace ((xp - xq) * (y - yq) / (yp - yq + 0) + xq)
      with ((xq - xp) * (y - yp) / (yq - yp + 0) + xp) by (field; lra).
    reflexivity.
Qed.

(** in exact arithmetic *)
Lemma pointInPolygon_exact :
  forall x y : R,
    pointInPolygon [] x y = false /\
    (forall p, pointInPolygon [p] x y = false) /\
    (forall p q, pointInPolygon [p; q] x y = false) /\
    (forall rx ry w h,
        0 <= w -> 0 <= h ->
        pointInPolygon [(rx, ry); (rx + w, ry); (rx + w, ry + h); (rx, ry + h)] x y
          = pointInRect x y rx ry w h).
Proof.
  intros x y. split; [ reflexivity | ]. split; [ | split ].
  - intros [xp yp]. cbn. to_reals.
    destruct (Rltb y yp); reflexivity.
  - intros p q. unfold pointInPolygon. cbn [last pointInPolygon_loop].
    rewrite (intersect_sym q p). destruct (intersect p q x y); reflexivity.
  - intros rx ry w h Hw Hh.
    unfold pointInPolygon, pointInRect. cbn [last pointInPolygon_loop intersect].
    to_reals.
    replace ((rx - rx) * (y - ry) / (ry + h - ry + 0) + rx) with rx
      by (unfold Rdiv; ring).
    replace ((rx - (rx + w)) * (y - ry) / (ry - ry + 0) + (rx + w))
      with (rx + w + - w * (y - ry) / (ry - ry + 0)) by (unfold Rdiv; ring).
    replace ((rx + w - (rx + w)) * (y - (ry + h)) / (ry - (ry + h) + 0) + (rx + w))
      with (rx + w) by (unfold Rdiv; ring).
    replace ((rx - (rx + w)) * (y - (ry + h)) / (ry + h - (ry + h) + 0) + rx)
      with (rx + - w * (y - (ry + h)) / (ry + h - (ry + h) + 0))
      by (unfold Rdiv; ring).
    unfold Rltb, Rleb.
    destruct (Rlt_dec y ry); destruct (Rlt_dec y (ry + h));
      destruct (Rle_dec ry y); destruct (Rle_dec rx x);
      destruct (Rlt_dec x rx); destruct (Rlt_dec x (rx + w));
      cbn [eqb negb andb]; try reflexivity; try (exfalso; lra).
Qed.

(** X30.  [pointInPolygon] finds no point inside an empty polygon or a
    polygon of one point, on any numbers.  In exact arithmetic it finds none
    inside a polygon of two points either, and for the four corners of a
    rectangle of non-negative width and height, listed round the rectangle,
    it agrees with [pointInRect]: the left and the lower edge belong to the
    rectangle, the right and the upper edge do not.  On binary64 the two
    readings of the one edge of a two-point polygon can round differently:
    [pointInPolygon([[0, 0], [1, 3]], 0x1.5555555555555p-2, 1)] is [true]. *)
Theorem pointInPolygon_degenerate_and_rectangle :
  (forall (F : Type) (S : Scalar F) (C : Compare F) (x y : F),
      pointInPolygon [] x y = false /\
      forall p, pointInPolygon [p] x y = false) /\
  (forall x y : R,
      (forall p q, pointInPolygon [p; q] x y = false) /\
      (forall rx ry w h,
          0 <= w -> 0 <= h ->
          pointInPolygon [(rx, ry); (rx + w, ry); (rx + w, ry + h); (rx, ry + h)] x y
            = pointInRect x y rx ry w h)) /\
  pointInPolygon (F := float) [(0, 0); (1, 3)]%float 0x1.5555555555555p-2%float 1%float
    = true.
Proof.
  split; [ | split ].
  - intros F S C x y. split; [ reflexivity | ].
    intros [xp yp]. unfold pointInPolygon. cbn [last pointInPolygon_loop intersect].
    rewrite eqb_reflx. reflexivity.
  - intros x y. destruct (pointInPolygon_exact x y) as (_ & _ & Htwo & Hrect).
    split; assumption.
  - vm_compute. reflexivity.
Qed.

Lemma pointInPolygon_degenerate_and_rectangle_witness :
  pointInPolygon [(1, 2); (1 + 3, 2); (1 + 3, 2 + 4); (1, 2 + 4)] 1 2
    = pointInRect 1 2 1 2 3 4.
Proof.
  destruct pointInPolygon_degenerate_and_rectangle as (_ & Hexact & _).
  destruct (Hexact 1 2) as [_ Hrect].
  apply Hrect; lra.
Defined.
